(** * Brainiac: the segmented streaming controller

    A shallow embedding of the three collaborating units of the chat
    route:

    - [StreamRecovery]: the [StreamRecoveryManager] class
      (lib/.server/llm/stream-recovery), an inactivity timer with
      bounded, backoff-scheduled retries and a health score;
    - [Switchable]: the [SwitchableStream] class
      (lib/.server/llm/switchable-stream), which drains a sequence of
      source streams into one outward stream;
    - [Chat]: the [onFinish] handler of [chatAction] (routes/api.chat),
      which accumulates usage and requests continuation segments.

    JavaScript numbers that hold counters, timestamps and token counts
    are integers here ([Z]); [Date.now()] is an explicit argument;
    callbacks and the logger append to an event trace. *)

From Stdlib Require Import ZArith List String Bool Lia Permutation DecimalString.
From Stdlib Require Import Ascii.
Import ListNotations.
Local Open Scope Z_scope.

(** ** JavaScript idioms shared by the three units *)

Module Js.

(** [x || d] on an optional number: [undefined] and [0] are falsy. *)
Definition orElse (x : option Z) (d : Z) : Z :=
  match x with
  | Some v => if v =? 0 then d else v
  | None => d
  end.

(** Truthiness of an optional boolean. *)
Definition truthy (b : option bool) : bool :=
  match b with
  | Some v => v
  | None => false
  end.

(** [`${n}`] for an integer. *)
Definition show (n : Z) : string := NilZero.string_of_int (Z.to_int n).

(** A property of an object literal that is spread over defaults:
    the key may be missing, present with value [undefined], or
    present with a value. *)
Inductive Field (A : Type) : Type :=
| absent
| undefined
| given (a : A).
Arguments absent {A}.
Arguments undefined {A}.
Arguments given {A} a.

(** [{ key: dflt, ...o }] read back at [key]. *)
Definition spread {A : Type} (dflt : A) (f : Field A) : option A :=
  match f with
  | absent => Some dflt
  | undefined => None
  | given a => Some a
  end.

Inductive Level : Type := debug | info | warn | error.

End Js.

(** ** The liveness monitor: [StreamRecoveryManager]

    The callbacks of the options are opaque: invoking one is recorded
    in the trace, and it returns without touching the manager (those
    [chatAction] supplies only log).  [_handleTimeout] is [async]: an
    activation that awaits [onTimeout] is suspended and continues
    later, and other operations may run in between. *)

Module StreamRecovery.
Import Js.

(** What the constructor receives. *)
Record Supplied : Type := mkSupplied {
  s_maxRetries : Field Z;
  s_timeout : Field Z;
  s_onTimeout : bool;
  s_onRecovery : bool;
  s_onMaxRetriesReached : bool;
  s_useExponentialBackoff : Field bool
}.

(** [this._options] after the constructor has merged the defaults.
    A callback field says whether a callback was supplied. *)
Record StreamRecoveryOptions : Type := mkOptions {
  maxRetries : option Z;
  timeout : option Z;
  onTimeout : bool;
  onRecovery : bool;
  onMaxRetriesReached : bool;
  useExponentialBackoff : option bool
}.

Definition Handle : Type := nat.

Record StreamRecoveryManager : Type := mkManager {
  _options : StreamRecoveryOptions;
  _retryCount : Z;
  _timeoutHandle : option Handle;
  _lastActivity : Z;
  _isActive : bool;
  _consecutiveFailures : Z;
  _lastErrorTime : option Z
}.

Inductive Callback : Type := CbTimeout | CbRecovery | CbMaxRetriesReached.

Inductive Event : Type :=
| Log (l : Level) (msg : string)
| Call (cb : Callback).

(** The manager together with the part of the JavaScript runtime it
    talks to: the timers scheduled with [setTimeout] and not yet
    fired or cleared (handle and delay), the next fresh handle, the
    number of [_handleTimeout] activations suspended at their
    [await], and the trace of log lines and callback invocations,
    oldest first. *)
Record Runtime : Type := mkRuntime {
  this : StreamRecoveryManager;
  timers : list (Handle * Z);
  next_handle : Handle;
  suspended : nat;
  events : list Event
}.

(** *** Field updates *)

Definition set_this (f : StreamRecoveryManager -> StreamRecoveryManager)
           (w : Runtime) : Runtime :=
  mkRuntime (f (this w)) (timers w) (next_handle w) (suspended w) (events w).

Definition with_retryCount (v : Z) (m : StreamRecoveryManager) :=
  mkManager (_options m) v (_timeoutHandle m) (_lastActivity m)
            (_isActive m) (_consecutiveFailures m) (_lastErrorTime m).

Definition with_timeoutHandle (v : option Handle) (m : StreamRecoveryManager) :=
  mkManager (_options m) (_retryCount m) v (_lastActivity m)
            (_isActive m) (_consecutiveFailures m) (_lastErrorTime m).

Definition with_lastActivity (v : Z) (m : StreamRecoveryManager) :=
  mkManager (_options m) (_retryCount m) (_timeoutHandle m) v
            (_isActive m) (_consecutiveFailures m) (_lastErrorTime m).

Definition with_isActive (v : bool) (m : StreamRecoveryManager) :=
  mkManager (_options m) (_retryCount m) (_timeoutHandle m) (_lastActivity m)
            v (_consecutiveFailures m) (_lastErrorTime m).

Definition with_consecutiveFailures (v : Z) (m : StreamRecoveryManager) :=
  mkManager (_options m) (_retryCount m) (_timeoutHandle m) (_lastActivity m)
            (_isActive m) v (_lastErrorTime m).

Definition with_lastErrorTime (v : option Z) (m : StreamRecoveryManager) :=
  mkManager (_options m) (_retryCount m) (_timeoutHandle m) (_lastActivity m)
            (_isActive m) (_consecutiveFailures m) v.

Definition emit (e : Event) (w : Runtime) : Runtime :=
  mkRuntime (this w) (timers w) (next_handle w) (suspended w) (events w ++ [e]).

(** [if (cb) cb()] *)
Definition invoke (supplied : bool) (cb : Callback) (w : Runtime) : Runtime :=
  if supplied then emit (Call cb) w else w.

(** *** Timers *)

Definition clearTimeout (h : Handle) (w : Runtime) : Runtime :=
  mkRuntime (this w)
            (filter (fun t => negb (Nat.eqb (fst t) h)) (timers w))
            (next_handle w) (suspended w) (events w).

Definition setTimeout (ms : Z) (w : Runtime) : Handle * Runtime :=
  (next_handle w,
   mkRuntime (this w) (timers w ++ [(next_handle w, ms)])
             (S (next_handle w)) (suspended w) (events w)).

(** *** The class *)

Definition constructor (o : Supplied) (now : Z) : Runtime :=
  mkRuntime
    (mkManager
       (mkOptions (spread 5 (s_maxRetries o))
                  (spread 60000 (s_timeout o))
                  (s_onTimeout o) (s_onRecovery o) (s_onMaxRetriesReached o)
                  (spread true (s_useExponentialBackoff o)))
       0 None now true 0 None)
    [] 1%nat 0%nat [].

(** The delay [_resetTimeout] computes before it arms the timer. *)
Definition timeoutDuration (m : StreamRecoveryManager) : Z :=
  let timeoutDuration := orElse (timeout (_options m)) 60000 in
  if truthy (useExponentialBackoff (_options m)) && (_retryCount m >? 0)
  then Z.min (timeoutDuration * 2 ^ _retryCount m) 300000
  else timeoutDuration.

Definition backoff_line (m : StreamRecoveryManager) : string :=
  ("Using exponential backoff: " ++ show (timeoutDuration m)
     ++ "ms for retry " ++ show (_retryCount m))%string.

Definition _resetTimeout (w : Runtime) : Runtime :=
  let w := match _timeoutHandle (this w) with
           | Some h => clearTimeout h w
           | None => w
           end in
  if negb (_isActive (this w)) then w
  else
    let d := timeoutDuration (this w) in
    let w := if truthy (useExponentialBackoff (_options (this w)))
                && (_retryCount (this w) >? 0)
             then emit (Log info (backoff_line (this w))) w
             else w in
    let '(h, w) := setTimeout d w in
    set_this (with_timeoutHandle (Some h)) w.

Definition startMonitoring (w : Runtime) : Runtime := _resetTimeout w.

Definition updateActivity (now : Z) (w : Runtime) : Runtime :=
  let w := set_this (with_lastActivity now) w in
  let w := set_this (with_consecutiveFailures 0) w in
  _resetTimeout w.

Definition stop (w : Runtime) : Runtime :=
  let w := set_this (with_isActive false) w in
  match _timeoutHandle (this w) with
  | Some h => set_this (with_timeoutHandle None) (clearTimeout h w)
  | None => w
  end.

(** The retry ceiling [_handleTimeout] compares against. *)
Definition retryCeiling (o : StreamRecoveryOptions) : Z :=
  orElse (maxRetries o) 5.

Definition show_opt (x : option Z) : string :=
  match x with
  | Some v => show v
  | None => "undefined"
  end.

Definition ceiling_line (m : StreamRecoveryManager) : string :=
  ("Max retries (" ++ show_opt (maxRetries (_options m))
     ++ ") reached for stream recovery")%string.

Definition attempt_line (m : StreamRecoveryManager) : string :=
  ("Attempting stream recovery (attempt " ++ show (_retryCount m) ++ "/"
     ++ show_opt (maxRetries (_options m)) ++ ")")%string.

(** The tail of [_handleTimeout], from the comment "Reset monitoring
    after recovery attempt" on. *)
Definition _handleTimeout_resume (w : Runtime) : Runtime :=
  let w := _resetTimeout w in
  invoke (onRecovery (_options (this w))) CbRecovery w.

(** An activation of [_handleTimeout] that reaches its [await] is
    parked until the runtime schedules it again. *)
Definition suspend (w : Runtime) : Runtime :=
  mkRuntime (this w) (timers w) (next_handle w) (S (suspended w)) (events w).

(** The body of [_handleTimeout]; [await] says what happens at
    [await this._options.onTimeout()], which is only reached when a
    callback is supplied. *)
Definition _handleTimeout_body (await : Runtime -> Runtime)
           (now : Z) (w : Runtime) : Runtime :=
  let w := set_this (with_consecutiveFailures
                       (_consecutiveFailures (this w) + 1)) w in
  let w := set_this (with_lastErrorTime (Some now)) w in
  if _retryCount (this w) >=? retryCeiling (_options (this w)) then
    let w := emit (Log error (ceiling_line (this w))) w in
    let w := stop w in
    invoke (onMaxRetriesReached (_options (this w))) CbMaxRetriesReached w
  else
    let w := set_this (with_retryCount (_retryCount (this w) + 1)) w in
    let w := emit (Log info (attempt_line (this w))) w in
    if onTimeout (_options (this w)) then
      await (emit (Call CbTimeout) w)
    else _handleTimeout_resume w.

(** [_handleTimeout] up to its [await]. *)
Definition _handleTimeout_start : Z -> Runtime -> Runtime :=
  _handleTimeout_body suspend.

(** A suspended activation is scheduled again. *)
Definition resume (w : Runtime) : Runtime :=
  match suspended w with
  | O => w
  | S n =>
      _handleTimeout_resume
        (mkRuntime (this w) (timers w) (next_handle w) n (events w))
  end.

(** [_handleTimeout] when nothing else touches the manager while it
    awaits the callback. *)
Definition _handleTimeout : Z -> Runtime -> Runtime :=
  _handleTimeout_body _handleTimeout_resume.

(** The function handed to [setTimeout]. *)
Definition timer_callback (handle : Z -> Runtime -> Runtime)
           (now : Z) (w : Runtime) : Runtime :=
  if _isActive (this w)
  then handle now (emit (Log warn "Stream timeout detected") w)
  else w.

Definition is_pending (h : Handle) (w : Runtime) : bool :=
  existsb (fun t => Nat.eqb (fst t) h) (timers w).

(** The runtime fires timer [h]: a timer that is not pending never
    fires; one that fires is no longer pending. *)
Definition fire_with (handle : Z -> Runtime -> Runtime)
           (h : Handle) (now : Z) (w : Runtime) : Runtime :=
  if is_pending h w
  then timer_callback handle now (clearTimeout h w)
  else w.

Definition reportError (now : Z) (w : Runtime) : Runtime :=
  let w := set_this (with_consecutiveFailures
                       (_consecutiveFailures (this w) + 1)) w in
  set_this (with_lastErrorTime (Some now)) w.

Definition reset (now : Z) (w : Runtime) : Runtime :=
  let w := set_this (with_retryCount 0) w in
  let w := set_this (with_consecutiveFailures 0) w in
  let w := set_this (with_lastActivity now) w in
  let w := set_this (with_lastErrorTime None) w in
  _resetTimeout w.

Definition _calculateHealthScore (now : Z) (m : StreamRecoveryManager) : Z :=
  let failurePenalty := _consecutiveFailures m * 20 in
  let retryPenalty := _retryCount m * 15 in
  let timeSinceActivity := now - _lastActivity m in
  let stalePenalty := if timeSinceActivity >? 30000 then 10 else 0 in
  Z.max 0 (100 - failurePenalty - retryPenalty - stalePenalty).

Definition isHealthy (now : Z) (m : StreamRecoveryManager) : bool :=
  (_calculateHealthScore now m >? 50) && _isActive m.

(** *** Everything that can happen to a manager *)

Inductive Op : Type :=
| StartMonitoring
| UpdateActivity (now : Z)
| ReportError (now : Z)
| Stop
| Reset (now : Z)
| Fire (h : Handle) (now : Z)   (* a timer fires; its handler runs up to the await *)
| Resume.                       (* a suspended handler continues *)

Definition exec (op : Op) (w : Runtime) : Runtime :=
  match op with
  | StartMonitoring => startMonitoring w
  | UpdateActivity now => updateActivity now w
  | ReportError now => reportError now w
  | Stop => stop w
  | Reset now => reset now w
  | Fire h now => fire_with _handleTimeout_start h now w
  | Resume => resume w
  end.

Definition run (ops : list Op) (w : Runtime) : Runtime :=
  fold_left (fun w op => exec op w) ops w.

(** States a manager can be in: built by the constructor, then
    driven by any sequence of operations. *)
Definition reachable (w : Runtime) : Prop :=
  exists o t0 ops, w = run ops (constructor o t0).

(** The timer fires and its handler runs to completion. *)
Definition fire (h : Handle) (now : Z) (w : Runtime) : Runtime :=
  fire_with _handleTimeout h now w.

(** The inactivity timeout fires: the pending timer goes off. *)
Definition fire_next (now : Z) (w : Runtime) : Runtime :=
  match timers w with
  | (h, _) :: _ => fire h now w
  | [] => w
  end.

(** Consecutive firings, at the given times, with no activity in
    between. *)
Definition fire_each (nows : list Z) (w : Runtime) : Runtime :=
  fold_left (fun w now => fire_next now w) nows w.

Definition is_call (cb : Callback) (e : Event) : bool :=
  match e, cb with
  | Call CbTimeout, CbTimeout => true
  | Call CbRecovery, CbRecovery => true
  | Call CbMaxRetriesReached, CbMaxRetriesReached => true
  | _, _ => false
  end.

(** How often a callback was invoked in a trace. *)
Definition calls (cb : Callback) (es : list Event) : nat :=
  List.length (filter (is_call cb) es).

(** Every pending timer is the one [_timeoutHandle] refers to, and a
    stopped manager has none. *)
Definition owns_timers (w : Runtime) : Prop :=
  (forall t, In t (timers w) -> _timeoutHandle (this w) = Some (fst t)) /\
  (_isActive (this w) = false -> timers w = []).

(** The line [_resetTimeout] logs when it backs off. *)
Definition backoff_note (m : StreamRecoveryManager) : list Event :=
  if truthy (useExponentialBackoff (_options m)) && (_retryCount m >? 0)
  then [Log info (backoff_line m)]
  else [].

(** The fields of the manager a firing at the ceiling leaves behind. *)
Definition given_up (now : Z) (m : StreamRecoveryManager) : StreamRecoveryManager :=
  with_timeoutHandle None
    (with_isActive false
       (with_lastErrorTime (Some now)
          (with_consecutiveFailures (_consecutiveFailures m + 1) m))).

(** The fields of the manager a firing below the ceiling sets before
    it re-arms the timer. *)
Definition retried (now : Z) (m : StreamRecoveryManager) : StreamRecoveryManager :=
  with_retryCount (_retryCount m + 1)
    (with_lastErrorTime (Some now)
       (with_consecutiveFailures (_consecutiveFailures m + 1) m)).

Definition if_supplied (supplied : bool) (cb : Callback) : list Event :=
  if supplied then [Call cb] else [].

(** The configured base timeout as [_resetTimeout] reads it. *)
Definition baseTimeout (o : StreamRecoveryOptions) : Z := orElse (timeout o) 60000.

(** A manager built with the defaults, monitoring since time 0. *)
Definition fresh : Runtime :=
  startMonitoring
    (constructor (mkSupplied absent absent true false true absent) 0).

(** A manager configured with [maxRetries: 0], monitoring since time 0. *)
Definition no_retries : Runtime :=
  startMonitoring
    (constructor (mkSupplied (given 0) absent true false true absent) 0).

(** A manager configured with a ten-minute timeout, before any retry. *)
Definition ten_minutes : Runtime :=
  startMonitoring
    (constructor (mkSupplied absent (given 600000) true false true absent) 0).

(** The delays of the timers that go off when the inactivity timeout
    fires at each of [nows] in turn. *)
Fixpoint delays (nows : list Z) (w : Runtime) : list Z :=
  match nows with
  | [] => []
  | now :: nows' => map snd (timers w) ++ delays nows' (fire_next now w)
  end.

(** The counters [reset] is there to clear. *)
Definition counters_cleared (m : StreamRecoveryManager) : Prop :=
  _retryCount m = 0 /\ _consecutiveFailures m = 0 /\ _lastErrorTime m = None.

(** The health score in the words of the design: 100, less 20 per
    consecutive failure, less 15 per retry, less 10 when idle for more
    than 30 s, floored at 0. *)
Definition healthScore_design (consecutiveFailures retryCount idle : Z) : Z :=
  Z.max 0 (100 - 20 * consecutiveFailures - 15 * retryCount
           - (if 30000 <? idle then 10 else 0)).

(** The backoff schedule in the words of the design. *)
Definition backoff_design (baseTimeout k : Z) : Z :=
  Z.min (baseTimeout * 2 ^ k) 300000.

(** [getStatus()] *)
Record Status : Type := mkStatus {
  st_isActive : bool;
  st_retryCount : Z;
  st_consecutiveFailures : Z;
  st_lastActivity : Z;
  st_lastErrorTime : option Z;
  st_timeSinceLastActivity : Z;
  st_healthScore : Z
}.

Definition getStatus (now : Z) (m : StreamRecoveryManager) : Status :=
  mkStatus (_isActive m) (_retryCount m) (_consecutiveFailures m)
           (_lastActivity m) (_lastErrorTime m) (now - _lastActivity m)
           (_calculateHealthScore now m).

Definition is_reset (op : Op) : bool :=
  match op with
  | Reset _ => true
  | _ => false
  end.

(** What holds of a manager and its timers whatever has been done to
    it: the one timer that may be pending is the one the handle names,
    it waits for the delay the present retry count prescribes, the
    counters are in range, and the max-retries callback has been
    invoked at most once, and not at all while the manager is
    active. *)
Definition sound (w : Runtime) : Prop :=
  owns_timers w /\
  (List.length (timers w) <= 1)%nat /\
  (forall t, In t (timers w) ->
             snd t = timeoutDuration (this w) /\ (fst t < next_handle w)%nat) /\
  0 <= _retryCount (this w) <= Z.max 0 (retryCeiling (_options (this w))) /\
  0 <= _consecutiveFailures (this w) /\
  (calls CbMaxRetriesReached (events w) <= 1)%nat /\
  (_isActive (this w) = true -> calls CbMaxRetriesReached (events w) = 0%nat).

(** The timeout callback has been invoked once per counted retry. *)
Definition retries_called_back (w : Runtime) : Prop :=
  calls CbTimeout (events w) =
  if onTimeout (_options (this w)) then Z.to_nat (_retryCount (this w)) else 0%nat.

(** The monitoring task of [chatAction]: for every part of the first
    result's [fullStream], [updateActivity], and [reportError] when
    the part is an error; [reportError] when the iteration throws;
    [stop] in any case.  A part is the time it arrives at and whether
    it is an error part. *)
Definition monitorStream (parts : list (Z * bool)) (thrown : option Z) : list Op :=
  flat_map (fun part : Z * bool =>
              UpdateActivity (fst part)
                :: (if snd part then [ReportError (fst part)] else []))
           parts
    ++ match thrown with
       | Some now => [ReportError now]
       | None => []
       end
    ++ [Stop].

End StreamRecovery.

(** ** The segment switcher: [SwitchableStream]

    A source is a finite sequence of reads.  The class is described
    twice, from the same parts.  [switchSource] and [handOver] are the
    call on a switcher at rest, with nothing else happening until the
    source has been drained.  [Running] and [exec] take the class step
    by step: a call waits for the previous pump and for the
    cancellation of the previous reader, a pump waits for every read,
    and [close] or the next call can come in between.  Callers await
    each call of [switchSource], so at most one call waits at a time
    and the pumps of one switcher never overlap.  The consumer of the
    outward stream and the writable side of the [TransformStream] are
    left out. *)

Module Switchable.
Import Js.

(** A chunk is opaque to the switcher. *)
Definition Chunk : Type := string.

(** Why the platform throws a [TypeError] of its own; the wording of
    its message is the platform's. *)
Inductive Refusal : Type :=
| stream_is_locked      (* getReader() on a stream that is locked *)
| cannot_enqueue        (* enqueue() on a readable side that is closing, closed or errored *)
| reader_is_released    (* cancel() or read() on a reader that has given up its lock *)
| reader_is_null        (* a member read on this._currentReader while it is null *)
| no_message.           (* error.message read on null or undefined *)

(** What a call throws or a promise is rejected with: [error: any]. *)
Inductive Fault : Type :=
| thrown_null
| thrown_undefined
| thrown (message : option string)   (* any other value; its [message], when it has one *)
| type_error (why : Refusal).

(** Whether [error.message] can be read: on [null] and [undefined]
    the property access throws. *)
Definition has_message (f : Fault) : bool :=
  match f with
  | thrown_null => false
  | thrown_undefined => false
  | thrown _ => true
  | type_error _ => true
  end.

(** How the reads of a source end, after its chunks: with
    [{ done: true }], or with a rejected read. *)
Inductive Ending : Type :=
| Completed
| Failed (f : Fault).

(** The [ReadableStream] handed to [switchSource].  A stream that is
    already locked to a reader refuses [getReader()]. *)
Record ReadableStream : Type := mkSource {
  chunks : list Chunk;
  ending : Ending;
  locked : bool
}.

(** A reader, by the state of the stream it holds: what it has still
    to give and how that ends; closed; or such that every read and
    every cancellation is rejected with [f] (the stream is errored,
    or the reader has given up its lock). *)
Inductive Reader : Type :=
| Readable (unread : list Chunk) (e : Ending)
| Closed
| Errored (f : Fault).

(** What a read settles with. *)
Inductive ReadResult : Type :=
| chunk (value : Chunk)
| done
| failed (f : Fault).

(** [reader.read()], once it has settled. *)
Definition read (r : Reader) : ReadResult * Reader :=
  match r with
  | Readable (value :: rest) e => (chunk value, Readable rest e)
  | Readable [] Completed => (done, Closed)
  | Readable [] (Failed f) => (failed f, Errored f)
  | Closed => (done, Closed)
  | Errored f => (failed f, Errored f)
  end.

(** [reader.cancel()]: the fault its promise is rejected with, if it
    is, and the reader afterwards.  A stream that is not errored is
    closed, whatever it had still to give. *)
Definition cancel (r : Reader) : option Fault * Reader :=
  match r with
  | Errored f => (Some f, Errored f)
  | _ => (None, Closed)
  end.

(** [reader.releaseLock()] *)
Definition releaseLock (r : Reader) : Reader :=
  Errored (type_error reader_is_released).

(** The readable side of the [TransformStream], which the controller
    writes to: open; closing or closed after [terminate()]; or
    errored with
    [new Error(`Stream failed after ${errorCount} errors. Last error: ${last.message}`)]. *)
Inductive OutState : Type :=
| Writable
| Terminated
| Broken (errorCount : Z) (last : Fault).

(** The chunks the readable side holds, oldest first, and its state.
    Its consumer is left out: nothing is taken from the queue. *)
Record Outward : Type := mkOutward {
  queue : list Chunk;
  out_state : OutState
}.

(** A promise that has settled. *)
Inductive Promise : Type := fulfilled | rejected (reason : Fault).

(** A call of the logger: level, text, and the error passed along. *)
Definition Line : Type := Level * string * option Fault.

Record SwitchableStream : Type := mkStream {
  _controller : bool;                 (* false once set to null *)
  _currentReader : option Reader;
  _switches : Z;
  _isActive : bool;
  _errorCount : Z;
  _maxErrors : Z;
  _pumpingPromise : option Promise;   (* of the last pump that has settled *)
  readable : Outward;
  log : list Line
}.

(** *** Field updates *)

Definition with_controller (v : bool) (s : SwitchableStream) :=
  mkStream v (_currentReader s) (_switches s) (_isActive s) (_errorCount s)
           (_maxErrors s) (_pumpingPromise s) (readable s) (log s).

Definition with_currentReader (v : option Reader) (s : SwitchableStream) :=
  mkStream (_controller s) v (_switches s) (_isActive s) (_errorCount s)
           (_maxErrors s) (_pumpingPromise s) (readable s) (log s).

Definition with_switches (v : Z) (s : SwitchableStream) :=
  mkStream (_controller s) (_currentReader s) v (_isActive s) (_errorCount s)
           (_maxErrors s) (_pumpingPromise s) (readable s) (log s).

Definition with_isActive (v : bool) (s : SwitchableStream) :=
  mkStream (_controller s) (_currentReader s) (_switches s) v (_errorCount s)
           (_maxErrors s) (_pumpingPromise s) (readable s) (log s).

Definition with_errorCount (v : Z) (s : SwitchableStream) :=
  mkStream (_controller s) (_currentReader s) (_switches s) (_isActive s) v
           (_maxErrors s) (_pumpingPromise s) (readable s) (log s).

Definition with_pumpingPromise (v : option Promise) (s : SwitchableStream) :=
  mkStream (_controller s) (_currentReader s) (_switches s) (_isActive s)
           (_errorCount s) (_maxErrors s) v (readable s) (log s).

Definition with_readable (v : Outward) (s : SwitchableStream) :=
  mkStream (_controller s) (_currentReader s) (_switches s) (_isActive s)
           (_errorCount s) (_maxErrors s) (_pumpingPromise s) v (log s).

Definition logger (l : Level) (msg : string) (s : SwitchableStream) :=
  mkStream (_controller s) (_currentReader s) (_switches s) (_isActive s)
           (_errorCount s) (_maxErrors s) (_pumpingPromise s) (readable s)
           (log s ++ [(l, msg, None)]).

(** A call of the logger that passes an error along. *)
Definition logger_with (l : Level) (msg : string) (detail : Fault)
           (s : SwitchableStream) :=
  mkStream (_controller s) (_currentReader s) (_switches s) (_isActive s)
           (_errorCount s) (_maxErrors s) (_pumpingPromise s) (readable s)
           (log s ++ [(l, msg, Some detail)]).

(** *** The controller of the outward stream *)

(** [controller.enqueue(value)]: throws once the readable side is
    closing, closed or errored. *)
Definition enqueue (v : Chunk) (o : Outward) : Outward + Fault :=
  match out_state o with
  | Writable => inl (mkOutward (queue o ++ [v]) Writable)
  | _ => inr (type_error cannot_enqueue)
  end.

(** [controller.error(e)]: a readable side that is open, or closing
    with chunks left, drops the chunks it holds and is errored; one
    that is closed or errored stays as it is. *)
Definition controller_error (errorCount : Z) (last : Fault) (o : Outward)
  : Outward :=
  match out_state o with
  | Writable => mkOutward [] (Broken errorCount last)
  | Terminated =>
      match queue o with
      | [] => o
      | _ :: _ => mkOutward [] (Broken errorCount last)
      end
  | Broken _ _ => o
  end.

(** [controller.terminate()]: the chunks held stay to be read. *)
Definition terminate (o : Outward) : Outward :=
  match out_state o with
  | Writable => mkOutward (queue o) Terminated
  | _ => o
  end.

(** *** The class *)

Definition constructor : SwitchableStream :=
  mkStream true None 0 true 0 10 None (mkOutward [] Writable) [].

Definition _handleError (error : Fault) (s : SwitchableStream)
  : SwitchableStream :=
  let s := with_errorCount (_errorCount s + 1) s in
  let s := logger_with Js.error
             ("Stream error #" ++ show (_errorCount s) ++ ":")%string error s in
  if _errorCount s >=? _maxErrors s then
    let s := logger Js.error
               ("Max errors (" ++ show (_maxErrors s)
                  ++ ") reached, terminating stream")%string s in
    let s := with_isActive false s in
    if _controller s then
      (* the argument of controller.error is built inside the try *)
      if has_message error then
        with_readable (controller_error (_errorCount s) error (readable s)) s
      else
        logger_with Js.error "Error while reporting error to controller:"
                    (type_error no_message) s
    else s
  else if _controller s then
    logger warn "Stream error occurred but will continue" s
  else s.

(** The [while] loop of [_pumpStream] on the reads the source still
    has, when nothing else touches the switcher meanwhile: the
    exception that leaves the loop, if one does, the reader as the
    loop leaves it, and the stream. *)
Fixpoint pump_loop (unread : list Chunk) (e : Ending) (s : SwitchableStream)
  : option Fault * Reader * SwitchableStream :=
  if negb (_isActive s) then (None, Readable unread e, s)
  else
    match unread with
    | [] =>
        match e with
        | Completed => (None, Closed, logger info "Stream read complete" s)
        | Failed f => (Some f, Errored f, s)
        end
    | value :: rest =>
        if negb (_controller s) then
          (None, Readable rest e,
           logger warn "Controller became null during streaming" s)
        else
          match enqueue value (readable s) with
          | inl o => pump_loop rest e (with_readable o s)
          | inr f => (Some f, Readable rest e, s)
          end
    end.

(** The reads a reader still has to offer. *)
Definition reads (r : Reader) : list Chunk * Ending :=
  match r with
  | Readable unread e => (unread, e)
  | Closed => ([], Completed)
  | Errored f => ([], Failed f)
  end.

(** [new Error('Stream is not properly initialized')] *)
Definition not_initialized : Fault :=
  thrown (Some "Stream is not properly initialized"%string).

(** What follows the loop: the reader is as the loop left it, and
    the [catch] handles what the loop has thrown. *)
Definition after_loop (x : option Fault * Reader * SwitchableStream)
  : SwitchableStream :=
  let '(raised, r, s) := x in
  let s := with_currentReader (Some r) s in
  match raised with
  | Some f => _handleError f s
  | None => s
  end.

(** [_pumpStream], run until its promise settles with nothing else
    touching the switcher meanwhile. *)
Definition _pumpStream (s : SwitchableStream) : Promise * SwitchableStream :=
  match _currentReader s with
  | None => (rejected not_initialized, s)
  | Some reader =>
      if negb (_controller s)
      then (rejected not_initialized, s)
      else
        (fulfilled,
         after_loop (pump_loop (fst (reads reader)) (snd (reads reader)) s))
  end.

(** What [switchSource] does on an inactive switcher. *)
Definition rejected_switch (s : SwitchableStream) : SwitchableStream :=
  logger warn "Cannot switch source on inactive stream" s.

(** [this._currentReader.cancel()], when there is a reader: how the
    promise it returns settles. *)
Definition cancelPrevious (s : SwitchableStream)
  : option (option Fault) * SwitchableStream :=
  match _currentReader s with
  | Some r => (Some (fst (cancel r)), with_currentReader (Some (snd (cancel r))) s)
  | None => (None, s)
  end.

(** After [await this._currentReader.cancel()]: the lock is released,
    or the [catch] logs what the cancellation, or reading
    [releaseLock] off a reader that is null by now, has thrown. *)
Definition afterCancel (outcome : option Fault) (s : SwitchableStream)
  : SwitchableStream :=
  match outcome with
  | Some f => logger_with warn "Error canceling previous reader:" f s
  | None =>
      match _currentReader s with
      | Some r => with_currentReader (Some (releaseLock r)) s
      | None =>
          logger_with warn "Error canceling previous reader:"
                      (type_error reader_is_null) s
      end
  end.

(** [this._currentReader = newStream.getReader(); this._switches++]
    and the log line; [None] when [getReader()] throws. *)
Definition getReader (newStream : ReadableStream) (s : SwitchableStream)
  : option SwitchableStream :=
  if locked newStream then None
  else
    let s := with_currentReader
               (Some (Readable (chunks newStream) (ending newStream))) s in
    let s := with_switches (_switches s + 1) s in
    Some (logger info ("Switching to source #" ++ show (_switches s))%string s).

(** The [catch] of [switchSource]. *)
Definition switch_failed (error : Fault) (s : SwitchableStream)
  : SwitchableStream :=
  _handleError error
    (logger_with Js.error "Error switching stream source:" error s).

(** [switchSource] on a switcher at rest (no pump in flight, no other
    call under way), with nothing else touching the switcher until
    the source has been drained. *)
Definition switchSource (newStream : ReadableStream) (s : SwitchableStream)
  : SwitchableStream :=
  if negb (_isActive s) then rejected_switch s
  else
    (* the previous pump has settled; its outcome is ignored *)
    let s := match cancelPrevious s with
             | (Some outcome, s) => afterCancel outcome s
             | (None, s) => s
             end in
    match getReader newStream s with
    | Some s =>
        let '(p, s) := _pumpStream s in
        with_pumpingPromise (Some p) s
    | None => switch_failed (type_error stream_is_locked) s
    end.

(** The line [close] logs. *)
Definition closed_line (s : SwitchableStream) : string :=
  ("Stream closed after " ++ show (_switches s) ++ " switches and "
     ++ show (_errorCount s) ++ " errors")%string.

(** [close()].  The promise of [cancel()] is not awaited; the reader
    is cancelled, releases its lock and is dropped. *)
Definition close (s : SwitchableStream) : SwitchableStream :=
  let s := with_isActive false s in
  let s := match _currentReader s with
           | Some _ => with_currentReader None s
           | None => s
           end in
  let s := if _controller s
           then with_controller false (with_readable (terminate (readable s)) s)
           else s in
  logger info (closed_line s) s.

Definition switches (s : SwitchableStream) : Z := _switches s.
Definition isActive (s : SwitchableStream) : bool := _isActive s.
Definition errorCount (s : SwitchableStream) : Z := _errorCount s.

(** The segments of a request, handed over one after the other, each
    drained before the next is handed over. *)
Definition handOver (sources : list ReadableStream) (s : SwitchableStream)
  : SwitchableStream :=
  fold_left (fun s src => switchSource src s) sources s.

(** *** The switcher step by step *)

(** [switchSource] and [_pumpStream] are asynchronous: a call waits
    for the previous pump and for the cancellation of the previous
    reader, and a pump waits for every read.  While they wait,
    [close] can be called, the next call of [switchSource] can be
    made, and the other of the two can go on. *)

(** Where a call of [switchSource] waits, with the stream it was
    given: at [await this._pumpingPromise.catch(...)], or at
    [await this._currentReader.cancel()] with the way that promise
    settles. *)
Inductive Waiting : Type :=
| for_pump (newStream : ReadableStream)
| for_cancel (newStream : ReadableStream) (outcome : option Fault).

(** The pump in flight, if there is one: it waits at
    [await this._currentReader.read()], for a read that has not
    settled yet ([Some None]) or has settled with a result the pump
    has not looked at yet. *)
Definition Flight : Type := option (option ReadResult).

(** A switcher with what is under way.  While a pump is in flight
    the promise it returned is pending; [_pumpingPromise] takes its
    outcome when it settles. *)
Record Running : Type := mkRunning {
  this : SwitchableStream;
  inbox : Flight;
  waiting : option Waiting
}.

(** The promise of [_pumpStream] settles. *)
Definition pump_ends (p : Promise) (s : SwitchableStream)
  : SwitchableStream * Flight :=
  (with_pumpingPromise (Some p) s, None).

(** The head of the [while] loop, up to the next [await]. *)
Definition loop_head (s : SwitchableStream) : SwitchableStream * Flight :=
  if negb (_isActive s) then pump_ends fulfilled s
  else
    match _currentReader s with
    | Some _ => (s, Some None)
    | None => pump_ends fulfilled (_handleError (type_error reader_is_null) s)
    end.

(** [_pumpStream] up to its first [await]. *)
Definition _pumpStream_start (s : SwitchableStream) : SwitchableStream * Flight :=
  match _currentReader s with
  | None => pump_ends (rejected not_initialized) s
  | Some _ =>
      if negb (_controller s) then pump_ends (rejected not_initialized) s
      else loop_head s
  end.

(** [_pumpStream] from the read that has settled to the next
    [await]. *)
Definition _pumpStream_resume (result : ReadResult) (s : SwitchableStream)
  : SwitchableStream * Flight :=
  match result with
  | done => pump_ends fulfilled (logger info "Stream read complete" s)
  | failed f => pump_ends fulfilled (_handleError f s)
  | chunk value =>
      if negb (_controller s) then
        pump_ends fulfilled
                  (logger warn "Controller became null during streaming" s)
      else
        match enqueue value (readable s) with
        | inl o => loop_head (with_readable o s)
        | inr f => pump_ends fulfilled (_handleError f s)
        end
  end.

(** The last part of [switchSource]: the new reader, the counter,
    the new pump up to its first [await]; or the [catch]. *)
Definition acquire (newStream : ReadableStream) (s : SwitchableStream)
           (fl : Flight) : Running :=
  match getReader newStream s with
  | Some s => mkRunning (fst (_pumpStream_start s)) (snd (_pumpStream_start s)) None
  | None => mkRunning (switch_failed (type_error stream_is_locked) s) fl None
  end.

(** [switchSource] from the cancellation of the previous reader on. *)
Definition after_pump (newStream : ReadableStream) (w : Running) : Running :=
  match cancelPrevious (this w) with
  | (Some outcome, s) => mkRunning s (inbox w) (Some (for_cancel newStream outcome))
  | (None, s) => acquire newStream s (inbox w)
  end.

(** Whether [this._pumpingPromise] is there. *)
Definition pumped (w : Running) : bool :=
  match inbox w, _pumpingPromise (this w) with
  | None, None => false
  | _, _ => true
  end.

(** A call of [switchSource], up to its first [await]. *)
Definition switchSource_start (newStream : ReadableStream) (w : Running)
  : Running :=
  if negb (_isActive (this w)) then
    mkRunning (rejected_switch (this w)) (inbox w) (waiting w)
  else if pumped w then
    mkRunning (this w) (inbox w) (Some (for_pump newStream))
  else after_pump newStream w.

(** The call that waits goes on. *)
Definition switchSource_resume (call : Waiting) (w : Running) : Running :=
  match call with
  | for_pump newStream => after_pump newStream w
  | for_cancel newStream outcome =>
      acquire newStream (afterCancel outcome (this w)) (inbox w)
  end.

(** [close()] while things are under way: a read that has not
    settled yet settles as the cancelled reader has it. *)
Definition close_running (w : Running) : Running :=
  mkRunning (close (this w))
            (match inbox w, _currentReader (this w) with
             | Some None, Some r => Some (Some (fst (read (snd (cancel r)))))
             | fl, _ => fl
             end)
            (waiting w).

(** What can happen to a switcher. *)
Inductive Op : Type :=
| SwitchSource (newStream : ReadableStream)  (* switchSource is called *)
| Resume                                     (* the call that waits goes on *)
| Settle                                     (* the read the pump waits for settles *)
| Continue                                   (* the pump goes on with what was read *)
| Close.                                     (* close is called *)

(** One step; [None] when it cannot be taken.  Every call of
    [switchSource] is awaited by its caller: none is made while
    another has not returned.  The call that waits for the pump goes
    on when the pump has settled. *)
Definition exec (op : Op) (w : Running) : option Running :=
  match op with
  | SwitchSource newStream =>
      match waiting w with
      | Some _ => None
      | None => Some (switchSource_start newStream w)
      end
  | Resume =>
      match waiting w, inbox w with
      | Some call, None =>
          Some (switchSource_resume call (mkRunning (this w) None None))
      | _, _ => None
      end
  | Settle =>
      match inbox w, _currentReader (this w) with
      | Some None, Some r =>
          Some (mkRunning (with_currentReader (Some (snd (read r))) (this w))
                          (Some (Some (fst (read r)))) (waiting w))
      | _, _ => None
      end
  | Continue =>
      match inbox w with
      | Some (Some result) =>
          Some (mkRunning (fst (_pumpStream_resume result (this w)))
                          (snd (_pumpStream_resume result (this w)))
                          (waiting w))
      | _ => None
      end
  | Close => Some (close_running w)
  end.

Fixpoint run (ops : list Op) (w : Running) : option Running :=
  match ops with
  | [] => Some w
  | op :: ops =>
      match exec op w with
      | Some w => run ops w
      | None => None
      end
  end.

(** A switcher with nothing under way. *)
Definition at_rest (s : SwitchableStream) : Running := mkRunning s None None.

(** The states of a switcher: a new one, after any steps. *)
Definition reachable (w : Running) : Prop :=
  exists ops, run ops (at_rest constructor) = Some w.

(** Nothing is under way. *)
Definition idle (w : Running) : Prop := inbox w = None /\ waiting w = None.

(** The steps a pump takes to read [n] chunks and the end of its
    source. *)
Definition draining (n : nat) : list Op :=
  List.concat (repeat [Settle; Continue] (S n)).

(** *** What the properties speak of *)

(** The switcher accepts sources and can forward their chunks: it is
    active, its controller is there and the outward stream is open. *)
Definition open_for_sources (s : SwitchableStream) : Prop :=
  _isActive s = true /\ _controller s = true /\
  out_state (readable s) = Writable.

(** The stream once the chunks [cs] have been forwarded. *)
Definition forwarded (cs : list Chunk) (s : SwitchableStream) : SwitchableStream :=
  with_readable (mkOutward (queue (readable s) ++ cs) Writable) s.

Definition unlocked (src : ReadableStream) : Prop := locked src = false.

(** A source whose reads end in a fault. *)
Definition faulty (src : ReadableStream) : bool :=
  match ending src with
  | Failed _ => true
  | Completed => false
  end.

(** How many of the sources end in a fault. *)
Definition faults (sources : list ReadableStream) : Z :=
  Z.of_nat (List.length (filter faulty sources)).

(** The text of the error the outward stream is failed with. *)
Definition failure_text (errorCount : Z) (message : string) : string :=
  ("Stream failed after " ++ show errorCount ++ " errors. Last error: "
     ++ message)%string.

(** The message of the error of a stream in state
    [Broken errorCount last], the platform's wording of its own
    errors given. *)
Definition broken_text (platform : Refusal -> string) (errorCount : Z)
           (last : Fault) : option string :=
  match last with
  | thrown_null => None
  | thrown_undefined => None
  | thrown (Some message) => Some (failure_text errorCount message)
  | thrown None => Some (failure_text errorCount "undefined")
  | type_error why => Some (failure_text errorCount (platform why))
  end.

(** The line [_handleError] logs at the ceiling. *)
Definition ceiling_line (s : SwitchableStream) : Line :=
  (Js.error,
   ("Max errors (" ++ show (_maxErrors s) ++ ") reached, terminating stream")%string,
   None).

(** A source that fails, after its chunks, with an [Error] of the
    given message. *)
Definition failing (cs : list Chunk) (message : string) : ReadableStream :=
  mkSource cs (Failed (thrown (Some message))) false.

(** A source of one chunk that completes. *)
Definition one_chunk : ReadableStream := mkSource ["a"%string] Completed false.

(** A stream that is already locked to another reader. *)
Definition taken : ReadableStream := mkSource ["b"%string] Completed true.

(** A source whose read is rejected with [undefined], after one
    chunk. *)
Definition silent_failure : ReadableStream :=
  mkSource ["a"%string] (Failed thrown_undefined) false.

(** The fields the properties speak of; the reader, the promise and
    the log are left out. *)
Definition core (s : SwitchableStream) : bool * bool * Z * Z * Z * Outward :=
  (_controller s, _isActive s, _errorCount s, _maxErrors s, _switches s,
   readable s).

(** How many more faults what is under way can still bring. *)
Definition in_flight (w : Running) : Z :=
  (match inbox w with Some _ => 1 | None => 0 end)
  + (match waiting w with Some _ => 1 | None => 0 end).

(** What holds of a switcher whatever has happened to it. *)
Definition sound (w : Running) : Prop :=
  _maxErrors (this w) = 10 /\
  0 <= _errorCount (this w) /\
  _errorCount (this w) + in_flight w <= 11 /\
  0 <= _switches (this w) /\
  (_isActive (this w) = true ->
   _errorCount (this w) < 10 /\ open_for_sources (this w)) /\
  (_controller (this w) = false -> out_state (readable (this w)) <> Writable) /\
  (forall n f, out_state (readable (this w)) = Broken n f ->
               _isActive (this w) = false /\
               10 <= n <= _errorCount (this w) /\ has_message f = true).

(** What is the same in [b] as in [a], when all that has changed
    between them is the reader, the promise, the log, the chunks
    held, and a counter of switches that has not gone down. *)
Definition steady (a b : SwitchableStream) : Prop :=
  _controller b = _controller a /\ _isActive b = _isActive a /\
  _errorCount b = _errorCount a /\ _maxErrors b = _maxErrors a /\
  out_state (readable b) = out_state (readable a) /\
  _switches a <= _switches b.

(** The readable side [o'] has lost nothing [o] held, unless it has
    been failed and holds nothing; and once failed it stays as it
    is. *)
Definition kept (o o' : Outward) : Prop :=
  (forall n f, out_state o = Broken n f -> o' = o) /\
  ((exists l, queue o' = queue o ++ l) \/
   (queue o' = [] /\ exists n f, out_state o' = Broken n f)).

(** The fault a pump meets when it goes on with [result]: the read
    was rejected, or the outward stream refuses the chunk. *)
Definition fault_of (result : ReadResult) (s : SwitchableStream) : option Fault :=
  match result with
  | failed f => Some f
  | chunk value =>
      if _controller s then
        match enqueue value (readable s) with
        | inr f => Some f
        | inl _ => None
        end
      else None
  | done => None
  end.

(** The steps the switcher takes by itself. *)
Definition internal (op : Op) : Prop :=
  match op with
  | Resume => True
  | Settle => True
  | Continue => True
  | _ => False
  end.

(** What is under way can go on: a pump that waits for a read has
    its reader, and no pump is in flight while a call waits for the
    cancellation of the previous reader. *)
Definition live (w : Running) : Prop :=
  (inbox w = Some None -> _currentReader (this w) <> None) /\
  (forall src outcome, waiting w = Some (for_cancel src outcome) ->
                       inbox w = None).

(** Nine sources fail one after the other; while the tenth is being
    read a locked stream is handed over; the read fails; the call
    that waited goes on. *)
Definition overshoot : list Op :=
  (SwitchSource (failing [] "stalled") :: draining 0)
  ++ List.concat
       (repeat (SwitchSource (failing [] "stalled") :: Resume :: Resume :: draining 0) 8)
  ++ [SwitchSource (failing [] "stalled"); Resume; Resume;
      SwitchSource taken; Settle; Continue; Resume; Resume].

End Switchable.

(** ** The continuation orchestrator: [chatAction] *)

Module Chat.
Import Js.

(** [finishReason] as the transport reports it. *)
Inductive FinishReason : Type :=
| stop
| length
| content_filter
| tool_calls
| error
| other
| unknown.

Definition is_length (r : FinishReason) : bool :=
  match r with
  | length => true
  | _ => false
  end.

(** The usage a call reports; a figure that is [undefined] or [NaN]
    is [None]. *)
Record Usage : Type := mkUsage {
  completionTokens : option Z;
  promptTokens : option Z;
  totalTokens : option Z
}.

(** [cumulativeUsage] *)
Record Totals : Type := mkTotals {
  completion : Z;
  prompt : Z;
  total : Z
}.

Inductive Role : Type := user | assistant | system.

Record Message : Type := mkMessage {
  role : Role;
  content : string
}.

(** What [onFinish] receives: [{ text, finishReason, usage }]. *)
Record FinishEvent : Type := mkFinish {
  text : string;
  finishReason : FinishReason;
  usage : option Usage
}.

(** What has been written to [dataStream]. *)
Inductive DataPart : Type :=
| UsageAnnotation (value : Totals)
| Progress (label status : string) (order : Z) (message : string)
| ChatSummary
| CodeContext
| Merged (segment : nat).   (* mergeIntoDataStream of the n-th streamText result *)

(** The variables of [chatAction] its handlers close over (with
    [processedMessages] as [processToolInvocations] returned them), and the
    calls made to the transport: the messages of every [streamText]
    request, oldest first. *)
Record ChatState : Type := mkChat {
  stream : Switchable.SwitchableStream;
  cumulativeUsage : Totals;
  progressCounter : Z;
  processedMessages : list Message;
  dataStream : list DataPart;
  requests : list (list Message)
}.

Definition with_cumulativeUsage (v : Totals) (c : ChatState) :=
  mkChat (stream c) v (progressCounter c) (processedMessages c)
         (dataStream c) (requests c).

Definition with_processedMessages (v : list Message) (c : ChatState) :=
  mkChat (stream c) (cumulativeUsage c) (progressCounter c) v
         (dataStream c) (requests c).

Definition write (d : DataPart) (c : ChatState) :=
  mkChat (stream c) (cumulativeUsage c) (progressCounter c)
         (processedMessages c) (dataStream c ++ [d]) (requests c).

(** [order: progressCounter++] *)
Definition writeProgress (label status message : string) (c : ChatState) :=
  let c := write (Progress label status (progressCounter c) message) c in
  mkChat (stream c) (cumulativeUsage c) (progressCounter c + 1)
         (processedMessages c) (dataStream c) (requests c).

(** [streamText({ messages: [...processedMessages], ... })] followed
    by [result.mergeIntoDataStream(dataStream)]. *)
Definition streamText (c : ChatState) : ChatState :=
  let c := mkChat (stream c) (cumulativeUsage c) (progressCounter c)
                  (processedMessages c) (dataStream c)
                  (requests c ++ [processedMessages c]) in
  write (Merged (List.length (requests c))) c.

(** The three [+=] lines every finish handler shares. *)
Definition accumulate (u : Usage) (t : Totals) : Totals :=
  mkTotals (completion t + orElse (completionTokens u) 0)
           (prompt t + orElse (promptTokens u) 0)
           (total t + orElse (totalTokens u) 0).

(** [if (usage) { ... }] *)
Definition addUsage (u : option Usage) (c : ChatState) : ChatState :=
  match u with
  | Some u => with_cumulativeUsage (accumulate u (cumulativeUsage c)) c
  | None => c
  end.

(** How a handler returns. *)
Inductive Completion : Type :=
| Return (c : ChatState)
| Throw (message : string) (c : ChatState).

Section Handler.

(** Imported by the route; their definitions are not part of it. *)
Variable MAX_RESPONSE_SEGMENTS : Z.
Variable CONTINUE_PROMPT : string.
Variable extractPropertiesFromMessage : option Message -> string * string.

Definition lastUserMessage (ms : list Message) : option Message :=
  last (map Some (filter (fun x => match role x with user => true | _ => false end) ms))
       None.

Definition continuation_text (ms : list Message) : string :=
  let '(model, provider) := extractPropertiesFromMessage (lastUserMessage ms) in
  ("[Model: " ++ model ++ "]

[Provider: " ++ provider ++ "]

" ++ CONTINUE_PROMPT)%string.

(** [options.onFinish]; its logger calls are left out. *)
Definition onFinish (ev : FinishEvent) (c : ChatState) : Completion :=
  let c := addUsage (usage ev) c in
  if negb (is_length (finishReason ev)) then
    let c := write (UsageAnnotation (cumulativeUsage c)) c in
    let c := writeProgress "response" "complete" "Response Generated" c in
    Return c
  else if Switchable.switches (stream c) >=? MAX_RESPONSE_SEGMENTS then
    Throw "Cannot continue message: Maximum segments reached" c
  else
    let directive := continuation_text (processedMessages c) in
    let c := with_processedMessages
               (processedMessages c ++ [mkMessage assistant (text ev)]) c in
    let c := with_processedMessages
               (processedMessages c ++ [mkMessage user directive]) c in
    Return (streamText c).

(** The [onFinish] of [createSummary] and of [selectContext]. *)
Definition onFinishAuxiliary (u : option Usage) (c : ChatState) : ChatState :=
  addUsage u c.

(** Where a request stands. *)
Inductive Status : Type :=
| Streaming                  (* a segment has been requested and has not finished *)
| Done                       (* the last segment finished for another reason than length *)
| Failed (message : string). (* onFinish threw *)

(** The segments of one request finish one after the other; the
    handler of a segment that finishes for length requests the next
    one, whose finish event is the next of [evs]. *)
Fixpoint segments (evs : list FinishEvent) (c : ChatState) : Status * ChatState :=
  match evs with
  | [] => (Streaming, c)
  | ev :: evs' =>
      match onFinish ev c with
      | Throw message c' => (Failed message, c')
      | Return c' =>
          if is_length (finishReason ev) then segments evs' c' else (Done, c')
      end
  end.

(** The context-optimisation block of [execute]; [createSummary] and
    [selectContext] call the handler they are given once per usage
    report. *)
Definition optimiseContext (summaryUsage selectUsage : list (option Usage))
           (c : ChatState) : ChatState :=
  let c := writeProgress "summary" "in-progress" "Analysing Request" c in
  let c := fold_left (fun c u => onFinishAuxiliary u c) summaryUsage c in
  let c := writeProgress "summary" "complete" "Analysis Complete" c in
  let c := write ChatSummary c in
  let c := writeProgress "context" "in-progress" "Determining Files to Read" c in
  let c := fold_left (fun c u => onFinishAuxiliary u c) selectUsage c in
  let c := write CodeContext c in
  writeProgress "context" "complete" "Code Files Selected" c.

(** What a request brings and what the transport answers: the
    messages, whether the context is optimised
    ([filePaths.length > 0 && contextOptimization]), the usage the two
    auxiliary calls report, and the finish events of the segments in
    the order they finish. *)
Record Exchange : Type := mkExchange {
  messages : list Message;
  optimise : bool;
  summaryUsage : list (option Usage);
  selectUsage : list (option Usage);
  finishes : list FinishEvent
}.

(** [chatAction] from the creation of its stream. *)
Definition chatAction (x : Exchange) : Status * ChatState :=
  let c := mkChat Switchable.constructor (mkTotals 0 0 0) 1 (messages x) [] [] in
  let c := if optimise x
           then optimiseContext (summaryUsage x) (selectUsage x) c
           else c in
  let c := writeProgress "response" "in-progress" "Generating Response" c in
  segments (finishes x) (streamText c).

(** The usage reports that reach a handler in an exchange. *)
Definition reports (x : Exchange) : list (option Usage) :=
  (if optimise x then summaryUsage x ++ selectUsage x else [])
    ++ map usage (finishes x).

(** Continuation requests made so far: every [streamText] call but
    the first. *)
Definition continuations (c : ChatState) : nat := pred (List.length (requests c)).

End Handler.

(** The state a handler leaves behind, however it returns. *)
Definition state_of (r : Completion) : ChatState :=
  match r with
  | Return c => c
  | Throw _ c => c
  end.

Definition plus (a b : Totals) : Totals :=
  mkTotals (completion a + completion b) (prompt a + prompt b)
           (total a + total b).

(** Element-wise order on totals. *)
Definition totals_le (a b : Totals) : Prop :=
  completion a <= completion b /\ prompt a <= prompt b /\ total a <= total b.

(** A report whose figures are counts. *)
Definition counts (u : Usage) : Prop :=
  0 <= orElse (completionTokens u) 0 /\
  0 <= orElse (promptTokens u) 0 /\
  0 <= orElse (totalTokens u) 0.

(** A segment that ends because of the length limit. *)
Definition truncated (content : string) (u : option Usage) : FinishEvent :=
  mkFinish content length u.

(** A segment that ends of its own. *)
Definition completed (content : string) (u : option Usage) : FinishEvent :=
  mkFinish content stop u.

Definition is_truncated (ev : FinishEvent) : Prop := finishReason ev = length.

Definition report (c p t : Z) : option Usage :=
  Some (mkUsage (Some c) (Some p) (Some t)).

(** [cumulativeUsage] after one more report. *)
Definition add_report (u : option Usage) (t : Totals) : Totals :=
  match u with
  | Some u => accumulate u t
  | None => t
  end.

(** The scenario of the design: a first segment cut at the length
    limit, a second one that completes. *)
Definition two_segments : Exchange :=
  mkExchange [mkMessage user "hello"] false [] []
             [truncated "first part" (report 400 50 450);
              completed "second part" (report 100 500 600)].

(** A request every segment of which is cut at the length limit. *)
Definition never_done (ms : list Message) (content : string)
           (u : option Usage) (n : nat) : Exchange :=
  mkExchange ms false [] [] (repeat (truncated content u) n).

(** The element-wise sum of the usage the calls reported. *)
Definition sumUsage (us : list (option Usage)) : Totals :=
  fold_right add_report (mkTotals 0 0 0) us.

(** The [order] fields of the progress events written so far. *)
Definition orders (ds : list DataPart) : list Z :=
  flat_map (fun d => match d with
                     | Progress _ _ order _ => [order]
                     | _ => []
                     end) ds.

(** The usage annotations written so far. *)
Definition usageAnnotations (ds : list DataPart) : list Totals :=
  flat_map (fun d => match d with
                     | UsageAnnotation value => [value]
                     | _ => []
                     end) ds.

(** [start], [start + 1], ... ([n] numbers). *)
Fixpoint count_from (start : Z) (n : nat) : list Z :=
  match n with
  | O => []
  | S k => start :: count_from (start + 1) k
  end.

(** The progress events written so far are numbered 1, 2, ... and
    [progressCounter] is the next number. *)
Definition numbered (c : ChatState) : Prop :=
  exists n : nat,
    orders (dataStream c) = count_from 1 n /\
    progressCounter c = 1 + Z.of_nat n.

(** The two messages a truncated segment adds to the conversation:
    what the model wrote, and the directive to go on. *)
Definition carried_on (CONTINUE_PROMPT : string)
           (extractPropertiesFromMessage : option Message -> string * string)
           (ms : list Message) (ev : FinishEvent) : list Message :=
  ms ++ [mkMessage assistant (text ev);
         mkMessage user
           (continuation_text CONTINUE_PROMPT extractPropertiesFromMessage ms)].

(** The conversations sent to the transport when every segment of
    [evs] is cut at the length limit: the original one, then one per
    segment. *)
Fixpoint conversations (CONTINUE_PROMPT : string)
         (extractPropertiesFromMessage : option Message -> string * string)
         (ms : list Message) (evs : list FinishEvent) : list (list Message) :=
  match evs with
  | [] => [ms]
  | ev :: evs' =>
      ms :: conversations CONTINUE_PROMPT extractPropertiesFromMessage
              (carried_on CONTINUE_PROMPT extractPropertiesFromMessage ms ev) evs'
  end.

End Chat.

(** ** The error paths of the chat route *)

Module ChatErrors.
Import Js.

(** [s.includes(sub)].  Messages are sequences of bytes here; the
    texts searched for are ASCII, for which searching the UTF-8 bytes
    and searching the UTF-16 code units agree. *)
Fixpoint includes (s sub : string) : bool :=
  if String.prefix sub s then true
  else match s with
       | EmptyString => false
       | String _ s' => includes s' sub
       end.

(** [x || d] on an optional text: [undefined] and the empty text are
    falsy. *)
Definition orText (x : option string) (d : string) : string :=
  match x with
  | Some EmptyString => d
  | Some v => v
  | None => d
  end.

(** [x?.includes(sub)] as a condition. *)
Definition mentions (x : option string) (sub : string) : bool :=
  match x with
  | Some v => includes v sub
  | None => false
  end.

(** The error object the handlers receive, by the fields they read. *)
Record JsError : Type := mkError {
  message : option string;
  statusCode : option Z;
  provider : option string
}.

Definition invalid_model : string :=
  "Custom error: Invalid model selected. Please check that the model name is correct and available.".

Definition invalid_response : string :=
  "Custom error: The AI service returned an invalid response. This may be due to an invalid model name, API rate limiting, or server issues. Try selecting a different model or check your API key.".

Definition invalid_key : string :=
  "Custom error: Invalid or missing API key. Please check your API key configuration.".

Definition token_limit : string :=
  "Custom error: Token limit exceeded. The conversation is too long for the selected model. Try using a model with larger context window or start a new conversation.".

Definition rate_limit : string :=
  "Custom error: API rate limit exceeded. Please wait a moment before trying again.".

Definition network_error : string :=
  "Custom error: Network error. Please check your internet connection and try again.".

(** The [onError] handler given to [createDataStreamResponse]; its
    logger call is left out. *)
Definition onError (e : JsError) : string :=
  let errorMessage := orText (message e) "Unknown error" in
  if includes errorMessage "model" && includes errorMessage "not found" then
    invalid_model
  else if includes errorMessage "Invalid JSON response" then
    invalid_response
  else if includes errorMessage "API key"
          || includes errorMessage "unauthorized"
          || includes errorMessage "authentication" then
    invalid_key
  else if includes errorMessage "token" && includes errorMessage "limit" then
    token_limit
  else if includes errorMessage "rate limit" || includes errorMessage "429" then
    rate_limit
  else if includes errorMessage "network" || includes errorMessage "timeout" then
    network_error
  else ("Custom error: " ++ errorMessage)%string.

(** The JSON body of an error response. *)
Record Body : Type := mkBody {
  b_error : bool;
  b_message : string;
  b_statusCode : Z;
  b_isRetryable : bool;
  b_provider : string;
  b_retryAfter : option Z
}.

Record Response : Type := mkResponse {
  status : Z;
  statusText : string;
  headers : list (string * string);
  body : Body
}.

(** What the [catch] block does: it returns a response, or the
    [Response] constructor throws. *)
Inductive Outcome : Type :=
| Responded (r : Response)
| Raised (kind : string).

(** The conversion the Fetch standard makes of a number for the
    [unsigned short] that [ResponseInit.status] is: an integer is
    taken modulo 65536. *)
Definition toUint16 (n : Z) : Z := n mod 65536.

(** [new Response(JSON.stringify(body), { status, headers, statusText })]:
    the status is converted to an unsigned short; outside 200..599 it
    is a [RangeError] then, and a body with a status that admits none
    (204, 205, 304) is a [TypeError]. *)
Definition newResponse (b : Body) (st : Z) (hs : list (string * string))
           (text : string) : Outcome :=
  let st := toUint16 st in
  if (st <? 200) || (599 <? st) then Raised "RangeError"
  else if (st =? 204) || (st =? 205) || (st =? 304) then Raised "TypeError"
  else Responded (mkResponse st text hs b).

Definition json : string * string := ("Content-Type", "application/json")%string.

(** What the [catch] block receives, [error: any], by what reading
    [error.message?.includes] makes of it: [null] and [undefined] have
    no properties; a message that is there but is no text and has no
    [includes] of its own (a number, a boolean, a plain object) cannot
    be searched; otherwise the message is missing or a text.  A status
    code, when there is one, is an integer, and a provider a text. *)
Inductive Caught : Type :=
| nullish
| unsearchable
| an_error (e : JsError).

Coercion an_error : JsError >-> Caught.

(** The [catch] block of [chatAction] on an error whose message is
    missing or a text. *)
Definition respond (error : JsError) : Outcome :=
  let isNetworkError := mentions (message error) "network"
                        || mentions (message error) "fetch"
                        || mentions (message error) "timeout" in
  let isRateLimitError := mentions (message error) "rate limit"
                          || mentions (message error) "429" in
  let isServerError := match statusCode error with
                       | Some c => (c >=? 500) && (c <? 600)
                       | None => false
                       end in
  let errorResponse :=
    mkBody true
           (orText (message error) "An unexpected error occurred")
           (orElse (statusCode error) 500)
           (isNetworkError || isRateLimitError || isServerError)
           (orText (provider error) "unknown")
           None in
  if mentions (message error) "API key" then
    newResponse
      (mkBody true "Invalid or missing API key" 401 false
              (b_provider errorResponse) None)
      401 [json] "Unauthorized"
  else if mentions (message error) "quota" || mentions (message error) "storage" then
    newResponse
      (mkBody true "Storage quota exceeded. Please free up space." 507 false
              (b_provider errorResponse) None)
      507 [json] "Insufficient Storage"
  else if isRateLimitError then
    newResponse
      (mkBody true "Rate limit exceeded. Please try again later." 429 true
              (b_provider errorResponse) (Some 60))
      429 [json; ("Retry-After", "60")%string] "Too Many Requests"
  else
    newResponse errorResponse (b_statusCode errorResponse) [json] "Error".

(** The [catch] block of [chatAction]: its first
    [error.message?.includes(...)] throws a [TypeError] on an error
    that has no properties or whose message cannot be searched. *)
Definition errorResponse (error : Caught) : Outcome :=
  match error with
  | nullish => Raised "TypeError"
  | unsearchable => Raised "TypeError"
  | an_error e => respond e
  end.

(** The six fixed texts [onError] can answer with. *)
Definition fixed_answers : list string :=
  [invalid_model; invalid_response; invalid_key; token_limit; rate_limit;
   network_error].

(** An error whose message speaks of a rate limit on tokens. *)
Definition tokens_per_minute : JsError :=
  mkError (Some "rate limit reached: too many tokens per minute"%string) None None.

(** [sub] occurs in [s]. *)
Definition occurs_in (sub s : string) : Prop :=
  exists before after : string, s = (before ++ sub ++ after)%string.

End ChatErrors.

(** ** Plain objects used as maps *)

Module JsObject.

(** The own properties of an object made by a literal, a spread or
    [JSON.parse] whose values are texts: the latest definition of a
    key first.  Its prototype is [Object.prototype]. *)
Definition Obj : Type := list (string * string).

(** The names [Object.prototype] answers to. *)
Definition prototype_names : list string :=
  ["constructor"; "__proto__"; "__defineGetter__"; "__defineSetter__";
   "__lookupGetter__"; "__lookupSetter__"; "hasOwnProperty"; "isPrototypeOf";
   "propertyIsEnumerable"; "toLocaleString"; "toString"; "valueOf"]%string.

(** What reading [o[k]] gives. *)
Inductive Got : Type :=
| missing                 (* undefined *)
| text (v : string)       (* an own property *)
| inherited.              (* a member of Object.prototype *)

Fixpoint own (k : string) (o : Obj) : option string :=
  match o with
  | [] => None
  | (k', v) :: o' => if String.eqb k k' then Some v else own k o'
  end.

Definition get (k : string) (o : Obj) : Got :=
  match own k o with
  | Some v => text v
  | None => if existsb (String.eqb k) prototype_names then inherited else missing
  end.

(** [o[k] = v] for a text [v]: the setter of [__proto__] ignores
    what is not an object. *)
Definition set (k v : string) (o : Obj) : Obj :=
  if String.eqb k "__proto__" then o else (k, v) :: o.

Definition truthy (g : Got) : bool :=
  match g with
  | missing => false
  | text EmptyString => false
  | text _ => true
  | inherited => true
  end.

End JsObject.

(** ** The route that exports the API keys *)

Module ApiKeys.
Import JsObject.

(** A provider, by what the loader reads of it. *)
Record Provider : Type := mkProvider {
  name : string;
  apiTokenKey : option string     (* provider.config.apiTokenKey *)
}.

(** An environment: the text under a name, if any. *)
Definition Env : Type := string -> option string.

(** [a || b || c] on texts that may be undefined. *)
Definition firstTruthy (a b c : option string) : option string :=
  match a, b, c with
  | Some (String x a'), _, _ => Some (String x a')
  | _, Some (String x b'), _ => Some (String x b')
  | _, _, Some (String x c') => Some (String x c')
  | _, _, _ => None
  end.

Section Loader.

Variable serverEnv processEnv managerEnv : Env.

(** The body of the [for] loop. *)
Definition visit (apiKeys : Obj) (provider : Provider) : Obj :=
  match apiTokenKey provider with
  | None => apiKeys
  | Some EmptyString => apiKeys
  | Some envVarName =>
      if truthy (get (name provider) apiKeys) then apiKeys
      else
        match firstTruthy (serverEnv envVarName) (processEnv envVarName)
                          (managerEnv envVarName) with
        | Some envValue => set (name provider) envValue apiKeys
        | None => apiKeys
        end
  end.

(** The loader, from the keys read from the cookie and the providers
    the manager lists; what it answers with is the object [apiKeys]. *)
Definition loader (apiKeysFromCookie : Obj) (providers : list Provider) : Obj :=
  fold_left visit providers apiKeysFromCookie.

(** The key the environments hold for a provider. *)
Definition envKey (provider : Provider) : option string :=
  match apiTokenKey provider with
  | Some (String x k) =>
      firstTruthy (serverEnv (String x k)) (processEnv (String x k))
                  (managerEnv (String x k))
  | _ => None
  end.

End Loader.

(** An environment with one variable. *)
Definition only (k v : string) : Env :=
  fun k' => if String.eqb k' k then Some v else None.

Definition nothing : Env := fun _ => None.

End ApiKeys.

(** ** The cookies of the chat route *)

Module Cookies.
Import JsObject.

(** The Cookie header is a byte string: every character of it is a
    code unit below 256. *)

(** [s.split(sep)] for a separator of one character. *)
Fixpoint split (sep : Ascii.ascii) (s : string) : list string :=
  match s with
  | EmptyString => [EmptyString]
  | String c s' =>
      if Ascii.eqb c sep then EmptyString :: split sep s'
      else match split sep s' with
           | piece :: pieces => String c piece :: pieces
           | [] => [String c EmptyString]
           end
  end.

(** The code units below 256 that [trim] removes: tab, line feed,
    vertical tab, form feed, carriage return, space, no-break space. *)
Definition isWhite (c : Ascii.ascii) : bool :=
  let n := Ascii.nat_of_ascii c in
  ((9 <=? n)%nat && (n <=? 13)%nat) || (n =? 32)%nat || (n =? 160)%nat.

Fixpoint trimStart (s : string) : string :=
  match s with
  | EmptyString => EmptyString
  | String c s' => if isWhite c then trimStart s' else s
  end.

Fixpoint trimEnd (s : string) : string :=
  match s with
  | EmptyString => EmptyString
  | String c s' =>
      match trimEnd s' with
      | EmptyString => if isWhite c then EmptyString else String c EmptyString
      | t => String c t
      end
  end.

(** [s.trim()] *)
Definition trim (s : string) : string := trimEnd (trimStart s).

Section Parse.

(** The runtime's [decodeURIComponent]; [None] when it throws. *)
Variable decodeURIComponent : string -> option string.

(** The callback of [items.forEach], on the object built so far;
    [None] once a decoding has thrown. *)
Definition eachItem (cookies : option Obj) (item : string) : option Obj :=
  match cookies with
  | None => None
  | Some cookies =>
      match split "="%char item with
      | [] => Some cookies
      | EmptyString :: _ => Some cookies
      | name :: rest =>
          match decodeURIComponent (trim name) with
          | None => None
          | Some decodedName =>
              match decodeURIComponent (trim (String.concat "="%string rest)) with
              | None => None
              | Some decodedValue => Some (set decodedName decodedValue cookies)
              end
          end
      end
  end.

Definition parseCookies (cookieHeader : string) : option Obj :=
  let items := map trim (split ";"%char cookieHeader) in
  fold_left eachItem items (Some []).

End Parse.

(** [c] does not occur in [s]. *)
Fixpoint lacks (c : Ascii.ascii) (s : string) : bool :=
  match s with
  | EmptyString => true
  | String c' s' => negb (Ascii.eqb c' c) && lacks c s'
  end.

(** [s] has no white space at either end. *)
Definition clean (s : string) : Prop := trimStart s = s /\ trimEnd s = s.

(** A cookie as a browser sends it: a name and a value without white
    space at their ends and without semicolon, the name not empty and
    without equals sign. *)
Definition plain (kv : string * string) : Prop :=
  fst kv <> EmptyString /\
  lacks ";"%char (fst kv) = true /\ lacks "="%char (fst kv) = true /\
  lacks ";"%char (snd kv) = true /\ clean (fst kv) /\ clean (snd kv).

(** The text of one cookie in the header. *)
Definition pair_text (kv : string * string) : string :=
  (fst kv ++ "=" ++ snd kv)%string.

(** The header a browser makes of its cookies. *)
Definition render (kvs : list (string * string)) : string :=
  String.concat "; "%string (map pair_text kvs).

(** A decoder that knows no escapes: it answers its argument, and
    throws on a percent sign. *)
Definition literally (s : string) : option string :=
  if lacks "%"%char s then Some s else None.

End Cookies.

(** * Properties of the liveness monitor *)

Module StreamRecoveryFacts.
Import Js StreamRecovery.

Ltac unfold_ops :=
  unfold exec, startMonitoring, updateActivity, reportError, reset, stop,
    resume, _handleTimeout_resume, invoke, suspend, emit, set_this,
    clearTimeout in *.

(** ** The timers a manager owns *)

Lemma cleared_nothing_pending (w : Runtime) :
  owns_timers w ->
  timers (match _timeoutHandle (this w) with
          | Some h => clearTimeout h w
          | None => w
          end) = [].
Proof.
  intros [Hown _].
  destruct (_timeoutHandle (this w)) as [h|] eqn:Hh.
  - unfold clearTimeout; cbn.
    induction (timers w) as [|t ts IH]; [reflexivity|].
    cbn. assert (Ht : Some h = Some (fst t)) by (apply Hown; now left).
    injection Ht as ->. rewrite Nat.eqb_refl. cbn.
    apply IH. intros t' Ht'. apply Hown. now right.
  - destruct (timers w) as [|t ts]; [reflexivity|].
    specialize (Hown t (or_introl eq_refl)). discriminate.
Qed.

(** What [_resetTimeout] leaves behind: nothing on a stopped manager,
    one timer with the computed delay on an active one. *)
Lemma resetTimeout_stopped (w : Runtime) :
  owns_timers w ->
  _isActive (this w) = false ->
  _resetTimeout w = w.
Proof.
  intros Hw Hoff. pose proof Hw as [_ Hnone]. specialize (Hnone Hoff).
  destruct w as [m ts n k es]; cbn in *. subst ts.
  unfold _resetTimeout, clearTimeout; cbn.
  destruct (_timeoutHandle m); cbn; rewrite Hoff; reflexivity.
Qed.

Lemma resetTimeout_active (w : Runtime) :
  owns_timers w ->
  _isActive (this w) = true ->
  _resetTimeout w =
    mkRuntime (with_timeoutHandle (Some (next_handle w)) (this w))
              [(next_handle w, timeoutDuration (this w))]
              (S (next_handle w)) (suspended w)
              (events w ++ backoff_note (this w)).
Proof.
  intros Hw Hon. pose proof (cleared_nothing_pending w Hw) as Hc.
  destruct w as [m ts n k es]; cbn in *.
  unfold _resetTimeout, backoff_note, clearTimeout in *; cbn in *.
  destruct (_timeoutHandle m); cbn in *; rewrite Hon, Hc; cbn;
    destruct (truthy _ && _); cbn; rewrite ?app_nil_r; reflexivity.
Qed.

Lemma owns_timers_ext (w w' : Runtime) :
  timers w' = timers w ->
  _timeoutHandle (this w') = _timeoutHandle (this w) ->
  _isActive (this w') = _isActive (this w) ->
  owns_timers w -> owns_timers w'.
Proof.
  unfold owns_timers. intros -> -> ->. trivial.
Qed.

Ltac same_timers := apply owns_timers_ext; reflexivity.

(** Reduce projections of explicit records, and nothing else. *)
Ltac fields :=
  cbn [this timers next_handle suspended events
       _options _retryCount _timeoutHandle _lastActivity _isActive
       _consecutiveFailures _lastErrorTime
       with_retryCount with_timeoutHandle with_lastActivity with_isActive
       with_consecutiveFailures with_lastErrorTime retried given_up] in *.

Lemma calls_log (cb : Callback) (l : Level) (msg : string) (es : list Event) :
  calls cb (Log l msg :: es) = calls cb es.
Proof. reflexivity. Qed.

Lemma calls_nil (cb : Callback) : calls cb [] = 0%nat.
Proof. reflexivity. Qed.

Lemma calls_backoff_note (cb : Callback) (m : StreamRecoveryManager) :
  calls cb (backoff_note m) = 0%nat.
Proof. unfold backoff_note. now destruct (truthy _ && _). Qed.

Lemma calls_if_supplied (cb cb' : Callback) (supplied : bool) :
  calls cb (if_supplied supplied cb') =
  if supplied && is_call cb (Call cb') then 1%nat else 0%nat.
Proof. destruct supplied, cb, cb'; reflexivity. Qed.

Lemma nothing_pending_owns (w : Runtime) : timers w = [] -> owns_timers w.
Proof. intros H. split; rewrite H; [intros t []|reflexivity]. Qed.

Lemma constructor_owns (o : Supplied) (t0 : Z) : owns_timers (constructor o t0).
Proof.
  split; cbn; [intros t []|reflexivity].
Qed.

Lemma resetTimeout_owns (w : Runtime) :
  owns_timers w -> owns_timers (_resetTimeout w).
Proof.
  intros Hw. destruct (_isActive (this w)) eqn:Hact.
  - rewrite (resetTimeout_active w Hw Hact). split; cbn.
    + intros t [<-|[]]. reflexivity.
    + rewrite Hact. discriminate.
  - now rewrite (resetTimeout_stopped w Hw Hact).
Qed.

Lemma resetTimeout_isActive (w : Runtime) :
  _isActive (this (_resetTimeout w)) = _isActive (this w).
Proof.
  destruct w as [m ts n k es].
  unfold _resetTimeout, clearTimeout; cbn.
  destruct (_timeoutHandle m); cbn; destruct (_isActive m) eqn:E; cbn;
    try destruct (truthy _ && _); cbn; now rewrite ?E.
Qed.

(** [stop] leaves the manager inactive, without handle and without
    pending timer. *)
Lemma stop_spec (w : Runtime) :
  owns_timers w ->
  stop w = mkRuntime (with_timeoutHandle None (with_isActive false (this w)))
                     [] (next_handle w) (suspended w) (events w).
Proof.
  intros Hw. pose proof (cleared_nothing_pending w Hw) as Hc.
  destruct w as [m ts n k es]. destruct m as [o r h la a cf le].
  unfold stop, clearTimeout, set_this, with_isActive, with_timeoutHandle in *.
  cbn in *. destruct h; cbn in *; now rewrite Hc.
Qed.

Lemma stop_owns (w : Runtime) : owns_timers w -> owns_timers (stop w).
Proof.
  intros Hw. rewrite (stop_spec w Hw). split; cbn; [intros t []|reflexivity].
Qed.

Lemma stop_isActive (w : Runtime) : _isActive (this (stop w)) = false.
Proof.
  destruct w as [m ts n k es].
  unfold stop, clearTimeout, set_this; cbn. now destruct (_timeoutHandle m).
Qed.

Lemma clearTimeout_owns (h : Handle) (w : Runtime) :
  owns_timers w -> owns_timers (clearTimeout h w).
Proof.
  intros [Hown Hoff]. split; cbn.
  - intros t Ht. apply filter_In in Ht. now apply Hown.
  - intros Ha. now rewrite (Hoff Ha).
Qed.

Lemma handleTimeout_resume_owns (w : Runtime) :
  owns_timers w -> owns_timers (_handleTimeout_resume w).
Proof.
  intros Hw. unfold _handleTimeout_resume, invoke.
  destruct (onRecovery _); [|now apply resetTimeout_owns].
  eapply owns_timers_ext; [reflexivity..|now apply resetTimeout_owns].
Qed.

Lemma handleTimeout_body_owns (await : Runtime -> Runtime) (now : Z) (w : Runtime) :
  (forall v, owns_timers v -> owns_timers (await v)) ->
  owns_timers w -> owns_timers (_handleTimeout_body await now w).
Proof.
  intros Hawait Hw. unfold _handleTimeout_body.
  match goal with |- context [if ?c then _ else _] => destruct c end.
  - unfold invoke.
    match goal with |- context [if ?c then _ else _] => destruct c end.
    + eapply owns_timers_ext; [reflexivity..|]. apply stop_owns.
      revert Hw. same_timers.
    + apply stop_owns. revert Hw. same_timers.
  - match goal with |- context [if ?c then _ else _] => destruct c end.
    + apply Hawait. revert Hw. same_timers.
    + apply handleTimeout_resume_owns. revert Hw. same_timers.
Qed.

Lemma suspend_owns (w : Runtime) : owns_timers w -> owns_timers (suspend w).
Proof. same_timers. Qed.

Lemma fire_with_owns (handle : Z -> Runtime -> Runtime) (h : Handle) (now : Z)
      (w : Runtime) :
  (forall t v, owns_timers v -> owns_timers (handle t v)) ->
  owns_timers w -> owns_timers (fire_with handle h now w).
Proof.
  intros Hh Hw. unfold fire_with, timer_callback.
  destruct (is_pending h w); [|assumption].
  destruct (_isActive _); [|now apply clearTimeout_owns].
  apply Hh. generalize (clearTimeout_owns h w Hw). same_timers.
Qed.

Lemma exec_owns (op : Op) (w : Runtime) :
  owns_timers w -> owns_timers (exec op w).
Proof.
  intros Hw. destruct op; cbn.
  - now apply resetTimeout_owns.
  - apply resetTimeout_owns. revert Hw. same_timers.
  - revert Hw. same_timers.
  - now apply stop_owns.
  - apply resetTimeout_owns. revert Hw. same_timers.
  - apply fire_with_owns; [|assumption].
    intros t v. apply handleTimeout_body_owns, suspend_owns.
  - unfold resume. destruct (suspended w); [assumption|].
    apply handleTimeout_resume_owns. revert Hw. same_timers.
Qed.

Lemma run_owns (ops : list Op) (w : Runtime) :
  owns_timers w -> owns_timers (run ops w).
Proof.
  revert w. induction ops as [|op ops IH]; intros w Hw; [assumption|].
  cbn. apply IH, exec_owns, Hw.
Qed.

Lemma reachable_owns (w : Runtime) : reachable w -> owns_timers w.
Proof.
  intros (o & t0 & ops & ->). apply run_owns, constructor_owns.
Qed.

Lemma reachable_exec (op : Op) (w : Runtime) :
  reachable w -> reachable (exec op w).
Proof.
  intros (o & t0 & ops & ->). exists o, t0, (ops ++ [op]).
  unfold run. now rewrite fold_left_app.
Qed.

(** ** Counting callback invocations *)

Lemma calls_app (cb : Callback) (es es' : list Event) :
  calls cb (es ++ es') = (calls cb es + calls cb es')%nat.
Proof.
  unfold calls. now rewrite filter_app, length_app.
Qed.

Lemma calls_invoke (cb cb' : Callback) (supplied : bool) (w : Runtime) :
  calls cb (events (invoke supplied cb' w)) =
  (calls cb (events w)
   + if supplied && is_call cb (Call cb') then 1 else 0)%nat.
Proof.
  unfold invoke, emit. destruct supplied; cbn [events andb]; [|lia].
  rewrite calls_app. unfold calls at 2. cbn [filter].
  now destruct (is_call cb (Call cb')).
Qed.

(** ** A stopped manager stays stopped *)

Lemma exec_stopped (op : Op) (w : Runtime) :
  owns_timers w ->
  _isActive (this w) = false ->
  _isActive (this (exec op w)) = false /\
  calls CbTimeout (events (exec op w)) = calls CbTimeout (events w) /\
  calls CbMaxRetriesReached (events (exec op w)) =
    calls CbMaxRetriesReached (events w).
Proof.
  intros Hw Hoff. destruct op; cbn.
  - unfold startMonitoring. now rewrite resetTimeout_stopped.
  - unfold updateActivity.
    rewrite resetTimeout_stopped; [cbn; auto|revert Hw; same_timers|assumption].
  - auto.
  - rewrite stop_spec by assumption. cbn. auto.
  - unfold reset.
    rewrite resetTimeout_stopped; [cbn; auto|revert Hw; same_timers|assumption].
  - unfold fire_with, is_pending. destruct Hw as [_ Hnone].
    rewrite (Hnone Hoff). cbn. auto.
  - unfold resume. destruct (suspended w) as [|n]; [auto|].
    unfold _handleTimeout_resume.
    rewrite resetTimeout_stopped; cbn; [|revert Hw; same_timers|assumption].
    rewrite !calls_invoke. cbn. rewrite andb_false_r.
    unfold invoke. destruct (onRecovery _); cbn; auto with arith.
Qed.

Lemma run_stopped (ops : list Op) (w : Runtime) :
  owns_timers w ->
  _isActive (this w) = false ->
  _isActive (this (run ops w)) = false /\
  timers (run ops w) = [] /\
  calls CbTimeout (events (run ops w)) = calls CbTimeout (events w) /\
  calls CbMaxRetriesReached (events (run ops w)) =
    calls CbMaxRetriesReached (events w).
Proof.
  revert w. induction ops as [|op ops IH]; intros w Hw Hoff.
  - destruct Hw as [_ Hnone]. cbn. auto.
  - change (run (op :: ops) w) with (run ops (exec op w)).
    destruct (exec_stopped op w Hw Hoff) as (Hoff' & Ht & Hm).
    destruct (IH (exec op w) (exec_owns op w Hw) Hoff') as (? & ? & ? & ?).
    repeat split; congruence.
Qed.

(** ** What a firing timer does *)

Lemma pending_is_active (w : Runtime) (t : Handle * Z) :
  owns_timers w -> In t (timers w) -> _isActive (this w) = true.
Proof.
  intros [_ Hnone] Hin. destruct (_isActive (this w)); [reflexivity|].
  rewrite Hnone in Hin by reflexivity. destruct Hin.
Qed.

Lemma fire_with_pending (handle : Z -> Runtime -> Runtime) (h : Handle)
      (d now : Z) (w : Runtime) :
  owns_timers w ->
  In (h, d) (timers w) ->
  fire_with handle h now w =
    handle now (mkRuntime (this w) [] (next_handle w) (suspended w)
                          (events w ++ [Log warn "Stream timeout detected"])).
Proof.
  intros Hw Hin. pose proof (pending_is_active w _ Hw Hin) as Hact.
  pose proof (cleared_nothing_pending w Hw) as Hc.
  destruct Hw as [Hown _]. rewrite (Hown _ Hin) in Hc. cbn in Hc.
  unfold fire_with, timer_callback, is_pending.
  replace (existsb _ (timers w)) with true.
  - cbn. rewrite Hact. unfold emit, clearTimeout in *. cbn in *. now rewrite Hc.
  - symmetry. apply existsb_exists. exists (h, d). split; [assumption|].
    cbn. apply Nat.eqb_refl.
Qed.

Lemma invoke_events (supplied : bool) (cb : Callback) (w : Runtime) :
  invoke supplied cb w =
  mkRuntime (this w) (timers w) (next_handle w) (suspended w)
            (events w ++ if_supplied supplied cb).
Proof.
  destruct w. unfold invoke, if_supplied, emit.
  destruct supplied; cbn; now rewrite ?app_nil_r.
Qed.

(** At the ceiling the handler gives up, whatever [await] would do. *)
Lemma handleTimeout_at_ceiling (await : Runtime -> Runtime) (now : Z) (v : Runtime) :
  owns_timers v ->
  retryCeiling (_options (this v)) <= _retryCount (this v) ->
  _handleTimeout_body await now v =
    mkRuntime (given_up now (this v)) [] (next_handle v) (suspended v)
      (events v ++ [Log error (ceiling_line (this v))]
         ++ if_supplied (onMaxRetriesReached (_options (this v)))
                        CbMaxRetriesReached).
Proof.
  intros Hv Hge. unfold _handleTimeout_body.
  cbn [this set_this with_consecutiveFailures with_lastErrorTime emit
       _retryCount _options].
  replace (_retryCount (this v) >=? retryCeiling (_options (this v))) with true
    by (symmetry; rewrite Z.geb_leb; now apply Z.leb_le).
  rewrite stop_spec by (revert Hv; same_timers).
  rewrite invoke_events. cbn. unfold given_up, ceiling_line.
  destruct v as [m ts n k es]; destruct m; cbn. now rewrite <- app_assoc.
Qed.

(** Below the ceiling an uninterrupted handler counts the retry,
    calls back and re-arms the timer. *)
Lemma handleTimeout_below_ceiling (now : Z) (v : Runtime) :
  owns_timers v ->
  _isActive (this v) = true ->
  _retryCount (this v) < retryCeiling (_options (this v)) ->
  _handleTimeout now v =
    mkRuntime (with_timeoutHandle (Some (next_handle v)) (retried now (this v)))
      [(next_handle v, timeoutDuration (retried now (this v)))]
      (S (next_handle v)) (suspended v)
      (events v ++ [Log info (attempt_line (retried now (this v)))]
         ++ if_supplied (onTimeout (_options (this v))) CbTimeout
         ++ backoff_note (retried now (this v))
         ++ if_supplied (onRecovery (_options (this v))) CbRecovery).
Proof.
  intros Hv Hact Hlt. unfold _handleTimeout, _handleTimeout_body.
  cbn [this set_this with_consecutiveFailures with_lastErrorTime emit
       _retryCount _options with_retryCount].
  replace (_retryCount (this v) >=? retryCeiling (_options (this v))) with false
    by (symmetry; rewrite Z.geb_leb; apply Z.leb_gt; lia).
  assert (Hresume : forall u,
             owns_timers u -> _isActive (this u) = true ->
             _handleTimeout_resume u =
               mkRuntime (with_timeoutHandle (Some (next_handle u)) (this u))
                 [(next_handle u, timeoutDuration (this u))]
                 (S (next_handle u)) (suspended u)
                 (events u ++ backoff_note (this u)
                    ++ if_supplied (onRecovery (_options (this u))) CbRecovery)).
  { intros u Hu Hau. unfold _handleTimeout_resume.
    rewrite resetTimeout_active by assumption.
    rewrite invoke_events. cbn. now rewrite <- app_assoc. }
  destruct (onTimeout (_options (this v))) eqn:Hcb;
    (rewrite Hresume; [|revert Hv; same_timers|exact Hact]);
    destruct v as [m ts n k es]; destruct m; cbn in *;
    unfold retried; cbn; rewrite <- ?app_assoc; reflexivity.
Qed.

Lemma fire_next_below (now : Z) (w : Runtime) :
  owns_timers w ->
  timers w <> [] ->
  _retryCount (this w) < retryCeiling (_options (this w)) ->
  let w' := fire_next now w in
  owns_timers w' /\ timers w' <> [] /\
  _retryCount (this w') = _retryCount (this w) + 1 /\
  _options (this w') = _options (this w) /\
  calls CbMaxRetriesReached (events w') = calls CbMaxRetriesReached (events w).
Proof.
  intros Hw Hne Hlt. unfold fire_next.
  destruct (timers w) as [|[h d] ts] eqn:Hts; [contradiction|].
  assert (Hin : In (h, d) (timers w)) by (rewrite Hts; now left).
  pose proof (pending_is_active w _ Hw Hin) as Hact.
  unfold fire. rewrite (fire_with_pending _ h d now w Hw Hin).
  rewrite handleTimeout_below_ceiling;
    [|now apply nothing_pending_owns|exact Hact|exact Hlt].
  cbn zeta. fields. split; [|split; [|split; [|split]]].
  - split; fields; [intros t [<-|[]]; reflexivity|rewrite Hact; discriminate].
  - discriminate.
  - reflexivity.
  - reflexivity.
  - rewrite !calls_app, calls_log, !calls_if_supplied, calls_backoff_note, calls_log.
    cbn [is_call]. rewrite !andb_false_r. cbn [calls filter List.length]. lia.
Qed.

Lemma fire_each_below (nows : list Z) (w : Runtime) :
  owns_timers w ->
  timers w <> [] ->
  _retryCount (this w) + Z.of_nat (List.length nows)
    <= retryCeiling (_options (this w)) ->
  let w' := fire_each nows w in
  owns_timers w' /\ timers w' <> [] /\
  _retryCount (this w') = _retryCount (this w) + Z.of_nat (List.length nows) /\
  _options (this w') = _options (this w) /\
  calls CbMaxRetriesReached (events w') = calls CbMaxRetriesReached (events w).
Proof.
  revert w. induction nows as [|now nows IH]; intros w Hw Hne Hle.
  - cbn. repeat split; try assumption; try apply Hw. lia.
  - cbn [List.length] in Hle. rewrite Nat2Z.inj_succ in Hle.
    destruct (fire_next_below now w Hw Hne) as (Hw1 & Hne1 & Hr1 & Ho1 & Hc1);
      [lia|].
    change (fire_each (now :: nows) w) with (fire_each nows (fire_next now w)).
    destruct (IH (fire_next now w) Hw1 Hne1) as (Hw2 & Hne2 & Hr2 & Ho2 & Hc2).
    { rewrite Hr1, Ho1. lia. }
    cbn zeta. cbn [List.length]. rewrite Nat2Z.inj_succ.
    repeat split; try assumption; try apply Hw2; try congruence. lia.
Qed.

Lemma fire_next_at_ceiling (now : Z) (w : Runtime) :
  owns_timers w ->
  timers w <> [] ->
  retryCeiling (_options (this w)) <= _retryCount (this w) ->
  let w' := fire_next now w in
  _isActive (this w') = false /\ timers w' = [] /\
  calls CbMaxRetriesReached (events w') =
    (calls CbMaxRetriesReached (events w)
     + if onMaxRetriesReached (_options (this w)) then 1 else 0)%nat.
Proof.
  intros Hw Hne Hge. unfold fire_next.
  destruct (timers w) as [|[h d] ts] eqn:Hts; [contradiction|].
  assert (Hin : In (h, d) (timers w)) by (rewrite Hts; now left).
  unfold fire. rewrite (fire_with_pending _ h d now w Hw Hin).
  unfold _handleTimeout. rewrite handleTimeout_at_ceiling;
    [|now apply nothing_pending_owns|exact Hge].
  cbn zeta. fields. split; [reflexivity|split; [reflexivity|]].
  rewrite !calls_app, !calls_log, calls_if_supplied, calls_nil.
  cbn [is_call]. rewrite andb_true_r. lia.
Qed.

Lemma fresh_reachable : reachable fresh.
Proof.
  exists (mkSupplied absent absent true false true absent), 0, [StartMonitoring].
  reflexivity.
Defined.

Lemma armed_is_active (w : Runtime) :
  owns_timers w -> timers w <> [] -> _isActive (this w) = true.
Proof.
  intros Hw Hne. destruct (timers w) as [|t ts] eqn:Hts; [contradiction|].
  apply (pending_is_active w t Hw). rewrite Hts. now left.
Qed.

(** ** The retry ceiling *)

(** The firing of the timer, with the ceiling the handler compares
    against ([this._options.maxRetries || 5]: the configured
    [maxRetries], or 5 when it is undefined or 0).  When the pending
    inactivity timer of a manager fires with [retryCount] at or above
    the ceiling, the manager becomes inactive, has no handle and no
    pending timer, none is ever armed again, and the max-retries
    callback, if supplied, is invoked once and never again; when it
    fires with [retryCount] below the ceiling, [retryCount] grows by
    one, the timeout callback, if supplied, is invoked once, and one
    timer is pending again with the delay of the new retry count.
    With a ceiling of 5 a monitor that starts at 0 survives five
    consecutive firings and is stopped by the sixth. *)
Theorem timeout_firing :
  (forall (w : Runtime) (h : Handle) (d now : Z),
      reachable w ->
      In (h, d) (timers w) ->
      let m := this w in
      let w' := fire h now w in
      (retryCeiling (_options m) <= _retryCount m ->
       _isActive (this w') = false /\
       _timeoutHandle (this w') = None /\
       timers w' = [] /\
       _retryCount (this w') = _retryCount m /\
       calls CbMaxRetriesReached (events w') =
         (calls CbMaxRetriesReached (events w)
          + if onMaxRetriesReached (_options m) then 1 else 0)%nat /\
       calls CbTimeout (events w') = calls CbTimeout (events w) /\
       forall ops : list Op,
         _isActive (this (run ops w')) = false /\
         timers (run ops w') = [] /\
         calls CbMaxRetriesReached (events (run ops w')) =
           calls CbMaxRetriesReached (events w')) /\
      (_retryCount m < retryCeiling (_options m) ->
       _isActive (this w') = true /\
       _retryCount (this w') = _retryCount m + 1 /\
       calls CbTimeout (events w') =
         (calls CbTimeout (events w)
          + if onTimeout (_options m) then 1 else 0)%nat /\
       calls CbMaxRetriesReached (events w') =
         calls CbMaxRetriesReached (events w) /\
       timers w' = [(next_handle w, timeoutDuration (this w'))])) /\
  (forall (o : Supplied) (t0 : Z) (nows : list Z) (t6 : Z),
      retryCeiling (_options (this (constructor o t0))) = 5 ->
      List.length nows = 5%nat ->
      let w0 := startMonitoring (constructor o t0) in
      (forall k : nat,
          (k <= 5)%nat ->
          _isActive (this (fire_each (firstn k nows) w0)) = true /\
          _retryCount (this (fire_each (firstn k nows) w0)) = Z.of_nat k) /\
      _isActive (this (fire_each (nows ++ [t6]) w0)) = false /\
      calls CbMaxRetriesReached (events (fire_each (nows ++ [t6]) w0)) =
        if s_onMaxRetriesReached o then 1%nat else 0%nat).
Proof.
  split.
  - intros w h d now Hr Hin m w'. pose proof (reachable_owns w Hr) as Hw.
    pose proof (pending_is_active w _ Hw Hin) as Hact.
    subst w'. unfold fire. rewrite (fire_with_pending _ h d now w Hw Hin).
    split; intros Hcmp.
    + unfold _handleTimeout.
      rewrite handleTimeout_at_ceiling;
        [|now apply nothing_pending_owns|exact Hcmp].
      fields.
      match goal with |- context [run _ ?v] => set (w' := v) end.
      assert (Hw' : owns_timers w') by now apply nothing_pending_owns.
      repeat match goal with |- _ /\ _ => split end; try reflexivity.
      * subst w'; fields.
        rewrite !calls_app, !calls_log, calls_if_supplied, calls_nil.
        cbn [is_call]. rewrite andb_true_r. subst m. lia.
      * subst w'; fields.
        rewrite !calls_app, !calls_log, calls_if_supplied, calls_nil.
        cbn [is_call]. rewrite andb_false_r. lia.
      * intros ops. destruct (run_stopped ops w' Hw' eq_refl) as (? & ? & ? & ?).
        auto.
    + rewrite handleTimeout_below_ceiling;
        [|now apply nothing_pending_owns|exact Hact|exact Hcmp].
      fields. repeat match goal with |- _ /\ _ => split end; try reflexivity.
      * exact Hact.
      * rewrite !calls_app, calls_log, !calls_if_supplied, calls_backoff_note,
          calls_log. cbn [is_call]. rewrite andb_true_r, andb_false_r.
        cbn [calls filter List.length]. subst m. lia.
      * rewrite !calls_app, calls_log, !calls_if_supplied, calls_backoff_note,
          calls_log. cbn [is_call]. rewrite !andb_false_r.
        cbn [calls filter List.length]. lia.
  - intros o t0 nows t6 Hceil Hlen w0.
    assert (Hw0 : owns_timers w0)
      by apply resetTimeout_owns, constructor_owns.
    assert (Hshape : timers w0 <> [] /\ _retryCount (this w0) = 0 /\
                     _options (this w0) = _options (this (constructor o t0)) /\
                     calls CbMaxRetriesReached (events w0) = 0%nat).
    { subst w0. unfold startMonitoring.
      rewrite resetTimeout_active by (apply constructor_owns || reflexivity).
      fields. repeat split; try discriminate.
      cbn [constructor events app]. apply calls_backoff_note. }
    destruct Hshape as (Hne & Hr0 & Ho0 & Hc0).
    split; [|].
    + intros k Hk.
      destruct (fire_each_below (firstn k nows) w0 Hw0 Hne) as (Hw1 & Hne1 & Hr1 & _).
      { rewrite Hr0, Ho0, Hceil, length_firstn. lia. }
      split; [now apply armed_is_active|].
      rewrite Hr1, Hr0, length_firstn. lia.
    + destruct (fire_each_below nows w0 Hw0 Hne) as (Hw1 & Hne1 & Hr1 & Ho1 & Hc1).
      { rewrite Hr0, Ho0, Hceil, Hlen. lia. }
      unfold fire_each in *. rewrite fold_left_app. cbn [fold_left].
      destruct (fire_next_at_ceiling t6 _ Hw1 Hne1) as (Hoff & _ & Hcalls).
      { rewrite Ho1, Ho0, Hceil, Hr1, Hr0, Hlen. lia. }
      split; [exact Hoff|].
      rewrite Hcalls, Hc1, Hc0, Ho1, Ho0. reflexivity.
Qed.

(** The monitor of [chatAction] (60 s, 5 retries, backoff) when the
    stream stays silent: the timers that go off wait 1, 2 and 4
    minutes, then 5 minutes three times, and the sixth stops it. *)
Example silent_stream :
  delays [1; 2; 3; 4; 5; 6] fresh =
    [60000; 120000; 240000; 300000; 300000; 300000] /\
  _isActive (this (fire_each [1; 2; 3; 4; 5] fresh)) = true /\
  _isActive (this (fire_each [1; 2; 3; 4; 5; 6] fresh)) = false /\
  calls CbTimeout (events (fire_each [1; 2; 3; 4; 5; 6] fresh)) = 5%nat /\
  calls CbMaxRetriesReached (events (fire_each [1; 2; 3; 4; 5; 6] fresh)) = 1%nat.
Proof.
  vm_compute. repeat split.
Qed.

(** The firing of the first timer of a default manager: the retry is
    counted and the monitor stays active. *)
Lemma timeout_firing_witness :
  reachable fresh /\ In (1%nat, 60000) (timers fresh) /\
  _isActive (this (fire 1%nat 60000 fresh)) = true /\
  _retryCount (this (fire 1%nat 60000 fresh)) = 1.
Proof.
  split; [exact fresh_reachable|].
  split; [now left|].
  destruct timeout_firing as [Hfire _].
  destruct (Hfire fresh 1%nat 60000 60000 fresh_reachable (or_introl eq_refl))
    as [_ Hbelow].
  destruct Hbelow as (Hact & Hcount & _); [vm_compute; reflexivity|].
  split; [exact Hact|exact Hcount].
Defined.

(** C3 on the code, with [maxRetries: 0].  The constructor keeps the
    0 and the log prints it as the maximum, but the handler compares
    [retryCount] with [maxRetries || 5], which is 5: the first firing,
    with [retryCount = 0 >= maxRetries], does not stop the monitor; it
    counts a retry ("attempt 1/0"), invokes the timeout callback and
    not the max-retries callback, and the monitor is stopped by the
    sixth firing only. *)
Lemma zero_maxRetries_keeps_retrying :
  maxRetries (_options (this no_retries)) = Some 0 /\
  _retryCount (this no_retries) = 0 /\
  In (1%nat, 60000) (timers no_retries) /\
  _isActive (this (fire 1%nat 60000 no_retries)) = true /\
  _retryCount (this (fire 1%nat 60000 no_retries)) = 1 /\
  In (Log info "Attempting stream recovery (attempt 1/0)")
     (events (fire 1%nat 60000 no_retries)) /\
  calls CbTimeout (events (fire 1%nat 60000 no_retries)) = 1%nat /\
  calls CbMaxRetriesReached (events (fire 1%nat 60000 no_retries)) = 0%nat /\
  _isActive (this (fire_each [1; 2; 3; 4; 5] no_retries)) = true /\
  _isActive (this (fire_each [1; 2; 3; 4; 5; 6] no_retries)) = false /\
  calls CbMaxRetriesReached (events (fire_each [1; 2; 3; 4; 5; 6] no_retries))
    = 1%nat.
Proof.
  vm_compute. repeat split; auto.
Qed.

(** ** The backoff schedule *)

(** At retry count 0 the delay is the base timeout, and the cap of
    five minutes is not applied to it: a base of ten minutes arms a
    ten-minute timer, where the formula gives five. *)
Lemma uncapped_before_first_retry :
  truthy (useExponentialBackoff (_options (this ten_minutes))) = true /\
  _retryCount (this ten_minutes) = 0 /\
  baseTimeout (_options (this ten_minutes)) = 600000 /\
  timers ten_minutes = [(1%nat, 600000)] /\
  timeoutDuration (this ten_minutes) <> backoff_design 600000 0.
Proof.
  vm_compute. repeat split; discriminate.
Qed.

(** C5, as the code has it.  The delay of the timer [_resetTimeout]
    arms on an active manager is [timeoutDuration]; with backoff
    enabled and at least one retry it is
    [min (base * 2^retryCount) 300000]; with no retry yet, or with
    backoff disabled, it is the base timeout itself; so with backoff
    enabled it follows the formula for every retry count as long as
    the base timeout is at most 300000. *)
Theorem backoff_schedule (w : Runtime) :
  reachable w ->
  let m := this w in
  let base := baseTimeout (_options m) in
  let k := _retryCount m in
  (_isActive m = true ->
   timers (_resetTimeout w) = [(next_handle w, timeoutDuration m)]) /\
  (truthy (useExponentialBackoff (_options m)) = true ->
   1 <= k -> timeoutDuration m = backoff_design base k) /\
  (truthy (useExponentialBackoff (_options m)) = true ->
   k = 0 -> timeoutDuration m = base) /\
  (truthy (useExponentialBackoff (_options m)) = true ->
   0 <= k -> base <= 300000 -> timeoutDuration m = backoff_design base k) /\
  (truthy (useExponentialBackoff (_options m)) = false ->
   timeoutDuration m = base).
Proof.
  intros Hr m base k. pose proof (reachable_owns w Hr) as Hw.
  unfold timeoutDuration, backoff_design. fold (baseTimeout (_options m)).
  fold base. fold k.
  repeat match goal with |- _ /\ _ => split end.
  - intros Hact. now rewrite resetTimeout_active.
  - intros -> Hk. replace (k >? 0) with true; [reflexivity|].
    symmetry. rewrite Z.gtb_ltb. apply Z.ltb_lt. lia.
  - intros -> Hk. rewrite Hk. reflexivity.
  - intros -> Hk Hbase. destruct (k >? 0) eqn:E; [reflexivity|].
    rewrite Z.gtb_ltb in E. apply Z.ltb_ge in E.
    replace k with 0 by lia. cbn. lia.
  - intros ->. reflexivity.
Qed.

(** After one retry a default manager waits twice the base timeout. *)
Lemma backoff_schedule_witness :
  reachable (fire 1%nat 60000 fresh) /\
  timeoutDuration (this (fire 1%nat 60000 fresh)) = 120000.
Proof.
  assert (Hr : reachable (fire 1%nat 60000 fresh)).
  { exists (mkSupplied absent absent true false true absent), 0,
      [StartMonitoring; Fire 1%nat 60000; Resume].
    vm_compute. reflexivity. }
  split; [exact Hr|].
  destruct (backoff_schedule _ Hr) as (_ & Hback & _).
  rewrite Hback; [reflexivity|reflexivity|vm_compute; discriminate].
Defined.

(** ** Reset *)

(** [reset] on a stopped manager clears the counters but arms
    nothing: the manager stays inactive and no timer is pending. *)
Lemma reset_after_stop_arms_nothing :
  reachable (stop fresh) /\
  ~ (counters_cleared (this (reset 5 (stop fresh))) /\
     timers (reset 5 (stop fresh)) <> []).
Proof.
  split.
  - exists (mkSupplied absent absent true false true absent), 0,
      [StartMonitoring; Stop]. reflexivity.
  - intros [_ Hpending]. apply Hpending. reflexivity.
Qed.

(** C7, as the code has it.  [reset] clears [retryCount],
    [consecutiveFailures] and [lastErrorTime] and records the time in
    every state, and leaves [isActive] as it was; on an active manager
    it re-arms: exactly one timer is pending afterwards, with the base
    timeout as its delay; on a stopped manager no timer is pending
    afterwards. *)
Theorem reset_clears_and_rearms (w : Runtime) (now : Z) :
  reachable w ->
  let w' := reset now w in
  counters_cleared (this w') /\
  _lastActivity (this w') = now /\
  _isActive (this w') = _isActive (this w) /\
  (_isActive (this w) = true ->
   timers w' = [(next_handle w, baseTimeout (_options (this w)))]) /\
  (_isActive (this w) = false -> timers w' = []).
Proof.
  intros Hr w'. pose proof (reachable_owns w Hr) as Hw.
  subst w'. unfold reset.
  match goal with |- context [_resetTimeout ?u] => set (v := u) end.
  assert (Hv : owns_timers v) by (revert Hw; same_timers).
  destruct (_isActive (this w)) eqn:Hact.
  - rewrite (resetTimeout_active v Hv Hact). subst v. unfold counters_cleared.
    fields. unfold set_this. fields.
    repeat match goal with |- _ /\ _ => split end;
      try reflexivity; try discriminate; try exact Hact.
    intros _. unfold timeoutDuration, baseTimeout. fields.
    now rewrite andb_false_r.
  - rewrite (resetTimeout_stopped v Hv Hact). subst v. unfold counters_cleared.
    unfold set_this. fields.
    repeat match goal with |- _ /\ _ => split end;
      try reflexivity; try discriminate; try exact Hact.
    intros _. destruct Hw as [_ Hnone]. now apply Hnone.
Qed.

(** A default manager that has retried once is reset: it waits for
    the base timeout again. *)
Lemma reset_clears_and_rearms_witness :
  reachable (fire 1%nat 60000 fresh) /\
  counters_cleared (this (reset 70000 (fire 1%nat 60000 fresh))) /\
  timers (reset 70000 (fire 1%nat 60000 fresh)) = [(3%nat, 60000)].
Proof.
  assert (Hr : reachable (fire 1%nat 60000 fresh)).
  { exists (mkSupplied absent absent true false true absent), 0,
      [StartMonitoring; Fire 1%nat 60000; Resume].
    vm_compute. reflexivity. }
  split; [exact Hr|].
  destruct (reset_clears_and_rearms _ 70000 Hr) as (Hc & _ & _ & Harm & _).
  split; [exact Hc|]. apply Harm. reflexivity.
Defined.

(** ** The health score *)

(** C8.  The health score is 100 less 20 per consecutive failure,
    less 15 per retry, less 10 when the last activity is more than
    30000 ms old, floored at 0; [isHealthy] holds exactly when that
    score is above 50 and the manager is active. *)
Theorem health_score (now : Z) (m : StreamRecoveryManager) :
  _calculateHealthScore now m =
    healthScore_design (_consecutiveFailures m) (_retryCount m)
                       (now - _lastActivity m) /\
  (isHealthy now m = true <->
   50 < _calculateHealthScore now m /\ _isActive m = true).
Proof.
  split.
  - unfold _calculateHealthScore, healthScore_design.
    rewrite Z.gtb_ltb. f_equal. lia.
  - unfold isHealthy. rewrite andb_true_iff, Z.gtb_ltb, Z.ltb_lt. reflexivity.
Qed.

(** ** Stopping *)

(** C10.  Once [stop] has run, whatever is done to the manager
    afterwards ([startMonitoring], [updateActivity], [reportError],
    [reset], [stop], a timer going off, a suspended handler
    continuing), it is inactive, no timer is pending, and neither the
    timeout callback nor the max-retries callback is invoked again. *)
Theorem stop_is_permanent (w : Runtime) (ops : list Op) :
  reachable w ->
  let w' := run ops (stop w) in
  _isActive (this w') = false /\
  timers w' = [] /\
  calls CbTimeout (events w') = calls CbTimeout (events w) /\
  calls CbMaxRetriesReached (events w') = calls CbMaxRetriesReached (events w).
Proof.
  intros Hr w'. pose proof (reachable_owns w Hr) as Hw.
  destruct (run_stopped ops (stop w) (stop_owns w Hw) (stop_isActive w))
    as (Hoff & Hnone & Ht & Hm).
  assert (He : events (stop w) = events w) by now rewrite (stop_spec w Hw).
  rewrite He in Ht, Hm. subst w'. repeat split; assumption.
Qed.

(** A default manager is stopped while a timer is pending; activity,
    a reset, a restart, the old timer and a resumption follow. *)
Lemma stop_is_permanent_witness :
  reachable fresh /\
  let w' := run [UpdateActivity 5; Reset 6; StartMonitoring;
                 Fire 1%nat 7; Resume] (stop fresh) in
  _isActive (this w') = false /\ timers w' = [] /\
  calls CbTimeout (events w') = 0%nat.
Proof.
  split; [exact fresh_reachable|].
  destruct (stop_is_permanent fresh
              [UpdateActivity 5; Reset 6; StartMonitoring; Fire 1%nat 7; Resume]
              fresh_reachable) as (Hoff & Hnone & Ht & _).
  cbn zeta. split; [exact Hoff|]. split; [exact Hnone|]. exact Ht.
Defined.

End StreamRecoveryFacts.

(** * Properties of the segment switcher *)

Module SwitchableFacts.
Import Js Switchable.

Ltac fields :=
  cbn [_controller _currentReader _switches _isActive _errorCount _maxErrors
       _pumpingPromise readable log queue out_state
       with_controller with_currentReader with_switches with_isActive
       with_errorCount with_pumpingPromise with_readable logger logger_with
       forwarded this inbox waiting fst snd] in *.

(** ** What the parts of the class change *)

Lemma core_fields (a b : SwitchableStream) :
  core a = core b ->
  _controller a = _controller b /\ _isActive a = _isActive b /\
  _errorCount a = _errorCount b /\ _maxErrors a = _maxErrors b /\
  _switches a = _switches b /\ readable a = readable b.
Proof.
  unfold core. intros H. injection H as H1 H2 H3 H4 H5 H6.
  repeat split; assumption.
Qed.

Lemma core_open (a b : SwitchableStream) :
  core a = core b -> open_for_sources b -> open_for_sources a.
Proof.
  intros H (Ha & Hc & Hw). apply core_fields in H as (H1 & H2 & _ & _ & _ & H6).
  repeat split; congruence.
Qed.

(** [_handleError], but for the log. *)
Lemma handleError_effect (f : Fault) (x : SwitchableStream) :
  let x' := _handleError f x in
  _switches x' = _switches x /\ _maxErrors x' = _maxErrors x /\
  _controller x' = _controller x /\ _currentReader x' = _currentReader x /\
  _pumpingPromise x' = _pumpingPromise x /\
  _errorCount x' = _errorCount x + 1 /\
  _isActive x' =
    (if _errorCount x + 1 >=? _maxErrors x then false else _isActive x) /\
  readable x' =
    (if (_errorCount x + 1 >=? _maxErrors x) && _controller x && has_message f
     then controller_error (_errorCount x + 1) f (readable x)
     else readable x).
Proof.
  destruct x as [c r sw a ec m p o lg].
  unfold _handleError.
  cbn [_errorCount with_errorCount logger_with logger _maxErrors _controller
       with_isActive].
  destruct (ec + 1 >=? m); destruct c; cbn [andb];
    destruct (has_message f); cbn; repeat split.
Qed.

Lemma handleError_switches (f : Fault) (s : SwitchableStream) :
  _switches (_handleError f s) = _switches s.
Proof. apply handleError_effect. Qed.

(** The cancellation of the previous reader touches the reader and
    the log only. *)
Lemma cancelPrevious_core (s : SwitchableStream) :
  core (snd (cancelPrevious s)) = core s.
Proof. unfold cancelPrevious. now destruct (_currentReader s). Qed.

Lemma afterCancel_core (outcome : option Fault) (s : SwitchableStream) :
  core (afterCancel outcome s) = core s.
Proof.
  unfold afterCancel. destruct outcome; [reflexivity|].
  now destruct (_currentReader s).
Qed.

Lemma previous_core (s : SwitchableStream) :
  core (match cancelPrevious s with
        | (Some outcome, s1) => afterCancel outcome s1
        | (None, s1) => s1
        end) = core s.
Proof.
  pose proof (cancelPrevious_core s) as H.
  destruct (cancelPrevious s) as [[outcome|] s1]; cbn [snd] in H;
    [now rewrite afterCancel_core|exact H].
Qed.

Lemma getReader_effect (src : ReadableStream) (s s' : SwitchableStream) :
  getReader src s = Some s' ->
  locked src = false /\
  core s' = (_controller s, _isActive s, _errorCount s, _maxErrors s,
             _switches s + 1, readable s) /\
  _currentReader s' = Some (Readable (chunks src) (ending src)) /\
  _pumpingPromise s' = _pumpingPromise s.
Proof.
  unfold getReader. destruct (locked src); [discriminate|].
  intros [= <-]. repeat split.
Qed.

Lemma getReader_unlocked (src : ReadableStream) (s : SwitchableStream) :
  locked src = false -> exists s', getReader src s = Some s'.
Proof. unfold getReader. intros ->. eauto. Qed.

Lemma getReader_locked (src : ReadableStream) (s : SwitchableStream) :
  locked src = true -> getReader src s = None.
Proof. unfold getReader. now intros ->. Qed.

(** ** Draining *)

Lemma forwarded_nil (s : SwitchableStream) :
  out_state (readable s) = Writable -> forwarded [] s = s.
Proof.
  destruct s as [? ? ? ? ? ? ? [q st] ?]; cbn. intros ->.
  unfold forwarded. cbn. now rewrite app_nil_r.
Qed.

Lemma pump_loop_open (cs : list Chunk) (e : Ending) (s : SwitchableStream) :
  open_for_sources s ->
  pump_loop cs e s =
    match e with
    | Completed =>
        (None, Closed, logger info "Stream read complete" (forwarded cs s))
    | Failed f => (Some f, Errored f, forwarded cs s)
    end.
Proof.
  revert s. induction cs as [|c cs IH]; intros s (Hact & Hctl & Hout).
  - cbn [pump_loop]. rewrite Hact. cbn [negb].
    rewrite (forwarded_nil s Hout). now destruct e.
  - cbn [pump_loop]. rewrite Hact, Hctl. cbn [negb]. unfold enqueue.
    rewrite Hout. rewrite IH by (repeat split; fields; assumption).
    assert (Hs : forwarded cs (with_readable
                                 (mkOutward (queue (readable s) ++ [c]) Writable) s)
                 = forwarded (c :: cs) s).
    { unfold forwarded. fields. now rewrite <- app_assoc. }
    now rewrite Hs.
Qed.

Lemma pump_loop_switches (cs : list Chunk) (e : Ending) (s : SwitchableStream) :
  _switches (snd (pump_loop cs e s)) = _switches s.
Proof.
  revert s. induction cs as [|c cs IH]; intros s; cbn [pump_loop].
  - destruct (_isActive s); cbn; [|reflexivity]. now destruct e.
  - destruct (_isActive s); cbn; [|reflexivity].
    destruct (_controller s); cbn; [|reflexivity].
    destruct (enqueue c (readable s)); [|reflexivity]. now rewrite IH.
Qed.

Lemma pumpStream_switches (s : SwitchableStream) :
  _switches (snd (_pumpStream s)) = _switches s.
Proof.
  unfold _pumpStream. destruct (_currentReader s) as [r|]; [|reflexivity].
  destruct (_controller s); cbn [negb]; [|reflexivity].
  pose proof (pump_loop_switches (fst (reads r)) (snd (reads r)) s) as H.
  destruct (pump_loop _ _ s) as [[raised r'] s']. cbn [snd] in H.
  cbn [snd after_loop].
  destruct raised; rewrite ?handleError_switches; exact H.
Qed.

(** ** One hand-over *)

Lemma switchSource_inactive (src : ReadableStream) (s : SwitchableStream) :
  _isActive s = false -> switchSource src s = rejected_switch s.
Proof.
  intros H. unfold switchSource. now rewrite H.
Qed.

Lemma switchSource_switches (src : ReadableStream) (s : SwitchableStream) :
  _switches (switchSource src s) =
  if _isActive s && negb (locked src) then _switches s + 1 else _switches s.
Proof.
  unfold switchSource. destruct (_isActive s) eqn:Hact; cbn [negb andb];
    [|reflexivity].
  pose proof (previous_core s) as H1.
  set (s1 := match cancelPrevious s with
             | (Some outcome, s1) => _
             | (None, s1) => s1
             end) in *.
  apply core_fields in H1 as (_ & _ & _ & _ & H1 & _). clearbody s1.
  destruct (locked src) eqn:Hl; cbn [negb].
  - rewrite (getReader_locked src s1 Hl). unfold switch_failed.
    now rewrite handleError_switches.
  - destruct (getReader_unlocked src s1 Hl) as [s2 H2]. rewrite H2.
    apply getReader_effect in H2 as (_ & Hc & _).
    apply (f_equal (fun t => snd (fst t))) in Hc. cbn in Hc.
    pose proof (pumpStream_switches s2) as Hp.
    destruct (_pumpStream s2) as [p s3]. cbn [snd] in Hp. fields.
    now rewrite Hp, Hc, H1.
Qed.

(** [_pumpStream] on an open switcher that has just taken a reader. *)
Lemma pumpStream_open (cs : list Chunk) (e : Ending) (s : SwitchableStream) :
  open_for_sources s ->
  _currentReader s = Some (Readable cs e) ->
  _pumpStream s =
    match e with
    | Completed =>
        (fulfilled,
         with_currentReader (Some Closed)
           (logger info "Stream read complete" (forwarded cs s)))
    | Failed f =>
        (fulfilled,
         _handleError f (with_currentReader (Some (Errored f)) (forwarded cs s)))
    end.
Proof.
  intros Ho Hr. pose proof Ho as (_ & Hc & _).
  unfold _pumpStream. rewrite Hr, Hc. cbn [negb reads fst snd].
  rewrite (pump_loop_open cs e s Ho). now destruct e.
Qed.

(** What an open switcher looks like after it has taken an unlocked
    source and drained it. *)
Lemma switchSource_open (src : ReadableStream) (s : SwitchableStream) :
  open_for_sources s ->
  unlocked src ->
  let s' := switchSource src s in
  _switches s' = _switches s + 1 /\
  _maxErrors s' = _maxErrors s /\
  _controller s' = true /\
  match ending src with
  | Completed =>
      _errorCount s' = _errorCount s /\ _isActive s' = true /\
      readable s' = mkOutward (queue (readable s) ++ chunks src) Writable
  | Failed f =>
      _errorCount s' = _errorCount s + 1 /\
      if _errorCount s + 1 >=? _maxErrors s
      then _isActive s' = false /\
           readable s' =
             (if has_message f
              then mkOutward [] (Broken (_errorCount s + 1) f)
              else mkOutward (queue (readable s) ++ chunks src) Writable)
      else _isActive s' = true /\
           readable s' = mkOutward (queue (readable s) ++ chunks src) Writable
  end.
Proof.
  intros Ho Hun s'. subst s'. pose proof Ho as (Hact & Hctl & Hout).
  unfold switchSource. rewrite Hact. cbn [negb].
  pose proof (previous_core s) as H1.
  set (s1 := match cancelPrevious s with
             | (Some outcome, s1) => _
             | (None, s1) => s1
             end) in *.
  clearbody s1.
  destruct (getReader_unlocked src s1 Hun) as [s2 H2]. rewrite H2.
  apply getReader_effect in H2 as (_ & Hc2 & Hr2 & _).
  apply core_fields in H1 as (A1 & A2 & A3 & A4 & A5 & A6).
  injection Hc2 as B1 B2 B3 B4 B5 B6.
  assert (Ho2 : open_for_sources s2)
    by (repeat split; congruence).
  rewrite (pumpStream_open _ _ s2 Ho2 Hr2).
  destruct (ending src) as [|f].
  - fields. rewrite B1, B2, B3, B4, B5, B6, A1, A2, A3, A4, A5, A6.
    repeat split; assumption.
  - set (y := with_currentReader (Some (Errored f)) (forwarded (chunks src) s2)).
    assert (Hy : _switches y = _switches s + 1 /\ _maxErrors y = _maxErrors s /\
                 _controller y = true /\ _errorCount y = _errorCount s /\
                 _isActive y = true /\
                 readable y = mkOutward (queue (readable s) ++ chunks src) Writable).
    { subst y. fields. rewrite B1, B2, B3, B4, B5, B6, A1, A2, A3, A4, A5, A6.
      repeat split; assumption. }
    destruct Hy as (Y1 & Y2 & Y3 & Y4 & Y5 & Y6). clearbody y.
    destruct (handleError_effect f y) as (E1 & E2 & E3 & _ & _ & E6 & E7 & E8).
    cbn [_switches _maxErrors _controller _errorCount _isActive readable
         with_pumpingPromise].
    rewrite E1, E2, E3, E6, E7, E8, Y1, Y2, Y3, Y4, Y5, Y6.
    split; [reflexivity|]. split; [reflexivity|]. split; [reflexivity|].
    split; [reflexivity|].
    destruct (_errorCount s + 1 >=? _maxErrors s); cbn [andb].
    + split; [reflexivity|]. now destruct (has_message f).
    + split; reflexivity.
Qed.

(** ** A sequence of hand-overs *)

Lemma handOver_open (sources : list ReadableStream) (s : SwitchableStream) :
  open_for_sources s ->
  Forall unlocked sources ->
  _errorCount s + faults sources < _maxErrors s ->
  let s' := handOver sources s in
  open_for_sources s' /\
  _switches s' = _switches s + Z.of_nat (List.length sources) /\
  _errorCount s' = _errorCount s + faults sources /\
  _maxErrors s' = _maxErrors s /\
  queue (readable s') = queue (readable s) ++ List.concat (map chunks sources).
Proof.
  revert s. induction sources as [|src sources IH]; intros s Hs Hun Hlt.
  - cbn. unfold faults. cbn. rewrite app_nil_r. repeat split; try apply Hs; lia.
  - inversion Hun as [|? ? Hsrc Hrest]; subst.
    change (handOver (src :: sources) s)
      with (handOver sources (switchSource src s)).
    destruct (switchSource_open src s Hs Hsrc) as (Hsw & Hmax & Hctl & Hend).
    assert (Hf : faults (src :: sources) =
                 (if faulty src then 1 else 0) + faults sources).
    { unfold faults. cbn [filter]. destruct (faulty src); cbn [List.length]; lia. }
    assert (Hge : 0 <= faults sources) by (unfold faults; lia).
    assert (Hnext : _isActive (switchSource src s) = true /\
                    readable (switchSource src s) =
                      mkOutward (queue (readable s) ++ chunks src) Writable /\
                    _errorCount (switchSource src s) =
                      _errorCount s + (if faulty src then 1 else 0)).
    { unfold faulty in *. destruct (ending src) as [|f].
      - destruct Hend as (He & Ha & Hr). repeat split; [exact Ha|exact Hr|lia].
      - destruct Hend as [He Hif].
        replace (_errorCount s + 1 >=? _maxErrors s) with false in Hif
          by (symmetry; rewrite Z.geb_leb; apply Z.leb_gt; lia).
        destruct Hif as [Ha Hr]. repeat split; [exact Ha|exact Hr|lia]. }
    destruct Hnext as (Ha & Hr & He).
    assert (Ho : open_for_sources (switchSource src s))
      by (repeat split; [exact Ha|exact Hctl|now rewrite Hr]).
    destruct (IH (switchSource src s) Ho Hrest) as (Ho' & Hsw' & He' & Hmax' & Hq').
    { rewrite He, Hmax. lia. }
    cbn zeta. rewrite Hsw', He', Hmax', Hq', Hsw, He, Hmax, Hr, Hf.
    cbn [List.length map List.concat queue]. rewrite Nat2Z.inj_succ, <- app_assoc.
    repeat split; try apply Ho'; lia.
Qed.

Lemma constructor_open : open_for_sources constructor.
Proof. repeat split. Qed.

Lemma all_faulty (sources : list ReadableStream) :
  Forall (fun src => faulty src = true) sources ->
  faults sources = Z.of_nat (List.length sources).
Proof.
  unfold faults. induction 1 as [|src sources Hsrc _ IH]; [reflexivity|].
  cbn [filter]. rewrite Hsrc. cbn [List.length].
  rewrite !Nat2Z.inj_succ. now rewrite IH.
Qed.

(** Two segments, the first cut short, the second complete: their
    chunks come out in order, nothing fails, and the counter stands
    at 2. *)
Example two_sources :
  let s := handOver [mkSource ["Hel"; "lo, "]%string Completed false;
                     mkSource ["wor"; "ld"]%string Completed false] constructor in
  queue (readable s) = ["Hel"; "lo, "; "wor"; "ld"]%string /\
  out_state (readable s) = Writable /\
  switches s = 2 /\ errorCount s = 0 /\ isActive s = true.
Proof.
  vm_compute. repeat split.
Qed.

(** ** Counting switches *)

(** The first source handed to a new switcher already counts: after
    one segment [switches] is 1, not 0. *)
Lemma first_source_counts :
  _currentReader constructor = None /\
  switches (handOver [one_chunk] constructor) = 1 /\
  switches (handOver [one_chunk] constructor)
    <> Z.of_nat (List.length [one_chunk]) - 1.
Proof.
  vm_compute. repeat split; discriminate.
Qed.

(** C2, as the code has it.  [switchSource] adds one to [switches]
    for every source an active switcher accepts, whether or not a
    source was being drained before, and leaves it alone when the
    switcher is inactive or the source cannot be acquired; so after N
    unlocked segments handed to a new switcher, of which fewer than
    ten end in a fault, [switches] is N. *)
Theorem switches_count_sources :
  (forall (s : SwitchableStream) (src : ReadableStream),
      _isActive s = true -> unlocked src ->
      switches (switchSource src s) = switches s + 1) /\
  (forall (s : SwitchableStream) (src : ReadableStream),
      _isActive s = false \/ locked src = true ->
      switches (switchSource src s) = switches s) /\
  (forall sources : list ReadableStream,
      Forall unlocked sources ->
      faults sources < 10 ->
      switches (handOver sources constructor)
        = Z.of_nat (List.length sources)).
Proof.
  unfold switches. repeat split.
  - intros s src Hact Hun. rewrite switchSource_switches, Hact, Hun. reflexivity.
  - intros s src H. rewrite switchSource_switches.
    destruct H as [-> | ->]; [reflexivity|]. now rewrite andb_false_r.
  - intros sources Hun Hlt.
    destruct (handOver_open sources constructor constructor_open Hun)
      as (_ & Hsw & _); [exact Hlt|]. exact Hsw.
Qed.

(** Two segments, the second of which fails: two switches. *)
Lemma switches_count_sources_witness :
  Forall unlocked [one_chunk; failing [] "reset by peer"] /\
  faults [one_chunk; failing [] "reset by peer"] < 10 /\
  switches (handOver [one_chunk; failing [] "reset by peer"] constructor) = 2.
Proof.
  assert (Hun : Forall unlocked [one_chunk; failing [] "reset by peer"])
    by (repeat constructor).
  assert (Hlt : faults [one_chunk; failing [] "reset by peer"] < 10)
    by reflexivity.
  split; [exact Hun|]. split; [exact Hlt|].
  destruct switches_count_sources as (_ & _ & Hcount).
  exact (Hcount _ Hun Hlt).
Defined.

(** ** The error ceiling *)

Lemma handleError_ceiling_line (f : Fault) (x : SwitchableStream) :
  _maxErrors x <= _errorCount x + 1 ->
  In (ceiling_line x) (log (_handleError f x)).
Proof.
  intros Hge. destruct x as [c r sw a ec m p o lg]. cbn in Hge.
  unfold _handleError, ceiling_line.
  cbn [_errorCount with_errorCount logger_with logger _maxErrors _controller
       with_isActive].
  replace (ec + 1 >=? m) with true
    by (symmetry; rewrite Z.geb_leb; apply Z.leb_le; lia).
  destruct c; [destruct (has_message f)|];
    cbn [log with_readable with_isActive logger logger_with];
    rewrite ?in_app_iff; cbn [In]; tauto.
Qed.

Lemma rejected_switch_core (s : SwitchableStream) :
  core (rejected_switch s) = core s.
Proof. reflexivity. Qed.

(** An inactive switcher takes no source. *)
Lemma handOver_inactive (sources : list ReadableStream) (s : SwitchableStream) :
  _isActive s = false -> core (handOver sources s) = core s.
Proof.
  revert s. induction sources as [|src sources IH]; intros s Ha; [reflexivity|].
  change (handOver (src :: sources) s)
    with (handOver sources (switchSource src s)).
  rewrite (switchSource_inactive src s Ha), IH; [reflexivity|exact Ha].
Qed.

(** C4 on the code.  An open switcher one fault short of its ceiling
    drains a source whose read is rejected with [f].  The count
    reaches the ceiling, the switcher is inactive and the log says
    that the stream is being terminated; and when [f] is an error
    with a message the outward stream is failed with the count and
    [f], in an error whose text cites both.  But when [f] is [null]
    or [undefined], reading its [message] throws inside the [try]
    around [controller.error], so that call is never made: the
    outward stream is left open, holding what was forwarded, and no
    later source is taken that could end it. *)
Theorem ceiling_leaves_stream_open
        (s : SwitchableStream) (cs : list Chunk) (f : Fault) :
  open_for_sources s ->
  _errorCount s + 1 = _maxErrors s ->
  let s' := switchSource (mkSource cs (Failed f) false) s in
  errorCount s' = _maxErrors s /\
  isActive s' = false /\
  In (ceiling_line s) (log s') /\
  (has_message f = true ->
   readable s' = mkOutward [] (Broken (_maxErrors s) f)) /\
  (forall (platform : Refusal -> string) (message : string),
      f = thrown (Some message) ->
      broken_text platform (_maxErrors s) f =
        Some ("Stream failed after " ++ show (_maxErrors s)
                ++ " errors. Last error: " ++ message)%string) /\
  (has_message f = false ->
   readable s' = mkOutward (queue (readable s) ++ cs) Writable /\
   forall later : list ReadableStream,
     readable (handOver later s') = readable s' /\
     isActive (handOver later s') = false).
Proof.
  intros Ho Hec s'.
  destruct (switchSource_open (mkSource cs (Failed f) false) s Ho eq_refl)
    as (_ & _ & _ & Hend).
  cbn [ending chunks] in Hend. fold s' in Hend.
  replace (_errorCount s + 1 >=? _maxErrors s) with true in Hend
    by (symmetry; rewrite Z.geb_leb; apply Z.leb_le; lia).
  destruct Hend as (He & Ha & Hr). unfold errorCount, isActive.
  split; [lia|]. split; [exact Ha|]. split; [|split; [|split]].
  - subst s'. pose proof Ho as (Hact & Hctl & Hout).
    unfold switchSource. rewrite Hact. cbn [negb].
    pose proof (previous_core s) as H1.
    set (s1 := match cancelPrevious s with
               | (Some outcome, s1) => _
               | (None, s1) => s1
               end) in *.
    clearbody s1.
    destruct (getReader_unlocked (mkSource cs (Failed f) false) s1 eq_refl)
      as [s2 H2].
    rewrite H2. apply getReader_effect in H2 as (_ & Hc2 & Hr2 & _).
    apply core_fields in H1 as (A1 & A2 & A3 & A4 & A5 & A6).
    injection Hc2 as B1 B2 B3 B4 B5 B6.
    assert (Ho2 : open_for_sources s2) by (repeat split; congruence).
    rewrite (pumpStream_open _ _ s2 Ho2 Hr2). cbn [ending chunks].
    cbn [log with_pumpingPromise].
    set (y := with_currentReader (Some (Errored f)) (forwarded cs s2)).
    assert (Hy : _maxErrors y = _maxErrors s /\ _errorCount y = _errorCount s)
      by (subst y; fields; split; congruence).
    destruct Hy as [Y1 Y2]. clearbody y.
    replace (ceiling_line s) with (ceiling_line y)
      by (unfold ceiling_line; now rewrite Y1).
    apply handleError_ceiling_line. lia.
  - intros Hm. rewrite Hm in Hr. now rewrite Hr, Hec.
  - intros platform message ->. reflexivity.
  - intros Hm. rewrite Hm in Hr. split; [exact Hr|].
    intros later.
    destruct (core_fields _ _ (handOver_inactive later s' Ha))
      as (_ & Ha' & _ & _ & _ & Hr').
    split; [exact Hr'|]. now rewrite Ha'.
Qed.

(** Nine sources fail with an error; the tenth gives a chunk and
    then fails with [undefined]: the switcher is inactive at ten
    errors, and the outward stream is open with the chunk in it. *)
Lemma ceiling_leaves_stream_open_witness :
  let s9 := handOver (repeat (failing [] "stalled") 9) constructor in
  open_for_sources s9 /\
  _errorCount s9 + 1 = _maxErrors s9 /\
  errorCount (switchSource silent_failure s9) = 10 /\
  isActive (switchSource silent_failure s9) = false /\
  readable (switchSource silent_failure s9) = mkOutward ["a"%string] Writable.
Proof.
  cbn zeta.
  set (s9 := handOver (repeat (failing [] "stalled") 9) constructor).
  assert (Ho : open_for_sources s9) by (vm_compute; repeat split).
  assert (Hec : _errorCount s9 + 1 = _maxErrors s9) by (vm_compute; reflexivity).
  split; [exact Ho|]. split; [exact Hec|].
  destruct (ceiling_leaves_stream_open s9 ["a"%string] thrown_undefined Ho Hec)
    as (He & Ha & _ & _ & _ & Hopen).
  destruct (Hopen eq_refl) as [Hr _].
  split; [exact He|]. split; [exact Ha|]. exact Hr.
Defined.

End SwitchableFacts.

(** * Properties of the continuation orchestrator *)

Module ChatFacts.
Import Js Chat.

Ltac fields :=
  cbn [stream cumulativeUsage progressCounter processedMessages dataStream
       requests with_cumulativeUsage with_processedMessages write writeProgress
       streamText state_of] in *.

Section WithImports.

Variable MAX_RESPONSE_SEGMENTS : Z.
Variable CONTINUE_PROMPT : string.
Variable extractPropertiesFromMessage : option Message -> string * string.

#[local] Abbreviation onFinish :=
  (onFinish MAX_RESPONSE_SEGMENTS CONTINUE_PROMPT extractPropertiesFromMessage).
#[local] Abbreviation segments :=
  (segments MAX_RESPONSE_SEGMENTS CONTINUE_PROMPT extractPropertiesFromMessage).
#[local] Abbreviation chatAction :=
  (chatAction MAX_RESPONSE_SEGMENTS CONTINUE_PROMPT extractPropertiesFromMessage).

(** ** The handlers never touch the stream *)

Lemma addUsage_stream (u : option Usage) (c : ChatState) :
  stream (addUsage u c) = stream c.
Proof. now destruct u. Qed.

Lemma onFinish_stream (ev : FinishEvent) (c : ChatState) :
  stream (state_of (onFinish ev c)) = stream c.
Proof.
  unfold Chat.onFinish.
  destruct (is_length (finishReason ev)); cbn [negb]; fields.
  - destruct (_ >=? _); fields; apply addUsage_stream.
  - apply addUsage_stream.
Qed.

Lemma auxiliary_stream (us : list (option Usage)) (c : ChatState) :
  stream (fold_left (fun c u => onFinishAuxiliary u c) us c) = stream c.
Proof.
  revert c. induction us as [|u us IH]; intros c; [reflexivity|].
  cbn [fold_left]. rewrite IH. apply addUsage_stream.
Qed.

Lemma onFinish_below_cap (ev : FinishEvent) (c : ChatState) :
  Switchable.switches (stream c) < MAX_RESPONSE_SEGMENTS ->
  exists c', onFinish ev c = Return c' /\
             List.length (requests c') =
               (List.length (requests c)
                + if is_length (finishReason ev) then 1 else 0)%nat.
Proof.
  intros Hlt. unfold Chat.onFinish.
  destruct (is_length (finishReason ev)); cbn [negb].
  - rewrite addUsage_stream.
    replace (_ >=? _) with false
      by (symmetry; rewrite Z.geb_leb; apply Z.leb_gt; lia).
    eexists. split; [reflexivity|]. fields. rewrite length_app. cbn.
    now destruct (usage ev).
  - eexists. split; [reflexivity|]. fields. destruct (usage ev); cbn; lia.
Qed.

(** The guard itself works: on a stream whose counter has reached the
    maximum, a segment that ends for length makes the handler throw,
    and no continuation is requested. *)
Lemma onFinish_at_cap (ev : FinishEvent) (c : ChatState) :
  is_truncated ev ->
  MAX_RESPONSE_SEGMENTS <= Switchable.switches (stream c) ->
  onFinish ev c =
    Throw "Cannot continue message: Maximum segments reached"
          (addUsage (usage ev) c).
Proof.
  intros Hev Hge. unfold Chat.onFinish. rewrite Hev. cbn [is_length negb].
  rewrite addUsage_stream.
  replace (_ >=? _) with true
    by (symmetry; rewrite Z.geb_leb; now apply Z.leb_le).
  reflexivity.
Qed.

Lemma segments_below_cap (evs : list FinishEvent) (c : ChatState) :
  Switchable.switches (stream c) < MAX_RESPONSE_SEGMENTS ->
  stream (snd (segments evs c)) = stream c /\
  (forall message, fst (segments evs c) <> Failed message) /\
  (Forall is_truncated evs ->
   fst (segments evs c) = Streaming /\
   List.length (requests (snd (segments evs c))) =
     (List.length (requests c) + List.length evs)%nat).
Proof.
  revert c. induction evs as [|ev evs IH]; intros c Hlt.
  - cbn. repeat split; [discriminate|lia].
  - cbn [Chat.segments].
    destruct (onFinish_below_cap ev c Hlt) as (c' & Hret & Hreq).
    pose proof (onFinish_stream ev c) as Hst. rewrite Hret in *. fields.
    assert (Hlt' : Switchable.switches (stream c') < MAX_RESPONSE_SEGMENTS)
      by now rewrite Hst.
    destruct (IH c' Hlt') as (Hs & Hf & Hall).
    destruct (is_length (finishReason ev)) eqn:Hlen.
    + rewrite Hs, Hst. split; [reflexivity|]. split; [exact Hf|].
      intros Htr. inversion Htr as [|? ? _ Hrest]; subst.
      destruct (Hall Hrest) as [Hstr Hn]. split; [exact Hstr|].
      rewrite Hn, Hreq. cbn [List.length]. lia.
    + cbn [fst snd]. split; [exact Hst|]. split; [discriminate|].
      intros Htr. inversion Htr as [|? ? Hev _]; subst.
      unfold is_truncated in Hev. rewrite Hev in Hlen. discriminate.
Qed.

(** ** Usage *)

Lemma addUsage_usage (u : option Usage) (c : ChatState) :
  cumulativeUsage (addUsage u c) = add_report u (cumulativeUsage c).
Proof. now destruct u. Qed.

Lemma onFinish_usage (ev : FinishEvent) (c : ChatState) :
  cumulativeUsage (state_of (onFinish ev c)) =
  add_report (usage ev) (cumulativeUsage c).
Proof.
  unfold Chat.onFinish.
  destruct (is_length (finishReason ev)); cbn [negb]; fields.
  - destruct (_ >=? _); fields; apply addUsage_usage.
  - apply addUsage_usage.
Qed.

Lemma auxiliary_usage (us : list (option Usage)) (c : ChatState) :
  cumulativeUsage (fold_left (fun c u => onFinishAuxiliary u c) us c) =
  fold_left (fun t u => add_report u t) us (cumulativeUsage c).
Proof.
  revert c. induction us as [|u us IH]; intros c; [reflexivity|].
  cbn [fold_left]. rewrite IH. unfold onFinishAuxiliary.
  now rewrite addUsage_usage.
Qed.

Lemma add_report_plus (u : option Usage) (a b : Totals) :
  add_report u (plus a b) = plus a (add_report u b).
Proof.
  destruct u as [u|]; [|reflexivity].
  unfold add_report, accumulate, plus. cbn. f_equal; lia.
Qed.

Lemma plus_zero (a : Totals) : plus a (mkTotals 0 0 0) = a.
Proof. destruct a. unfold plus. cbn. f_equal; lia. Qed.

Lemma sumUsage_cons (u : option Usage) (us : list (option Usage)) :
  sumUsage (u :: us) = add_report u (sumUsage us).
Proof. reflexivity. Qed.

Lemma add_report_comm (u v : option Usage) (t : Totals) :
  add_report u (add_report v t) = add_report v (add_report u t).
Proof.
  destruct u as [u|], v as [v|]; try reflexivity.
  unfold add_report, accumulate. cbn. f_equal; lia.
Qed.

Lemma reports_sum (us : list (option Usage)) (t : Totals) :
  fold_left (fun t u => add_report u t) us t = plus t (sumUsage us).
Proof.
  revert t. induction us as [|u us IH]; intros t.
  - cbn. now rewrite plus_zero.
  - cbn [fold_left]. rewrite IH, sumUsage_cons, <- add_report_plus.
    destruct u as [u|]; [|reflexivity].
    unfold add_report, accumulate, plus. cbn. f_equal; lia.
Qed.

Lemma plus_zero_l (a : Totals) : plus (mkTotals 0 0 0) a = a.
Proof. destruct a. reflexivity. Qed.

Lemma sumUsage_app (us vs : list (option Usage)) :
  sumUsage (us ++ vs) = plus (sumUsage us) (sumUsage vs).
Proof.
  induction us as [|u us IH].
  - cbn [app]. now rewrite plus_zero_l.
  - cbn [app]. rewrite !sumUsage_cons, IH.
    destruct u as [u|]; [|reflexivity].
    unfold add_report, accumulate, plus. cbn. f_equal; lia.
Qed.

Lemma sumUsage_perm (us vs : list (option Usage)) :
  Permutation us vs -> sumUsage us = sumUsage vs.
Proof.
  induction 1 as [|u us vs _ IH|u v us|us vs ws _ IH1 _ IH2].
  - reflexivity.
  - rewrite !sumUsage_cons. now rewrite IH.
  - rewrite !sumUsage_cons. apply add_report_comm.
  - congruence.
Qed.

Lemma segments_usage (evs : list FinishEvent) (c : ChatState) :
  Switchable.switches (stream c) < MAX_RESPONSE_SEGMENTS ->
  Forall is_truncated (removelast evs) ->
  cumulativeUsage (snd (segments evs c)) =
  fold_left (fun t u => add_report u t) (map usage evs) (cumulativeUsage c).
Proof.
  revert c. induction evs as [|ev evs IH]; intros c Hlt Htr; [reflexivity|].
  cbn [Chat.segments map fold_left].
  destruct (onFinish_below_cap ev c Hlt) as (c' & Hret & _).
  pose proof (onFinish_stream ev c) as Hst.
  pose proof (onFinish_usage ev c) as Hus. rewrite Hret in *. fields.
  destruct evs as [|ev' evs].
  - destruct (is_length (finishReason ev)); cbn; exact Hus.
  - cbn [removelast] in Htr. inversion Htr as [|? ? Hev Hrest]; subst.
    unfold is_truncated in Hev. rewrite Hev. cbn [is_length].
    rewrite IH; [now rewrite Hus|now rewrite Hst|exact Hrest].
Qed.

Lemma auxiliary_requests (us : list (option Usage)) (c : ChatState) :
  requests (fold_left (fun c u => onFinishAuxiliary u c) us c) = requests c.
Proof.
  revert c. induction us as [|u us IH]; intros c; [reflexivity|].
  cbn [fold_left]. rewrite IH. now destruct u.
Qed.

Lemma optimiseContext_keeps (su se : list (option Usage)) (c : ChatState) :
  stream (optimiseContext su se c) = stream c /\
  requests (optimiseContext su se c) = requests c /\
  cumulativeUsage (optimiseContext su se c) =
    fold_left (fun t u => add_report u t) (su ++ se) (cumulativeUsage c).
Proof.
  unfold optimiseContext. rewrite fold_left_app. split; [|split]; fields.
  - rewrite auxiliary_stream. fields. now rewrite auxiliary_stream.
  - rewrite auxiliary_requests. fields. now rewrite auxiliary_requests.
  - rewrite auxiliary_usage. fields. now rewrite auxiliary_usage.
Qed.

(** What a request looks like when [chatAction] hands it to the
    segments. *)
Lemma chatAction_unfold (x : Exchange) :
  exists c,
    chatAction x = segments (finishes x) c /\
    stream c = Switchable.constructor /\
    List.length (requests c) = 1%nat /\
    cumulativeUsage c =
      sumUsage (if optimise x then summaryUsage x ++ selectUsage x else []).
Proof.
  unfold Chat.chatAction. eexists. split; [reflexivity|]. fields.
  destruct (optimise x).
  - destruct (optimiseContext_keeps (summaryUsage x) (selectUsage x)
                (mkChat Switchable.constructor (mkTotals 0 0 0) 1 (messages x) [] []))
      as (Hs & Hr & Hu).
    rewrite Hs, Hr, Hu. fields. rewrite reports_sum, plus_zero_l.
    repeat split.
  - repeat split.
Qed.

Lemma chatAction_below_cap (x : Exchange) :
  1 <= MAX_RESPONSE_SEGMENTS ->
  stream (snd (chatAction x)) = Switchable.constructor /\
  (forall message, fst (chatAction x) <> Failed message) /\
  (Forall is_truncated (finishes x) ->
   fst (chatAction x) = Streaming /\
   continuations (snd (chatAction x)) = List.length (finishes x)) /\
  (Forall is_truncated (removelast (finishes x)) ->
   cumulativeUsage (snd (chatAction x)) = sumUsage (reports x)).
Proof.
  intros Hmax. destruct (chatAction_unfold x) as (c & -> & Hs & Hr & Hu).
  assert (Hlt : Switchable.switches (stream c) < MAX_RESPONSE_SEGMENTS)
    by (rewrite Hs; cbn; lia).
  destruct (segments_below_cap (finishes x) c Hlt) as (Hst & Hf & Hall).
  split; [now rewrite Hst|]. split; [exact Hf|]. split.
  - intros Htr. destruct (Hall Htr) as [Hstr Hn]. split; [exact Hstr|].
    unfold continuations. rewrite Hn, Hr. reflexivity.
  - intros Htr. rewrite (segments_usage (finishes x) c Hlt Htr), reports_sum, Hu.
    unfold reports. now rewrite sumUsage_app.
Qed.

(** ** The stream is never switched *)

(** C9.  [chatAction] creates its [SwitchableStream] and never calls
    [switchSource] on it: whatever the segments do, the stream is as
    the constructor left it and [stream.switches] is 0; so when
    [MAX_RESPONSE_SEGMENTS] is at least 1 the segment guard never
    throws, and a request whose segments all end for length gets one
    continuation per segment, however many there are. *)
Theorem guard_never_throws (x : Exchange) :
  1 <= MAX_RESPONSE_SEGMENTS ->
  stream (snd (chatAction x)) = Switchable.constructor /\
  Switchable.switches (stream (snd (chatAction x))) = 0 /\
  (forall message, fst (chatAction x) <> Failed message) /\
  (Forall is_truncated (finishes x) ->
   fst (chatAction x) = Streaming /\
   continuations (snd (chatAction x)) = List.length (finishes x)).
Proof.
  intros Hmax. destruct (chatAction_below_cap x Hmax) as (Hs & Hf & Hall & _).
  split; [exact Hs|]. split; [now rewrite Hs|]. split; [exact Hf|exact Hall].
Qed.

(** ** Usage is additive *)

(** C6.  Every finish handler adds the usage it is given to
    [cumulativeUsage], once, whichever way it returns; adding a report
    of counts never lowers a total; so after the segments of a request
    (all but the last cut at the length limit) the totals are the
    element-wise sum of every report, the auxiliary calls' included,
    and that sum does not depend on the order of the reports. *)
Theorem usage_is_additive :
  (forall (ev : FinishEvent) (c : ChatState),
      cumulativeUsage (state_of (onFinish ev c)) =
      add_report (usage ev) (cumulativeUsage c)) /\
  (forall (u : option Usage) (c : ChatState),
      cumulativeUsage (onFinishAuxiliary u c) =
      add_report u (cumulativeUsage c)) /\
  (forall (u : Usage) (t : Totals),
      add_report (Some u) t =
      mkTotals (completion t + orElse (completionTokens u) 0)
               (prompt t + orElse (promptTokens u) 0)
               (total t + orElse (totalTokens u) 0)) /\
  (forall (u : Usage) (t : Totals),
      counts u -> totals_le t (add_report (Some u) t)) /\
  (forall x : Exchange,
      1 <= MAX_RESPONSE_SEGMENTS ->
      Forall is_truncated (removelast (finishes x)) ->
      cumulativeUsage (snd (chatAction x)) = sumUsage (reports x)) /\
  (forall us vs : list (option Usage),
      Permutation us vs -> sumUsage us = sumUsage vs).
Proof.
  split; [exact onFinish_usage|]. split; [exact addUsage_usage|].
  split; [reflexivity|]. split; [|split].
  - intros u t (Hc & Hp & Ht). unfold totals_le, add_report, accumulate. cbn. lia.
  - intros x Hmax Htr. now apply chatAction_below_cap.
  - exact sumUsage_perm.
Qed.

End WithImports.

(** A first segment of 400 units cut at the length limit, a second of
    100 that completes: the totals are the sums, the stream was never
    switched and nothing failed. *)
Lemma usage_is_additive_witness :
  cumulativeUsage (snd (chatAction 10 "continue" (fun _ => (""%string, ""%string))
                                   two_segments))
    = mkTotals 500 550 1050.
Proof.
  destruct (usage_is_additive 10 "continue" (fun _ => (""%string, ""%string)))
    as (_ & _ & _ & _ & Hsum & _).
  rewrite Hsum; [reflexivity|lia|repeat constructor].
Defined.

Lemma guard_never_throws_witness :
  1 <= 2 /\
  Switchable.switches
    (stream (snd (chatAction 2 "continue" (fun _ => (""%string, ""%string))
                             (never_done [] "part" None 5)))) = 0 /\
  continuations
    (snd (chatAction 2 "continue" (fun _ => (""%string, ""%string))
                     (never_done [] "part" None 5))) = 5%nat.
Proof.
  assert (H : 1 <= 2) by lia. split; [exact H|].
  destruct (guard_never_throws 2 "continue" (fun _ => (""%string, ""%string))
                               (never_done [] "part" None 5) H)
    as (_ & Hsw & _ & Hall).
  split; [exact Hsw|]. apply Hall. repeat constructor.
Defined.

(** ** The segment ceiling *)

(** C1 on the code, with [MAX_RESPONSE_SEGMENTS = 2]: a request whose
    segments keep ending for length is never failed; after [n]
    truncated segments [n] continuations have been requested and
    [stream.switches] is still 0, so the guard
    [stream.switches >= MAX_RESPONSE_SEGMENTS] has not fired. *)
Theorem segment_ceiling_not_enforced
        (CONTINUE_PROMPT : string)
        (extractPropertiesFromMessage : option Message -> string * string)
        (ms : list Message) (content : string) (u : option Usage) (n : nat) :
  let r := chatAction 2 CONTINUE_PROMPT extractPropertiesFromMessage
                      (never_done ms content u n) in
  fst r = Streaming /\
  continuations (snd r) = n /\
  Switchable.switches (stream (snd r)) = 0.
Proof.
  cbn zeta.
  destruct (chatAction_below_cap 2 CONTINUE_PROMPT extractPropertiesFromMessage
              (never_done ms content u n)) as (Hs & _ & Hall & _); [lia|].
  assert (Htr : Forall is_truncated (finishes (never_done ms content u n))).
  { cbn. clear. induction n; cbn; constructor; [reflexivity|assumption]. }
  destruct (Hall Htr) as [Hstr Hn].
  split; [exact Hstr|]. split; [|now rewrite Hs].
  rewrite Hn. cbn. apply repeat_length.
Qed.

End ChatFacts.

(** * More on the liveness monitor *)

Module StreamRecoveryInvariants.
Import Js StreamRecovery StreamRecoveryFacts.

Lemma pending_has_delay (h : Handle) (w : Runtime) :
  is_pending h w = true -> exists d, In (h, d) (timers w).
Proof.
  unfold is_pending. intros H. apply existsb_exists in H.
  destruct H as ([h' d] & Hin & Heq). cbn in Heq.
  apply Nat.eqb_eq in Heq. subst h'. now exists d.
Qed.

(** [_handleTimeout] up to its await, below the ceiling. *)
Lemma handleTimeout_start_below (now : Z) (v : Runtime) :
  owns_timers v ->
  _isActive (this v) = true ->
  _retryCount (this v) < retryCeiling (_options (this v)) ->
  _handleTimeout_start now v =
    if onTimeout (_options (this v))
    then mkRuntime (retried now (this v)) (timers v) (next_handle v)
                   (S (suspended v))
                   (events v ++ [Log info (attempt_line (retried now (this v)));
                                 Call CbTimeout])
    else mkRuntime (with_timeoutHandle (Some (next_handle v)) (retried now (this v)))
                   [(next_handle v, timeoutDuration (retried now (this v)))]
                   (S (next_handle v)) (suspended v)
                   (events v ++ [Log info (attempt_line (retried now (this v)))]
                      ++ backoff_note (retried now (this v))
                      ++ if_supplied (onRecovery (_options (this v))) CbRecovery).
Proof.
  intros Hv Hact Hlt.
  destruct (onTimeout (_options (this v))) eqn:Hcb.
  - unfold _handleTimeout_start, _handleTimeout_body.
    cbn [this set_this with_consecutiveFailures with_lastErrorTime emit
         _retryCount _options with_retryCount].
    replace (_retryCount (this v) >=? retryCeiling (_options (this v))) with false
      by (symmetry; rewrite Z.geb_leb; apply Z.leb_gt; lia).
    rewrite Hcb. unfold suspend, retried. cbn.
    destruct v as [m ts n k es]; destruct m; cbn. now rewrite <- app_assoc.
  - pose proof (handleTimeout_below_ceiling now v Hv Hact Hlt) as H.
    unfold _handleTimeout in H. unfold _handleTimeout_start.
    assert (Hsame : _handleTimeout_body suspend now v
                    = _handleTimeout_body _handleTimeout_resume now v).
    { unfold _handleTimeout_body.
      cbn [this set_this with_consecutiveFailures with_lastErrorTime emit
           _retryCount _options with_retryCount].
      destruct (_ >=? _); [reflexivity|]. now rewrite Hcb. }
    rewrite Hsame, H, Hcb. reflexivity.
Qed.

Lemma timeoutDuration_ext (m m' : StreamRecoveryManager) :
  _options m' = _options m -> _retryCount m' = _retryCount m ->
  timeoutDuration m' = timeoutDuration m.
Proof. unfold timeoutDuration. now intros -> ->. Qed.

Lemma sound_ext (w w' : Runtime) :
  this w' = this w -> timers w' = timers w -> next_handle w' = next_handle w ->
  calls CbMaxRetriesReached (events w') = calls CbMaxRetriesReached (events w) ->
  sound w -> sound w'.
Proof.
  unfold sound, owns_timers. intros -> -> -> ->. trivial.
Qed.

Lemma sound_idle (m : StreamRecoveryManager) (nh : Handle) (k : nat)
      (es : list Event) :
  0 <= _retryCount m <= Z.max 0 (retryCeiling (_options m)) ->
  0 <= _consecutiveFailures m ->
  (calls CbMaxRetriesReached es <= 1)%nat ->
  (_isActive m = true -> calls CbMaxRetriesReached es = 0%nat) ->
  sound (mkRuntime m [] nh k es).
Proof.
  intros Hr Hc Hone Hact. unfold sound. cbn [this timers next_handle events].
  split; [now apply nothing_pending_owns|]. split; [cbn; lia|].
  split; [intros t []|]. auto.
Qed.

Lemma sound_armed (m : StreamRecoveryManager) (h nh : Handle) (k : nat)
      (es : list Event) :
  _timeoutHandle m = Some h -> _isActive m = true -> (h < nh)%nat ->
  0 <= _retryCount m <= Z.max 0 (retryCeiling (_options m)) ->
  0 <= _consecutiveFailures m ->
  calls CbMaxRetriesReached es = 0%nat ->
  sound (mkRuntime m [(h, timeoutDuration m)] nh k es).
Proof.
  intros Hh Ha Hlt Hr Hc Hz. unfold sound, owns_timers.
  cbn [this timers next_handle events].
  split; [split|].
  - intros t [<-|[]]. exact Hh.
  - rewrite Ha. discriminate.
  - split; [cbn; lia|]. split.
    + intros t [<-|[]]. cbn. auto.
    + rewrite Hz. repeat split; try apply Hr; try assumption; lia.
Qed.

(** [_resetTimeout] restores soundness whatever the counters were set
    to before it is called. *)
Lemma resetTimeout_sound (u : Runtime) :
  owns_timers u ->
  0 <= _retryCount (this u) <= Z.max 0 (retryCeiling (_options (this u))) ->
  0 <= _consecutiveFailures (this u) ->
  (calls CbMaxRetriesReached (events u) <= 1)%nat ->
  (_isActive (this u) = true -> calls CbMaxRetriesReached (events u) = 0%nat) ->
  sound (_resetTimeout u).
Proof.
  intros Hu Hr Hc Hone Hact. destruct (_isActive (this u)) eqn:Ha.
  - rewrite (resetTimeout_active u Hu Ha).
    rewrite <- (timeoutDuration_ext (this u)
                  (with_timeoutHandle (Some (next_handle u)) (this u)))
      by (destruct (this u); reflexivity).
    apply sound_armed; try (destruct (this u); cbn in *; assumption || lia).
    + destruct (this u); reflexivity.
    + rewrite calls_app, calls_backoff_note, Hact by reflexivity. reflexivity.
  - rewrite (resetTimeout_stopped u Hu Ha).
    destruct Hu as [Hown Hnone]. pose proof (Hnone Ha) as Hts.
    destruct u as [m ts nh k es]. cbn in *. subst ts.
    apply sound_idle; try assumption. intros H. congruence.
Qed.

Lemma constructor_sound (o : Supplied) (t0 : Z) : sound (constructor o t0).
Proof.
  unfold constructor. apply sound_idle; cbn; try lia; try reflexivity.
Qed.

Lemma exec_sound (op : Op) (w : Runtime) : sound w -> sound (exec op w).
Proof.
  intros Hs. pose proof Hs as (Hw & Hlen & Hd & Hr & Hc & Hone & Hact).
  destruct op; cbn [exec].
  - now apply resetTimeout_sound.
  - unfold updateActivity.
    apply resetTimeout_sound; [revert Hw; same_timers|..];
      destruct w as [m ts nh k es]; destruct m; cbn in *; assumption || lia.
  - unfold reportError. unfold sound, owns_timers in *.
    destruct w as [m ts nh k es]; destruct m; cbn in *.
    repeat split; try apply Hw; try apply Hr; try assumption; try lia;
      apply (Hd t); assumption.
  - rewrite (stop_spec w Hw). apply sound_idle;
      destruct w as [m ts nh k es]; destruct m; cbn in *;
      assumption || discriminate || lia.
  - unfold reset.
    apply resetTimeout_sound; [revert Hw; same_timers|..];
      destruct w as [m ts nh k es]; destruct m; cbn in *; assumption || lia.
  - destruct (is_pending h w) eqn:Hp; [|unfold fire_with; now rewrite Hp].
    destruct (pending_has_delay h w Hp) as [d Hin].
    pose proof (pending_is_active w _ Hw Hin) as Ha.
    rewrite (fire_with_pending _ h d now w Hw Hin).
    set (v := mkRuntime (this w) [] (next_handle w) (suspended w)
                        (events w ++ [Log warn "Stream timeout detected"])).
    assert (Hv : owns_timers v) by now apply nothing_pending_owns.
    assert (Hcv : calls CbMaxRetriesReached (events v) = 0%nat).
    { subst v. cbn [events]. rewrite calls_app, calls_log, calls_nil, Hact; auto. }
    destruct (Z_lt_ge_dec (_retryCount (this w)) (retryCeiling (_options (this w))))
      as [Hlt|Hge].
    + rewrite handleTimeout_start_below; [|exact Hv|exact Ha|exact Hlt].
      subst v. cbn [this timers next_handle suspended events].
      assert (Hr' : 0 <= _retryCount (retried now (this w))
                    <= Z.max 0 (retryCeiling (_options (retried now (this w))))).
      { destruct (this w); cbn in *. lia. }
      assert (Hc' : 0 <= _consecutiveFailures (retried now (this w))).
      { destruct (this w); cbn in *. lia. }
      destruct (onTimeout (_options (this w))).
      * apply sound_idle; try assumption.
        -- rewrite !calls_app, !calls_log. cbn [calls filter is_call List.length].
           rewrite Hact by exact Ha. cbn. lia.
        -- intros _. rewrite !calls_app, !calls_log.
           cbn [calls filter is_call List.length]. rewrite Hact by exact Ha.
           reflexivity.
      * rewrite <- (timeoutDuration_ext (retried now (this w))
                      (with_timeoutHandle (Some (next_handle w))
                                          (retried now (this w))))
          by (destruct (this w); reflexivity).
        apply sound_armed;
          try (destruct (this w); cbn in *; assumption || reflexivity || lia).
        rewrite !calls_app, !calls_log, calls_backoff_note, calls_if_supplied,
          calls_nil, Hact by exact Ha.
        cbn [is_call]. now rewrite andb_false_r.
    + unfold _handleTimeout_start.
      rewrite handleTimeout_at_ceiling; [|exact Hv|subst v; cbn; lia].
      subst v. cbn [this timers next_handle suspended events].
      apply sound_idle;
        try (destruct (this w); cbn in *; assumption || discriminate || lia).
      rewrite !calls_app, !calls_log, calls_if_supplied, calls_nil,
        Hact by exact Ha.
      destruct (onMaxRetriesReached _); cbn; lia.
  - unfold resume. destruct (suspended w) as [|n] eqn:Hsus; [exact Hs|].
    unfold _handleTimeout_resume. rewrite invoke_events.
    set (u := mkRuntime (this w) (timers w) (next_handle w) n (events w)).
    assert (Hsu : sound (_resetTimeout u)).
    { apply resetTimeout_sound; subst u; cbn [this events]; assumption. }
    revert Hsu. apply sound_ext; cbn [this timers next_handle events]; auto.
    rewrite calls_app, calls_if_supplied. cbn [is_call].
    rewrite andb_false_r. lia.
Qed.

Lemma reachable_sound (w : Runtime) : reachable w -> sound w.
Proof.
  intros (o & t0 & ops & ->). generalize (constructor_sound o t0).
  generalize (constructor o t0). induction ops as [|op ops IH]; intros w Hw.
  - exact Hw.
  - apply (IH (exec op w)), exec_sound, Hw.
Qed.

Lemma fired_once_reachable : reachable (fire 1%nat 60000 fresh).
Proof.
  exists (mkSupplied absent absent true false true absent), 0,
    [StartMonitoring; Fire 1%nat 60000; Resume].
  vm_compute. reflexivity.
Defined.

(** ** At most one timer *)

(** X1.  Whatever has been done to a manager, at most one timer is
    pending; if one is, the manager is active, [_timeoutHandle] names
    it, and its delay is the one the present retry count prescribes. *)
Theorem one_pending_timer (w : Runtime) :
  reachable w ->
  timers w = [] \/
  exists h : Handle,
    timers w = [(h, timeoutDuration (this w))] /\
    _timeoutHandle (this w) = Some h /\
    _isActive (this w) = true /\
    (h < next_handle w)%nat.
Proof.
  intros Hr. destruct (reachable_sound w Hr) as (Hw & Hlen & Hd & _).
  destruct (timers w) as [|[h d] ts] eqn:Hts; [now left|right].
  destruct ts; [|cbn in Hlen; lia].
  destruct (Hd (h, d) (or_introl eq_refl)) as [Hdelay Hfresh]. cbn in *.
  exists h. subst d. repeat split; try assumption.
  - destruct Hw as [Hown _]. apply (Hown (h, timeoutDuration (this w))).
    rewrite Hts. now left.
  - apply (pending_is_active w (h, timeoutDuration (this w)) Hw).
    rewrite Hts. now left.
Qed.

Lemma one_pending_timer_witness :
  reachable (fire 1%nat 60000 fresh) /\
  timers (fire 1%nat 60000 fresh) = [(2%nat, 120000)].
Proof.
  split; [exact fired_once_reachable|].
  destruct (one_pending_timer _ fired_once_reachable) as [Hnone|(h & Ht & _)].
  - vm_compute in Hnone. discriminate.
  - reflexivity.
Defined.

(** ** Counters in range *)

(** X2.  The retry count of a manager is never negative and never
    above the ceiling [_handleTimeout] compares it with (nor above 0
    when that ceiling is negative); the failure count is never
    negative. *)
Theorem retry_count_bounded (w : Runtime) :
  reachable w ->
  0 <= _retryCount (this w) <= Z.max 0 (retryCeiling (_options (this w))) /\
  0 <= _consecutiveFailures (this w).
Proof.
  intros Hr. destruct (reachable_sound w Hr) as (_ & _ & _ & Hrc & Hcf & _).
  split; assumption.
Qed.

Lemma retry_count_bounded_witness :
  reachable (fire_each [1; 2; 3; 4; 5; 6] fresh) /\
  _retryCount (this (fire_each [1; 2; 3; 4; 5; 6] fresh)) <= 5.
Proof.
  assert (Hr : reachable (fire_each [1; 2; 3; 4; 5; 6] fresh)).
  { exists (mkSupplied absent absent true false true absent), 0,
      [StartMonitoring; Fire 1%nat 1; Resume; Fire 2%nat 2; Resume;
       Fire 3%nat 3; Resume; Fire 4%nat 4; Resume; Fire 5%nat 5; Resume;
       Fire 6%nat 6].
    vm_compute. reflexivity. }
  split; [exact Hr|].
  destruct (retry_count_bounded _ Hr) as [[_ Hle] _]. exact Hle.
Defined.

(** ** The health score is a score *)

(** X3.  For a manager and at any time, the health score [getStatus]
    reports lies between 0 and 100, and [isHealthy] can only hold
    with at most two consecutive failures and at most three
    retries. *)
Theorem health_in_range (w : Runtime) (now : Z) :
  reachable w ->
  0 <= st_healthScore (getStatus now (this w)) <= 100 /\
  (isHealthy now (this w) = true ->
   _consecutiveFailures (this w) <= 2 /\ _retryCount (this w) <= 3 /\
   _isActive (this w) = true).
Proof.
  intros Hr. destruct (reachable_sound w Hr) as (_ & _ & _ & Hrc & Hcf & _).
  unfold getStatus, isHealthy, _calculateHealthScore. cbn [st_healthScore].
  destruct (now - _lastActivity (this w) >? 30000); split; try lia;
    rewrite andb_true_iff, Z.gtb_ltb, Z.ltb_lt; intros [Hs Ha];
    repeat split; try exact Ha; lia.
Qed.

Lemma health_in_range_witness :
  reachable fresh /\
  0 <= st_healthScore (getStatus 90000 (this fresh)) <= 100.
Proof.
  split; [exact fresh_reachable|].
  exact (proj1 (health_in_range fresh 90000 fresh_reachable)).
Defined.

(** ** The max-retries callback *)

(** X4.  In the whole life of a manager the max-retries callback is
    invoked at most once, and once it has been, the manager is
    inactive and no timer is pending. *)
Theorem max_retries_reported_once (w : Runtime) :
  reachable w ->
  (calls CbMaxRetriesReached (events w) <= 1)%nat /\
  (calls CbMaxRetriesReached (events w) = 1%nat ->
   _isActive (this w) = false /\ timers w = []).
Proof.
  intros Hr.
  destruct (reachable_sound w Hr) as (Hw & _ & _ & _ & _ & Hone & Hact).
  split; [exact Hone|]. intros Hcalled.
  destruct (_isActive (this w)) eqn:Ha.
  - rewrite Hact in Hcalled by reflexivity. discriminate.
  - split; [reflexivity|]. destruct Hw as [_ Hnone]. now apply Hnone.
Qed.

Lemma max_retries_reported_once_witness :
  reachable (run [Reset 7; StartMonitoring] (fire_each [1; 2; 3; 4; 5; 6] fresh)) /\
  calls CbMaxRetriesReached
    (events (run [Reset 7; StartMonitoring]
                 (fire_each [1; 2; 3; 4; 5; 6] fresh))) = 1%nat /\
  _isActive (this (run [Reset 7; StartMonitoring]
                       (fire_each [1; 2; 3; 4; 5; 6] fresh))) = false.
Proof.
  set (w := run [Reset 7; StartMonitoring] (fire_each [1; 2; 3; 4; 5; 6] fresh)).
  assert (Hr : reachable w).
  { exists (mkSupplied absent absent true false true absent), 0,
      [StartMonitoring; Fire 1%nat 1; Resume; Fire 2%nat 2; Resume;
       Fire 3%nat 3; Resume; Fire 4%nat 4; Resume; Fire 5%nat 5; Resume;
       Fire 6%nat 6; Reset 7; StartMonitoring].
    vm_compute. reflexivity. }
  assert (Hc : calls CbMaxRetriesReached (events w) = 1%nat) by reflexivity.
  split; [exact Hr|]. split; [exact Hc|].
  destruct (max_retries_reported_once w Hr) as [_ Hoff].
  exact (proj1 (Hoff Hc)).
Defined.

(** ** Activity *)

(** X5.  [updateActivity] records the time and clears the failure
    streak but leaves the retry count alone, so on an active manager
    the one timer it arms waits for the backed-off delay of that
    count, not for the base timeout; on a stopped manager it arms
    nothing. *)
Theorem activity_keeps_backoff (w : Runtime) (now : Z) :
  reachable w ->
  let w' := updateActivity now w in
  _lastActivity (this w') = now /\
  _consecutiveFailures (this w') = 0 /\
  _retryCount (this w') = _retryCount (this w) /\
  _isActive (this w') = _isActive (this w) /\
  (_isActive (this w) = true ->
   timers w' = [(next_handle w, timeoutDuration (this w))]) /\
  (_isActive (this w) = false -> timers w' = []).
Proof.
  intros Hr w'. pose proof (reachable_owns w Hr) as Hw. subst w'.
  unfold updateActivity.
  set (u := set_this (with_consecutiveFailures 0)
                     (set_this (with_lastActivity now) w)).
  assert (Hu : owns_timers u) by (revert Hw; same_timers).
  destruct (_isActive (this w)) eqn:Ha.
  - rewrite (resetTimeout_active u Hu Ha). subst u.
    cbn [this timers set_this next_handle]. fields.
    repeat match goal with |- _ /\ _ => split end;
      try reflexivity; try discriminate; try exact Ha.
  - rewrite (resetTimeout_stopped u Hu Ha). subst u.
    cbn [this timers set_this next_handle]. fields.
    repeat match goal with |- _ /\ _ => split end;
      try reflexivity; try discriminate; try exact Ha.
    intros _. destruct Hw as [_ Hnone]. now apply Hnone.
Qed.

(** After one retry of a default manager, activity re-arms a
    two-minute timer. *)
Lemma activity_keeps_backoff_witness :
  reachable (fire 1%nat 60000 fresh) /\
  timers (updateActivity 61000 (fire 1%nat 60000 fresh)) = [(3%nat, 120000)].
Proof.
  split; [exact fired_once_reachable|].
  destruct (activity_keeps_backoff _ 61000 fired_once_reachable)
    as (_ & _ & _ & _ & Harm & _).
  rewrite Harm; reflexivity.
Defined.

(** ** Retries and callbacks *)

Lemma resetTimeout_keeps (u : Runtime) :
  owns_timers u ->
  _retryCount (this (_resetTimeout u)) = _retryCount (this u) /\
  _options (this (_resetTimeout u)) = _options (this u) /\
  forall cb, calls cb (events (_resetTimeout u)) = calls cb (events u).
Proof.
  intros Hu. destruct (_isActive (this u)) eqn:Ha.
  - rewrite (resetTimeout_active u Hu Ha). fields.
    repeat split. intros cb. rewrite calls_app, calls_backoff_note. lia.
  - rewrite (resetTimeout_stopped u Hu Ha). auto.
Qed.

Lemma exec_retries_called_back (op : Op) (w : Runtime) :
  sound w ->
  is_reset op = false ->
  retries_called_back w ->
  retries_called_back (exec op w) /\
  _options (this (exec op w)) = _options (this w).
Proof.
  intros Hs Hop HP. pose proof Hs as (Hw & _ & _ & Hr & _).
  unfold retries_called_back in *.
  destruct op; try discriminate; cbn [exec].
  - unfold startMonitoring.
    destruct (resetTimeout_keeps w Hw) as (Hrc & Ho & Hc).
    rewrite Hrc, Ho, Hc. auto.
  - unfold updateActivity.
    match goal with |- context [_resetTimeout ?u0] => set (u := u0) end.
    destruct (resetTimeout_keeps u) as (Hrc & Ho & Hc);
      [revert Hw; same_timers|].
    rewrite Hrc, Ho, Hc. subst u. cbn [this events set_this]. fields. auto.
  - unfold reportError. cbn [this events set_this]. fields. auto.
  - rewrite (stop_spec w Hw). fields. auto.
  - destruct (is_pending h w) eqn:Hp; [|unfold fire_with; rewrite Hp; auto].
    destruct (pending_has_delay h w Hp) as [d Hin].
    pose proof (pending_is_active w _ Hw Hin) as Ha.
    rewrite (fire_with_pending _ h d now w Hw Hin).
    set (v := mkRuntime (this w) [] (next_handle w) (suspended w)
                        (events w ++ [Log warn "Stream timeout detected"])).
    assert (Hv : owns_timers v) by now apply nothing_pending_owns.
    destruct (Z_lt_ge_dec (_retryCount (this w)) (retryCeiling (_options (this w))))
      as [Hlt|Hge].
    + rewrite handleTimeout_start_below; [|exact Hv|exact Ha|exact Hlt].
      subst v. cbn [this timers next_handle suspended events].
      destruct (onTimeout (_options (this w))) eqn:Hcb; fields.
      * rewrite Hcb. split; [|reflexivity].
        rewrite !calls_app, HP, calls_log.
        cbn [calls filter is_call List.length].
        rewrite Z2Nat.inj_add by lia. change (Z.to_nat 1) with 1%nat. lia.
      * rewrite Hcb. split; [|reflexivity].
        rewrite !calls_app, HP, !calls_log, calls_backoff_note,
          calls_if_supplied, calls_nil.
        cbn [is_call]. rewrite andb_false_r. lia.
    + unfold _handleTimeout_start.
      rewrite handleTimeout_at_ceiling; [|exact Hv|subst v; cbn; lia].
      subst v. cbn [this timers next_handle suspended events]. fields.
      split; [|reflexivity].
      rewrite !calls_app, HP, !calls_log, calls_if_supplied, calls_nil.
      cbn [is_call]. rewrite andb_false_r. lia.
  - unfold resume. destruct (suspended w) as [|n]; [auto|].
    unfold _handleTimeout_resume. rewrite invoke_events.
    set (u := mkRuntime (this w) (timers w) (next_handle w) n (events w)).
    destruct (resetTimeout_keeps u) as (Hrc & Ho & Hc);
      [revert Hw; same_timers|].
    cbn [this events]. rewrite Hrc, Ho, calls_app, Hc, calls_if_supplied.
    subst u. cbn [this events is_call]. rewrite andb_false_r.
    split; [|reflexivity]. rewrite HP. lia.
Qed.

(** X6.  As long as [reset] is not called, the timeout callback has
    been invoked exactly once per counted retry (never, when none is
    supplied), hence at most as often as the retry ceiling allows:
    activity in between does not give retries back. *)
Theorem timeouts_are_rationed (o : Supplied) (t0 : Z) (ops : list Op) :
  forallb (fun op => negb (is_reset op)) ops = true ->
  let w := run ops (constructor o t0) in
  calls CbTimeout (events w) =
    (if s_onTimeout o then Z.to_nat (_retryCount (this w)) else 0%nat) /\
  Z.of_nat (calls CbTimeout (events w))
    <= Z.max 0 (retryCeiling (_options (this (constructor o t0)))).
Proof.
  intros Hops w.
  assert (H : sound w /\ retries_called_back w /\
              _options (this w) = _options (this (constructor o t0))).
  { subst w. revert Hops.
    assert (H0 : sound (constructor o t0) /\
                 retries_called_back (constructor o t0) /\
                 _options (this (constructor o t0))
                 = _options (this (constructor o t0))).
    { split; [apply constructor_sound|]. split; [|reflexivity].
      unfold retries_called_back. cbn. now destruct (s_onTimeout o). }
    revert H0. generalize (constructor o t0) at 1 2 3 5 6 7.
    induction ops as [|op ops IH]; intros w0 H0 Hops; [exact H0|].
    cbn [forallb] in Hops. apply andb_true_iff in Hops as [Hop Hops].
    apply negb_true_iff in Hop.
    destruct H0 as (Hs0 & HP0 & Ho0).
    destruct (exec_retries_called_back op w0 Hs0 Hop HP0) as [HP1 Ho1].
    change (run (op :: ops) w0) with (run ops (exec op w0)).
    apply IH; [|exact Hops].
    split; [now apply exec_sound|]. split; [exact HP1|]. congruence. }
  destruct H as ((_ & _ & _ & Hr & _) & HP & Ho).
  unfold retries_called_back in HP. rewrite Ho in HP, Hr.
  change (onTimeout (_options (this (constructor o t0)))) with (s_onTimeout o) in HP.
  split; [exact HP|].
  rewrite HP. destruct (s_onTimeout o).
  - rewrite Z2Nat.id by apply Hr. apply Hr.
  - apply Z.le_max_l.
Qed.

(** Three retries with activity in between, on the monitor of
    [chatAction]: three callbacks. *)
Lemma timeouts_are_rationed_witness :
  calls CbTimeout
    (events (run [StartMonitoring; Fire 1%nat 1; Resume; UpdateActivity 2;
                  Fire 3%nat 3; Resume; UpdateActivity 4; Fire 5%nat 5; Resume]
                 (constructor (mkSupplied (given 5) (given 60000) true false
                                          true (given true)) 0))) = 3%nat.
Proof.
  destruct (timeouts_are_rationed
              (mkSupplied (given 5) (given 60000) true false true (given true)) 0
              [StartMonitoring; Fire 1%nat 1; Resume; UpdateActivity 2;
               Fire 3%nat 3; Resume; UpdateActivity 4; Fire 5%nat 5; Resume]
              eq_refl) as [Hcalls _].
  rewrite Hcalls. reflexivity.
Defined.

(** ** Giving up *)

(** X7.  Whatever the options, a manager whose stream stays silent
    from the start is still active after as many consecutive timeouts
    as the retry ceiling, having counted them all, and is stopped by
    the next one. *)
Theorem silence_exhausts_retries (o : Supplied) (t0 : Z) (nows : list Z) (last : Z) :
  let w0 := startMonitoring (constructor o t0) in
  Z.of_nat (List.length nows) = retryCeiling (_options (this w0)) ->
  _isActive (this (fire_each nows w0)) = true /\
  _retryCount (this (fire_each nows w0)) = retryCeiling (_options (this w0)) /\
  _isActive (this (fire_each (nows ++ [last]) w0)) = false /\
  timers (fire_each (nows ++ [last]) w0) = [].
Proof.
  intros w0 Hlen.
  assert (Hw0 : owns_timers w0) by apply resetTimeout_owns, constructor_owns.
  assert (Hshape : timers w0 <> [] /\ _retryCount (this w0) = 0).
  { subst w0. unfold startMonitoring.
    rewrite resetTimeout_active by (apply constructor_owns || reflexivity).
    split; [discriminate|reflexivity]. }
  destruct Hshape as [Hne Hr0].
  destruct (fire_each_below nows w0 Hw0 Hne) as (Hw1 & Hne1 & Hr1 & Ho1 & _);
    [rewrite Hr0; lia|].
  split; [now apply armed_is_active|]. split; [rewrite Hr1, Hr0; lia|].
  unfold fire_each in *. rewrite fold_left_app. cbn [fold_left].
  destruct (fire_next_at_ceiling last _ Hw1 Hne1) as (Hoff & Hnone & _);
    [rewrite Ho1, Hr1, Hr0; lia|].
  split; assumption.
Qed.

(** With [maxRetries: 2] the third silence is the last. *)
Lemma silence_exhausts_retries_witness :
  let o := mkSupplied (given 2) absent true false true absent in
  _isActive (this (fire_each [1; 2] (startMonitoring (constructor o 0)))) = true /\
  _isActive (this (fire_each ([1; 2] ++ [3]) (startMonitoring (constructor o 0))))
    = false.
Proof.
  cbn zeta.
  destruct (silence_exhausts_retries
              (mkSupplied (given 2) absent true false true absent) 0 [1; 2] 3
              eq_refl) as (Ha & _ & Hoff & _).
  split; [exact Ha|exact Hoff].
Defined.

(** ** The monitoring task of the chat route *)

Lemma run_app (ops ops' : list Op) (w : Runtime) :
  run (ops ++ ops') w = run ops' (run ops w).
Proof. unfold run. apply fold_left_app. Qed.

Lemma quiet_ops (ops : list Op) (w : Runtime) :
  owns_timers w ->
  Forall (fun op => match op with
                    | UpdateActivity _ | ReportError _ | Stop => True
                    | _ => False
                    end) ops ->
  owns_timers (run ops w) /\
  forall cb, calls cb (events (run ops w)) = calls cb (events w).
Proof.
  intros Hw Hops. revert w Hw.
  induction Hops as [|op ops Hop _ IH]; intros w Hw; [now split|].
  change (run (op :: ops) w) with (run ops (exec op w)).
  destruct (IH (exec op w) (exec_owns op w Hw)) as [Ho Hc].
  split; [exact Ho|]. intros cb. rewrite Hc.
  destruct op; try contradiction; cbn [exec].
  - unfold updateActivity.
    match goal with |- context [_resetTimeout ?u0] => set (u := u0) end.
    destruct (resetTimeout_keeps u) as (_ & _ & Hk); [revert Hw; same_timers|].
    now rewrite Hk.
  - reflexivity.
  - now rewrite (stop_spec w Hw).
Qed.

Lemma monitorStream_quiet (parts : list (Z * bool)) (thrown : option Z) :
  Forall (fun op => match op with
                    | UpdateActivity _ | ReportError _ | Stop => True
                    | _ => False
                    end) (monitorStream parts thrown).
Proof.
  unfold monitorStream. apply Forall_app. split; [|apply Forall_app; split].
  - induction parts as [|[t e] parts IH]; [constructor|].
    cbn [flat_map fst snd]. constructor; [exact I|].
    destruct e; [constructor; [exact I|]|]; exact IH.
  - destruct thrown; repeat constructor.
  - repeat constructor.
Qed.

(** X8.  The task with which [chatAction] watches the first result's
    stream calls back nothing itself and, however the stream ends,
    leaves the manager stopped with no timer pending; whatever is done
    to the manager afterwards, it stays stopped and neither the
    timeout nor the max-retries callback is invoked any more. *)
Theorem monitoring_ends_stopped (w : Runtime) (parts : list (Z * bool))
        (thrown : option Z) (later : list Op) :
  reachable w ->
  let w1 := run (monitorStream parts thrown) w in
  (forall cb, calls cb (events w1) = calls cb (events w)) /\
  _isActive (this w1) = false /\
  timers w1 = [] /\
  _isActive (this (run later w1)) = false /\
  timers (run later w1) = [] /\
  calls CbTimeout (events (run later w1)) = calls CbTimeout (events w) /\
  calls CbMaxRetriesReached (events (run later w1)) =
    calls CbMaxRetriesReached (events w).
Proof.
  intros Hr w1. pose proof (reachable_owns w Hr) as Hw.
  destruct (quiet_ops (monitorStream parts thrown) w Hw
                      (monitorStream_quiet parts thrown)) as [Ho Hc].
  fold w1 in Ho, Hc.
  assert (Hoff : _isActive (this w1) = false).
  { subst w1. unfold monitorStream. rewrite app_assoc, run_app.
    apply stop_isActive. }
  destruct (run_stopped later w1 Ho Hoff) as (Hoff' & Hnone' & Ht & Hm).
  split; [exact Hc|]. split; [exact Hoff|].
  split; [destruct Ho as [_ Hnone]; now apply Hnone|].
  split; [exact Hoff'|]. split; [exact Hnone'|].
  rewrite Ht, Hm, !Hc. split; reflexivity.
Qed.

(** Two parts, the second an error part, then the old timer. *)
Lemma monitoring_ends_stopped_witness :
  reachable fresh /\
  timers (run [Fire 1%nat 60000; StartMonitoring]
              (run (monitorStream [(10, false); (20, true)] None) fresh)) = [].
Proof.
  split; [exact fresh_reachable|].
  destruct (monitoring_ends_stopped fresh [(10, false); (20, true)] None
              [Fire 1%nat 60000; StartMonitoring] fresh_reachable)
    as (_ & _ & _ & _ & Hnone & _).
  exact Hnone.
Defined.

End StreamRecoveryInvariants.

(** * More on the segment switcher *)

Module SwitchableInvariants.
Import Js Switchable SwitchableFacts.

(** ** What holds whatever happens *)

Lemma in_flight_range (w : Running) : 0 <= in_flight w <= 2.
Proof. unfold in_flight. destruct (inbox w), (waiting w); lia. Qed.

Lemma steady_refl (s : SwitchableStream) : steady s s.
Proof. unfold steady. repeat split; lia. Qed.

Lemma steady_core (a b : SwitchableStream) : core b = core a -> steady a b.
Proof.
  intros H. apply core_fields in H as (H1 & H2 & H3 & H4 & H5 & H6).
  unfold steady. rewrite H1, H2, H3, H4, H5, H6. repeat split; lia.
Qed.

Lemma steady_trans (a b c : SwitchableStream) :
  steady a b -> steady b c -> steady a c.
Proof.
  unfold steady. intros (A1 & A2 & A3 & A4 & A5 & A6) (B1 & B2 & B3 & B4 & B5 & B6).
  repeat split; try congruence; lia.
Qed.

(** A step that changes none of the fields the invariant speaks of,
    and puts nothing more under way unless the switcher is active. *)
Lemma sound_steady (w w' : Running) :
  sound w ->
  steady (this w) (this w') ->
  in_flight w' <= in_flight w \/ _isActive (this w) = true ->
  sound w'.
Proof.
  intros (Hm & He & Hk & Hs & Hon & Hc & Hb) (S1 & S2 & S3 & S4 & S5 & S6) Hfl.
  pose proof (in_flight_range w') as Hr.
  unfold sound, open_for_sources. rewrite S1, S2, S3, S4, S5.
  split; [exact Hm|]. split; [exact He|]. split.
  { destruct Hfl as [Hle|Ha]; [lia|]. destruct (Hon Ha) as [Hlt _]. lia. }
  split; [lia|]. split; [exact Hon|]. split; [exact Hc|exact Hb].
Qed.

Lemma controller_error_state (n : Z) (f : Fault) (o : Outward) :
  out_state (controller_error n f o) = Broken n f \/
  controller_error n f o = o /\ out_state o <> Writable.
Proof.
  unfold controller_error. destruct (out_state o) eqn:Ho.
  - now left.
  - destruct (queue o); [right|now left]. split; [reflexivity|congruence].
  - right. split; [reflexivity|congruence].
Qed.

(** A fault is handled: it was one of the things under way, or the
    switcher was active with at most one thing left under way. *)
Lemma sound_handleError (f : Fault) (x : SwitchableStream) (w w' : Running) :
  sound w ->
  steady (this w) x ->
  core (this w') = core (_handleError f x) ->
  in_flight w' + 1 <= in_flight w \/
  (_isActive (this w) = true /\ in_flight w' <= 1) ->
  sound w'.
Proof.
  intros (Hm & He & Hk & Hs & Hon & Hc & Hb) (S1 & S2 & S3 & S4 & S5 & S6) Hw Hfl.
  pose proof (in_flight_range w') as Hr.
  destruct (handleError_effect f x) as (E1 & E2 & E3 & _ & _ & E6 & E7 & E8).
  apply core_fields in Hw as (W1 & W2 & W3 & W4 & W5 & W6).
  rewrite <- W5 in E1. rewrite <- W4 in E2. rewrite <- W1 in E3.
  rewrite <- W3 in E6. rewrite <- W2 in E7. rewrite <- W6 in E8.
  rewrite S1, S2, S3, S4 in *.
  assert (Hec : _errorCount (this w) + 1 + in_flight w' <= 11).
  { destruct Hfl as [Hle|[Ha Hle]]; [lia|]. destruct (Hon Ha) as [Hlt _]. lia. }
  unfold sound, open_for_sources. rewrite E1, E2, E3, E6, E7, Hm.
  rewrite Hm in E8.
  split; [reflexivity|]. split; [lia|]. split; [exact Hec|]. split; [lia|].
  destruct (_errorCount (this w) + 1 >=? 10) eqn:Hge.
  - rewrite Z.geb_leb in Hge. apply Z.leb_le in Hge.
    split; [discriminate|].
    destruct (_controller (this w)) eqn:Hctl; cbn [andb] in E8.
    + split; [discriminate|]. intros n g Hbr. split; [reflexivity|].
      destruct (has_message f) eqn:Hmsg.
      * rewrite E8 in Hbr.
        destruct (controller_error_state (_errorCount (this w) + 1) f (readable x))
          as [Hst|[Hsame _]].
        -- rewrite Hst in Hbr. injection Hbr as <- <-. split; [lia|exact Hmsg].
        -- rewrite Hsame, S5 in Hbr. destruct (Hb n g Hbr) as (_ & Hn & Hg).
           split; [lia|exact Hg].
      * rewrite E8, S5 in Hbr. destruct (Hb n g Hbr) as (_ & Hn & Hg).
        split; [lia|exact Hg].
    + rewrite E8, S5. split; [intros _; now apply Hc|].
      intros n g Hbr. destruct (Hb n g Hbr) as (_ & Hn & Hg).
      split; [reflexivity|]. split; [lia|exact Hg].
  - rewrite Z.geb_leb in Hge. apply Z.leb_gt in Hge. cbn [andb] in E8.
    rewrite E8, S5. split.
    { intros Ha. split; [lia|]. now apply Hon. }
    split; [exact Hc|]. intros n g Hbr.
    destruct (Hb n g Hbr) as (Ha & Hn & Hg).
    split; [exact Ha|]. split; [lia|exact Hg].
Qed.

Lemma in_flight_at (x : SwitchableStream) (fl : Flight) (wt : option Waiting) :
  in_flight (mkRunning x fl wt) =
  (match fl with Some _ => 1 | None => 0 end)
  + (match wt with Some _ => 1 | None => 0 end).
Proof. reflexivity. Qed.

Lemma steady_active (a b : SwitchableStream) :
  steady a b -> _isActive b = _isActive a.
Proof. now intros (_ & H & _). Qed.

(** The head of the loop: the pump goes on waiting only on an active
    switcher. *)
Lemma loop_head_sound (x : SwitchableStream) (wt : option Waiting) (w : Running) :
  sound w ->
  steady (this w) x ->
  in_flight (mkRunning x None wt) + 1 <= in_flight w
  \/ (_isActive (this w) = true /\ wt = None) ->
  sound (mkRunning (fst (loop_head x)) (snd (loop_head x)) wt).
Proof.
  intros Hs Hx Hfl. pose proof (steady_active _ _ Hx) as Ha.
  unfold loop_head. destruct (_isActive x) eqn:Hact; cbn [negb].
  - destruct (_currentReader x) as [r|]; cbn [fst snd].
    + apply (sound_steady w); [exact Hs|exact Hx|]. right. congruence.
    + cbn [pump_ends fst snd].
      apply (sound_handleError (type_error reader_is_null) x w);
        [exact Hs|exact Hx|reflexivity|].
      rewrite in_flight_at in *. destruct Hfl as [Hle|[Hw ->]]; [left; lia|].
      right. split; [exact Hw|lia].
  - cbn [pump_ends fst snd].
    apply (sound_steady w); [exact Hs| |].
    + apply (steady_trans _ x); [exact Hx|now apply steady_core].
    + rewrite in_flight_at in *. destruct Hfl as [Hle|[Hw _]]; [left; lia|].
      now right.
Qed.

Lemma pumpStream_start_sound (x : SwitchableStream) (w : Running) :
  sound w ->
  steady (this w) x ->
  1 <= in_flight w \/ _isActive (this w) = true ->
  sound (mkRunning (fst (_pumpStream_start x)) (snd (_pumpStream_start x)) None).
Proof.
  intros Hs Hx Hfl.
  assert (Hend : forall p, sound (mkRunning (fst (pump_ends p x))
                                            (snd (pump_ends p x)) None)).
  { intros p. cbn [pump_ends fst snd]. apply (sound_steady w); [exact Hs| |].
    - apply (steady_trans _ x); [exact Hx|now apply steady_core].
    - rewrite in_flight_at. pose proof (in_flight_range w). left. lia. }
  unfold _pumpStream_start. destruct (_currentReader x); [|apply Hend].
  destruct (_controller x); cbn [negb]; [|apply Hend].
  apply (loop_head_sound x None w Hs Hx). rewrite in_flight_at.
  destruct Hfl as [Hle|Ha]; [left; lia|right; now split].
Qed.

Lemma enqueue_state (v : Chunk) (o o' : Outward) :
  enqueue v o = inl o' ->
  out_state o = Writable /\ o' = mkOutward (queue o ++ [v]) Writable.
Proof.
  unfold enqueue. destruct (out_state o); [|discriminate|discriminate].
  intros [= <-]. now split.
Qed.

Lemma pumpStream_resume_sound (result : ReadResult) (w : Running) :
  sound w ->
  inbox w <> None ->
  sound (mkRunning (fst (_pumpStream_resume result (this w)))
                   (snd (_pumpStream_resume result (this w))) (waiting w)).
Proof.
  intros Hs Hin.
  assert (Hk : in_flight (mkRunning (this w) None (waiting w)) + 1 <= in_flight w).
  { unfold in_flight. cbn [inbox waiting]. destruct (inbox w); [lia|contradiction]. }
  assert (Hlog : forall x, core x = core (this w) ->
                 sound (mkRunning (fst (pump_ends fulfilled x))
                                  (snd (pump_ends fulfilled x)) (waiting w))).
  { intros x Hx. cbn [pump_ends fst snd]. apply (sound_steady w); [exact Hs| |].
    - now apply steady_core.
    - left. rewrite in_flight_at in *. lia. }
  assert (Herr : forall f,
                 sound (mkRunning (fst (pump_ends fulfilled (_handleError f (this w))))
                                  (snd (pump_ends fulfilled (_handleError f (this w))))
                                  (waiting w))).
  { intros f. cbn [pump_ends fst snd].
    apply (sound_handleError f (this w) w);
      [exact Hs|apply steady_refl|reflexivity|].
    left. rewrite in_flight_at in *. lia. }
  unfold _pumpStream_resume. destruct result as [v| |f].
  - destruct (_controller (this w)); cbn [negb]; [|now apply Hlog].
    destruct (enqueue v (readable (this w))) as [o|f] eqn:Henq; [|apply Herr].
    apply enqueue_state in Henq as [Hw ->].
    apply (loop_head_sound _ (waiting w) w Hs).
    + unfold steady. fields. rewrite Hw. repeat split; lia.
    + left. exact Hk.
  - now apply Hlog.
  - apply Herr.
Qed.

Lemma acquire_sound (src : ReadableStream) (x : SwitchableStream) (w : Running) :
  sound w ->
  steady (this w) x ->
  1 <= in_flight w \/ _isActive (this w) = true ->
  sound (acquire src x None).
Proof.
  intros Hs Hx Hfl. unfold acquire.
  destruct (getReader src x) as [x'|] eqn:Hg.
  - apply (pumpStream_start_sound x' w Hs); [|exact Hfl].
    apply getReader_effect in Hg as (_ & Hc & _).
    injection Hc as C1 C2 C3 C4 C5 C6.
    apply (steady_trans _ x); [exact Hx|].
    unfold steady. rewrite C1, C2, C3, C4, C5, C6. repeat split; lia.
  - unfold switch_failed.
    apply (sound_handleError (type_error stream_is_locked)
             (logger_with Js.error "Error switching stream source:"
                          (type_error stream_is_locked) x) w);
      [exact Hs| |reflexivity|].
    + apply (steady_trans _ x); [exact Hx|now apply steady_core].
    + rewrite in_flight_at. destruct Hfl as [Hle|Ha]; [left; lia|right].
      split; [exact Ha|lia].
Qed.

Lemma after_pump_sound (src : ReadableStream) (x : SwitchableStream) (w : Running) :
  sound w ->
  steady (this w) x ->
  1 <= in_flight w \/ _isActive (this w) = true ->
  sound (after_pump src (mkRunning x None None)).
Proof.
  intros Hs Hx Hfl. unfold after_pump. cbn [this inbox].
  pose proof (cancelPrevious_core x) as Hc.
  destruct (cancelPrevious x) as [[outcome|] x1]; cbn [snd] in Hc.
  - apply (sound_steady w); [exact Hs| |].
    + apply (steady_trans _ x); [exact Hx|now apply steady_core].
    + rewrite in_flight_at. destruct Hfl as [Hle|Ha]; [left; lia|now right].
  - apply (acquire_sound src x1 w Hs); [|exact Hfl].
    apply (steady_trans _ x); [exact Hx|now apply steady_core].
Qed.

Lemma terminate_state (o : Outward) :
  queue (terminate o) = queue o /\
  out_state (terminate o) =
    match out_state o with
    | Writable => Terminated
    | st => st
    end.
Proof. unfold terminate. destruct (out_state o) eqn:Ho; cbn; now rewrite ?Ho. Qed.

(** The fields of a closed switcher. *)
Lemma close_fields (s : SwitchableStream) :
  _isActive (close s) = false /\ _controller (close s) = false /\
  _currentReader (close s) = None /\
  _switches (close s) = _switches s /\ _errorCount (close s) = _errorCount s /\
  _maxErrors (close s) = _maxErrors s /\
  _pumpingPromise (close s) = _pumpingPromise s /\
  readable (close s) =
    (if _controller s then terminate (readable s) else readable s).
Proof.
  destruct s as [c r sw a e m p o l].
  unfold close; destruct r, c; cbn; repeat split.
Qed.

Lemma close_sound (w : Running) : sound w -> sound (close_running w).
Proof.
  intros (Hm & He & Hk & Hs & Hon & Hc & Hb).
  destruct (close_fields (this w)) as (Ha & Hc' & _ & Hs' & He' & Hm' & _ & Hr).
  destruct (terminate_state (readable (this w))) as [_ Ht].
  assert (Hfl : in_flight (close_running w) = in_flight w).
  { unfold close_running, in_flight. cbn [inbox waiting].
    destruct (inbox w) as [[res|]|]; try reflexivity.
    now destruct (_currentReader (this w)). }
  unfold sound, open_for_sources. rewrite Hfl. cbn [close_running this].
  rewrite Ha, Hs', He', Hm', Hr.
  split; [exact Hm|]. split; [exact He|]. split; [exact Hk|]. split; [exact Hs|].
  split; [discriminate|].
  destruct (_controller (this w)) eqn:Hctl.
  - rewrite Ht. split.
    + intros _. destruct (out_state (readable (this w))); discriminate.
    + intros n f Hbr. split; [reflexivity|].
      destruct (out_state (readable (this w))) eqn:Ho; try discriminate.
      injection Hbr as <- <-. now destruct (Hb _ _ eq_refl) as (_ & Hn & Hg).
  - split; [intros _; now apply Hc|].
    intros n f Hbr. split; [reflexivity|]. now destruct (Hb n f Hbr).
Qed.

Lemma step_sound (op : Op) (w w' : Running) :
  sound w -> exec op w = Some w' -> sound w'.
Proof.
  intros Hs. destruct op as [src| | | |]; cbn [exec].
  - destruct (waiting w) eqn:Hw; [discriminate|]. intros [= <-].
    unfold switchSource_start.
    destruct (_isActive (this w)) eqn:Ha; cbn [negb].
    + destruct (pumped w).
      * apply (sound_steady w); [exact Hs|apply steady_refl|now right].
      * unfold after_pump.
        pose proof (cancelPrevious_core (this w)) as Hc.
        destruct (cancelPrevious (this w)) as [[outcome|] x1]; cbn [snd] in Hc.
        -- apply (sound_steady w); [exact Hs|now apply steady_core|now right].
        -- unfold acquire. destruct (getReader src x1) as [x'|] eqn:Hg.
           ++ apply (pumpStream_start_sound x' w Hs); [|now right].
              apply getReader_effect in Hg as (_ & Hc' & _).
              injection Hc' as C1 C2 C3 C4 C5 C6.
              apply core_fields in Hc as (D1 & D2 & D3 & D4 & D5 & D6).
              unfold steady. rewrite C1, C2, C3, C4, C5, C6, D1, D2, D3, D4, D5, D6.
              repeat split; lia.
           ++ unfold switch_failed.
              apply (sound_handleError (type_error stream_is_locked)
                       (logger_with Js.error "Error switching stream source:"
                                    (type_error stream_is_locked) x1) w);
                [exact Hs|now apply steady_core|reflexivity|].
              right. split; [exact Ha|]. rewrite in_flight_at.
              destruct (inbox w); lia.
    + apply (sound_steady w); [exact Hs|now apply steady_core|left].
      unfold in_flight. cbn [inbox waiting]. lia.
  - destruct (waiting w) as [call|] eqn:Hw; [|discriminate].
    destruct (inbox w) eqn:Hi; [discriminate|]. intros [= <-].
    assert (Hfl : 1 <= in_flight w \/ _isActive (this w) = true).
    { left. unfold in_flight. rewrite Hw, Hi. lia. }
    destruct call as [src|src outcome]; cbn [switchSource_resume this inbox].
    + apply (after_pump_sound src (this w) w Hs); [apply steady_refl|exact Hfl].
    + apply (acquire_sound src _ w Hs); [|exact Hfl].
      apply steady_core, afterCancel_core.
  - destruct (inbox w) as [[res|]|] eqn:Hi; try discriminate.
    destruct (_currentReader (this w)) as [r|]; [|discriminate]. intros [= <-].
    apply (sound_steady w); [exact Hs|now apply steady_core|left].
    unfold in_flight. cbn [inbox waiting]. rewrite Hi. lia.
  - destruct (inbox w) as [[res|]|] eqn:Hi; try discriminate. intros [= <-].
    apply pumpStream_resume_sound; [exact Hs|congruence].
  - intros [= <-]. now apply close_sound.
Qed.

Lemma run_cons (op : Op) (ops : list Op) (w : Running) :
  run (op :: ops) w =
  match exec op w with
  | Some w1 => run ops w1
  | None => None
  end.
Proof. reflexivity. Qed.

Lemma run_split (ops1 ops2 : list Op) (w w1 : Running) :
  run ops1 w = Some w1 -> run (ops1 ++ ops2) w = run ops2 w1.
Proof.
  revert w. induction ops1 as [|op ops1 IH]; intros w.
  - now intros [= ->].
  - cbn [app]. rewrite !run_cons. destruct (exec op w); [apply IH|discriminate].
Qed.

Lemma steps_sound (ops : list Op) (w w' : Running) :
  sound w -> run ops w = Some w' -> sound w'.
Proof.
  revert w. induction ops as [|op ops IH]; intros w Hs.
  - now intros [= <-].
  - rewrite run_cons. destruct (exec op w) as [w1|] eqn:He; [|discriminate].
    apply IH. exact (step_sound op w w1 Hs He).
Qed.

Lemma start_sound : sound (at_rest constructor).
Proof.
  unfold sound, open_for_sources. cbn.
  repeat split; try lia; try discriminate.
Qed.

Lemma switcher_sound (w : Running) : reachable w -> sound w.
Proof. intros [ops H]. exact (steps_sound ops _ w start_sound H). Qed.

(** ** Nothing gets stuck *)

Lemma loop_head_live (x : SwitchableStream) :
  snd (loop_head x) = None \/
  (snd (loop_head x) = Some None /\ _currentReader (fst (loop_head x)) <> None).
Proof.
  unfold loop_head. destruct (_isActive x); cbn [negb]; [|now left].
  destruct (_currentReader x) eqn:Hr; [right|now left].
  cbn [fst snd]. split; [reflexivity|congruence].
Qed.

Lemma pumpStream_start_live (x : SwitchableStream) :
  snd (_pumpStream_start x) = None \/
  (snd (_pumpStream_start x) = Some None /\
   _currentReader (fst (_pumpStream_start x)) <> None).
Proof.
  unfold _pumpStream_start. destruct (_currentReader x); [|now left].
  destruct (_controller x); cbn [negb]; [apply loop_head_live|now left].
Qed.

Lemma pumpStream_resume_live (result : ReadResult) (x : SwitchableStream) :
  snd (_pumpStream_resume result x) = None \/
  (snd (_pumpStream_resume result x) = Some None /\
   _currentReader (fst (_pumpStream_resume result x)) <> None).
Proof.
  unfold _pumpStream_resume. destruct result as [v| |f]; try now left.
  destruct (_controller x); cbn [negb]; [|now left].
  destruct (enqueue v (readable x)); [apply loop_head_live|now left].
Qed.

Lemma live_flight (x : SwitchableStream) (fl : Flight) :
  fl = None \/ (fl = Some None /\ _currentReader x <> None) ->
  live (mkRunning x fl None).
Proof.
  intros H. split; cbn [inbox this waiting]; [|discriminate].
  intros Hfl. destruct H as [->|[_ Hr]]; [discriminate|exact Hr].
Qed.

Lemma acquire_live (src : ReadableStream) (x : SwitchableStream) :
  live (acquire src x None).
Proof.
  unfold acquire. destruct (getReader src x) as [x'|].
  - apply live_flight, pumpStream_start_live.
  - apply live_flight. now left.
Qed.

Lemma after_pump_live (src : ReadableStream) (x : SwitchableStream) :
  live (after_pump src (mkRunning x None None)).
Proof.
  unfold after_pump. cbn [this inbox].
  destruct (cancelPrevious x) as [[outcome|] x1]; [|apply acquire_live].
  split; cbn [inbox this waiting]; [discriminate|reflexivity].
Qed.

Lemma step_live (op : Op) (w w' : Running) :
  live w -> exec op w = Some w' -> live w'.
Proof.
  intros [Hrd Hwt]. destruct op as [src| | | |]; cbn [exec].
  - destruct (waiting w) eqn:Hw; [discriminate|]. intros [= <-].
    unfold switchSource_start. destruct (_isActive (this w)); cbn [negb].
    + unfold pumped. destruct (inbox w) as [fl|] eqn:Hi.
      * split; cbn [inbox this waiting]; [exact Hrd|discriminate].
      * destruct (_pumpingPromise (this w)).
        -- split; cbn [inbox this waiting]; discriminate.
        -- replace w with (mkRunning (this w) None None)
             by (destruct w; cbn in *; congruence).
           apply after_pump_live.
    + split; cbn [inbox this waiting]; [exact Hrd|]. rewrite Hw. discriminate.
  - destruct (waiting w) as [call|]; [|discriminate].
    destruct (inbox w); [discriminate|]. intros [= <-].
    destruct call as [src|src outcome]; cbn [switchSource_resume this inbox].
    + apply after_pump_live.
    + apply acquire_live.
  - destruct (inbox w) as [[res|]|] eqn:Hi; try discriminate.
    destruct (_currentReader (this w)); [|discriminate]. intros [= <-].
    split; cbn [inbox this waiting]; [discriminate|].
    intros src outcome Hw. discriminate (Hwt src outcome Hw).
  - destruct (inbox w) as [[res|]|] eqn:Hi; try discriminate. intros [= <-].
    split; cbn [inbox this waiting].
    + intros Hfl.
      destruct (pumpStream_resume_live res (this w)) as [Hn|[_ Hr]];
        [congruence|exact Hr].
    + intros src outcome Hw. discriminate (Hwt src outcome Hw).
  - intros [= <-]. unfold close_running. split; cbn [inbox this waiting].
    + destruct (inbox w) as [[res|]|] eqn:Hi; try discriminate.
      destruct (_currentReader (this w)); [discriminate|].
      now destruct (Hrd eq_refl).
    + intros src outcome Hw. now rewrite (Hwt src outcome Hw).
Qed.

Lemma steps_live (ops : list Op) (w w' : Running) :
  live w -> run ops w = Some w' -> live w'.
Proof.
  revert w. induction ops as [|op ops IH]; intros w Hl.
  - now intros [= <-].
  - rewrite run_cons. destruct (exec op w) as [w1|] eqn:He; [|discriminate].
    apply IH. exact (step_live op w w1 Hl He).
Qed.

(** In every state a switcher can reach, what is under way can take
    its next step: no call and no pump is left waiting for something
    that cannot come. *)
Lemma never_stuck (w : Running) :
  reachable w -> idle w \/ exists op w', internal op /\ exec op w = Some w'.
Proof.
  intros [ops Hrun].
  assert (Hl : live w).
  { apply (steps_live ops (at_rest constructor)); [|exact Hrun].
    split; cbn; [discriminate|reflexivity]. }
  destruct Hl as [Hrd Hwt]. unfold idle.
  destruct (inbox w) as [[res|]|] eqn:Hi.
  - right. exists Continue. cbn [exec]. rewrite Hi. eexists. now split.
  - right. exists Settle. cbn [exec]. rewrite Hi.
    destruct (_currentReader (this w)); [|now destruct (Hrd eq_refl)].
    eexists. now split.
  - destruct (waiting w) as [call|] eqn:Hw; [right|now left].
    exists Resume. cbn [exec]. rewrite Hw, Hi. eexists. now split.
Qed.

(** ** The error count *)

(** X9.  Whatever has happened to a switcher whose callers await
    every call of [switchSource], its error count is between 0 and
    11: the ceiling of 10 can be passed by one, by a call that was
    already waiting when the tenth fault came.  While the switcher is
    active the count is below 10, the controller is there and the
    outward stream is open; from 10 on it is inactive; at 11 nothing
    is under way any more; and the outward stream is failed only on
    an inactive switcher, with a count of at least 10 that the error
    count has reached and with a fault whose message could be
    read. *)
Theorem errors_are_capped (w : Running) :
  reachable w ->
  0 <= errorCount (this w) <= 11 /\
  (isActive (this w) = true ->
   errorCount (this w) < 10 /\ _controller (this w) = true /\
   out_state (readable (this w)) = Writable) /\
  (10 <= errorCount (this w) -> isActive (this w) = false) /\
  (errorCount (this w) = 11 -> idle w) /\
  (forall n f, out_state (readable (this w)) = Broken n f ->
               isActive (this w) = false /\
               10 <= n <= errorCount (this w) /\ has_message f = true).
Proof.
  intros Hr. destruct (switcher_sound w Hr) as (Hm & He & Hk & _ & Hon & _ & Hb).
  pose proof (in_flight_range w) as Hfl.
  unfold errorCount, isActive.
  split; [lia|]. split; [|split; [|split; [|exact Hb]]].
  - intros Ha. destruct (Hon Ha) as (Hlt & _ & Hc & Hw). auto.
  - intros Hge. destruct (_isActive (this w)) eqn:Ha; [|reflexivity].
    destruct (Hon eq_refl) as [Hlt _]. lia.
  - intros H11. unfold idle. unfold in_flight in *.
    destruct (inbox w), (waiting w); split; try reflexivity; lia.
Qed.

(** Nine sources fail; a locked stream is handed over while the
    tenth is being read, and the tenth fails too: eleven errors. *)
Lemma errors_are_capped_witness :
  exists w, run overshoot (at_rest constructor) = Some w /\
            errorCount (this w) = 11 /\ isActive (this w) = false /\ idle w.
Proof.
  assert (Hrun : exists w, run overshoot (at_rest constructor) = Some w /\
                           errorCount (this w) = 11).
  { eexists. split; [vm_compute; reflexivity|reflexivity]. }
  destruct Hrun as (w & Hrun & He). exists w.
  destruct (errors_are_capped w (ex_intro _ overshoot Hrun))
    as (_ & _ & Hoff & Hidle & _).
  split; [exact Hrun|]. split; [exact He|].
  split; [apply Hoff; lia|apply Hidle, He].
Defined.

(** ** Order of the chunks *)

(** X10.  When a switcher that is open is handed unlocked sources one
    after the other, fewer of them failing than the error ceiling
    leaves room for, the outward stream receives the chunks of the
    first source, then those of the second, and so on (those of a
    failing source up to its failure), after what it already held,
    and is still open afterwards. *)
Theorem chunks_in_order (sources : list ReadableStream) (s : SwitchableStream) :
  open_for_sources s ->
  Forall unlocked sources ->
  _errorCount s + faults sources < _maxErrors s ->
  queue (readable (handOver sources s)) =
    queue (readable s) ++ List.concat (map chunks sources) /\
  out_state (readable (handOver sources s)) = Writable /\
  isActive (handOver sources s) = true.
Proof.
  intros Hs Hun Hlt.
  destruct (handOver_open sources s Hs Hun Hlt) as ((Ha & _ & Hw) & _ & _ & _ & Hq).
  split; [exact Hq|]. split; [exact Hw|exact Ha].
Qed.

Lemma chunks_in_order_witness :
  queue (readable (handOver [failing ["a"; "b"]%string "cut"; one_chunk]
                            constructor))
    = ["a"; "b"; "a"]%string.
Proof.
  destruct (chunks_in_order [failing ["a"; "b"]%string "cut"; one_chunk]
              constructor constructor_open) as (Hq & _).
  - repeat constructor.
  - reflexivity.
  - rewrite Hq. reflexivity.
Defined.

(** ** What the outward stream holds *)

Lemma kept_refl (o : Outward) : kept o o.
Proof. split; [reflexivity|]. left. exists []. now rewrite app_nil_r. Qed.

Lemma kept_trans (a b c : Outward) : kept a b -> kept b c -> kept a c.
Proof.
  intros [A1 A2] [B1 B2]. split.
  - intros n f Ha. pose proof (A1 n f Ha) as ->. exact (B1 n f Ha).
  - destruct A2 as [[l1 Hl1]|(Hq & n & f & Hb)].
    + destruct B2 as [[l2 Hl2]|Hr]; [left|now right].
      exists (l1 ++ l2). now rewrite Hl2, Hl1, app_assoc.
    + right. rewrite (B1 n f Hb). split; [exact Hq|eauto].
Qed.

Lemma kept_enqueue (v : Chunk) (o o' : Outward) :
  enqueue v o = inl o' -> kept o o'.
Proof.
  intros H. apply enqueue_state in H as [Hw ->]. split.
  - intros n f Hb. congruence.
  - left. now exists [v].
Qed.

Lemma kept_terminate (o : Outward) : kept o (terminate o).
Proof.
  unfold terminate. destruct (out_state o) eqn:Ho; try apply kept_refl.
  split; [congruence|]. left. exists []. cbn. now rewrite app_nil_r.
Qed.

Lemma kept_controller_error (n : Z) (f : Fault) (o : Outward) :
  kept o (controller_error n f o).
Proof.
  unfold controller_error. destruct (out_state o) eqn:Ho.
  - split; [congruence|]. right. cbn. eauto.
  - destruct (queue o); [apply kept_refl|].
    split; [congruence|]. right. cbn. eauto.
  - apply kept_refl.
Qed.

Lemma kept_core (a b : SwitchableStream) :
  core b = core a -> kept (readable a) (readable b).
Proof.
  intros H. apply core_fields in H as (_ & _ & _ & _ & _ & ->). apply kept_refl.
Qed.

Lemma kept_handleError (f : Fault) (x : SwitchableStream) :
  kept (readable x) (readable (_handleError f x)).
Proof.
  destruct (handleError_effect f x) as (_ & _ & _ & _ & _ & _ & _ & ->).
  destruct (_ && _); [apply kept_controller_error|apply kept_refl].
Qed.

Lemma kept_loop_head (x : SwitchableStream) :
  kept (readable x) (readable (fst (loop_head x))).
Proof.
  unfold loop_head. destruct (_isActive x); cbn [negb];
    [|apply kept_refl].
  destruct (_currentReader x); [apply kept_refl|].
  cbn [pump_ends fst readable with_pumpingPromise]. apply kept_handleError.
Qed.

Lemma kept_pumpStream_start (x : SwitchableStream) :
  kept (readable x) (readable (fst (_pumpStream_start x))).
Proof.
  unfold _pumpStream_start. destruct (_currentReader x); [|apply kept_refl].
  destruct (_controller x); cbn [negb]; [apply kept_loop_head|apply kept_refl].
Qed.

Lemma kept_pumpStream_resume (result : ReadResult) (x : SwitchableStream) :
  kept (readable x) (readable (fst (_pumpStream_resume result x))).
Proof.
  unfold _pumpStream_resume. destruct result as [v| |f].
  - destruct (_controller x); cbn [negb]; [|apply kept_refl].
    destruct (enqueue v (readable x)) as [o|f] eqn:He.
    + apply (kept_trans _ o); [now apply (kept_enqueue v)|].
      apply (kept_loop_head (with_readable o x)).
    + cbn [pump_ends fst readable with_pumpingPromise]. apply kept_handleError.
  - apply kept_refl.
  - cbn [pump_ends fst readable with_pumpingPromise]. apply kept_handleError.
Qed.

Lemma kept_acquire (src : ReadableStream) (x : SwitchableStream) (fl : Flight) :
  kept (readable x) (readable (this (acquire src x fl))).
Proof.
  unfold acquire. destruct (getReader src x) as [x'|] eqn:Hg; cbn [this].
  - apply getReader_effect in Hg as (_ & Hc & _).
    injection Hc as _ _ _ _ _ Hr. rewrite <- Hr. apply kept_pumpStream_start.
  - unfold switch_failed.
    apply (kept_handleError _ (logger_with _ _ _ x)).
Qed.

Lemma kept_after_pump (src : ReadableStream) (w : Running) :
  kept (readable (this w)) (readable (this (after_pump src w))).
Proof.
  unfold after_pump. pose proof (cancelPrevious_core (this w)) as Hc.
  destruct (cancelPrevious (this w)) as [[outcome|] x1]; cbn [snd] in Hc.
  - now apply kept_core.
  - apply (kept_trans _ (readable x1)); [now apply kept_core|apply kept_acquire].
Qed.

Lemma kept_close (s : SwitchableStream) : kept (readable s) (readable (close s)).
Proof.
  destruct (close_fields s) as (_ & _ & _ & _ & _ & _ & _ & ->).
  destruct (_controller s); [apply kept_terminate|apply kept_refl].
Qed.

Lemma kept_exec (op : Op) (w w' : Running) :
  exec op w = Some w' -> kept (readable (this w)) (readable (this w')).
Proof.
  destruct op as [src| | | |]; cbn [exec].
  - destruct (waiting w); [discriminate|]. intros [= <-].
    unfold switchSource_start. destruct (_isActive (this w)); cbn [negb].
    + destruct (pumped w); [apply kept_refl|apply kept_after_pump].
    + apply kept_refl.
  - destruct (waiting w) as [call|]; [|discriminate].
    destruct (inbox w); [discriminate|]. intros [= <-].
    destruct call as [src|src outcome]; cbn [switchSource_resume].
    + apply (kept_after_pump src (mkRunning (this w) None None)).
    + cbn [this inbox].
      apply (kept_trans _ (readable (afterCancel outcome (this w))));
        [apply kept_core, afterCancel_core|apply kept_acquire].
  - destruct (inbox w) as [[res|]|]; try discriminate.
    destruct (_currentReader (this w)); [|discriminate]. intros [= <-].
    apply kept_refl.
  - destruct (inbox w) as [[res|]|]; try discriminate. intros [= <-].
    apply kept_pumpStream_resume.
  - intros [= <-]. apply kept_close.
Qed.

(** X11.  Whatever happens to a switcher, the chunks its outward
    stream holds stay there in their order, with what is forwarded
    later behind them, until the stream is failed: failing it drops
    them all, and a failed stream takes nothing more. *)
Theorem forwarded_is_kept (ops : list Op) (w w' : Running) :
  run ops w = Some w' ->
  (forall n f, out_state (readable (this w)) = Broken n f ->
               readable (this w') = readable (this w)) /\
  ((exists l, queue (readable (this w')) = queue (readable (this w)) ++ l) \/
   (queue (readable (this w')) = [] /\
    exists n f, out_state (readable (this w')) = Broken n f)).
Proof.
  change (run ops w = Some w' -> kept (readable (this w)) (readable (this w'))).
  revert w. induction ops as [|op ops IH]; intros w.
  - intros [= <-]. apply kept_refl.
  - rewrite run_cons. destruct (exec op w) as [w1|] eqn:He; [|discriminate].
    intros Hrun. apply (kept_trans _ (readable (this w1)));
      [exact (kept_exec op w w1 He)|exact (IH w1 Hrun)].
Qed.

(** Two chunks are forwarded; then the tenth fault fails the stream
    and they are gone. *)
Lemma forwarded_is_kept_witness :
  exists w1 w2,
    run (SwitchSource (mkSource ["a"; "b"]%string Completed false) :: draining 2)
        (at_rest constructor) = Some w1 /\
    queue (readable (this w1)) = ["a"; "b"]%string /\
    run (List.concat
           (repeat (SwitchSource (failing [] "stalled")
                      :: Resume :: Resume :: draining 0) 10)) w1 = Some w2 /\
    queue (readable (this w2)) = [] /\
    out_state (readable (this w2)) = Broken 10 (thrown (Some "stalled"%string)).
Proof.
  eexists. eexists.
  split; [vm_compute; reflexivity|]. split; [reflexivity|].
  match goal with |- run ?ops ?w = Some ?w' /\ _ =>
    assert (Hrun : run ops w = Some w') by (vm_compute; reflexivity)
  end.
  split; [exact Hrun|].
  destruct (forwarded_is_kept _ _ _ Hrun) as [_ [[l Hl]|[Hq _]]].
  - vm_compute in Hl. destruct l; discriminate.
  - split; [exact Hq|reflexivity].
Defined.

(** ** An inactive switcher *)

Lemma inactive_step (op : Op) (w w1 : Running) :
  idle w -> _isActive (this w) = false -> exec op w = Some w1 ->
  ~ internal op /\ idle w1 /\ _isActive (this w1) = false /\
  _switches (this w1) = _switches (this w) /\
  _errorCount (this w1) = _errorCount (this w) /\
  queue (readable (this w1)) = queue (readable (this w)) /\
  (out_state (readable (this w1)) = out_state (readable (this w)) \/
   (op = Close /\ out_state (readable (this w)) = Writable /\
    out_state (readable (this w1)) = Terminated)).
Proof.
  intros [Hi Hw] Ha. destruct op as [src| | | |]; cbn [exec];
    rewrite ?Hi, ?Hw; try discriminate.
  - intros [= <-]. unfold switchSource_start. rewrite Ha. cbn [negb].
    cbn [this idle inbox waiting]. unfold idle. cbn [inbox waiting].
    repeat split; auto.
  - intros [= <-].
    destruct (close_fields (this w)) as (Ha' & _ & _ & Hs' & He' & _ & _ & Hr).
    destruct (terminate_state (readable (this w))) as [Hq Ht].
    unfold close_running, idle. cbn [this inbox waiting]. rewrite Hi, Hw.
    split; [exact (fun H => H)|]. split; [now split|]. split; [exact Ha'|].
    split; [exact Hs'|]. split; [exact He'|]. rewrite Hr.
    destruct (_controller (this w)); [|split; [reflexivity|now left]].
    split; [exact Hq|]. rewrite Ht.
    destruct (out_state (readable (this w))); [right|left|left]; auto.
Qed.

(** X12.  Once a switcher is inactive with nothing under way, no
    step of its own can follow, every call of [switchSource] is
    turned away and [close] changes nothing but the state of an
    outward stream that was still open, which it terminates: the
    switch count, the error count and the chunks held stay as they
    are, and the switcher stays inactive.  So an outward stream that
    the ceiling has left open is ended by [close] only. *)
Theorem inactive_is_final (ops : list Op) (w w' : Running) :
  idle w ->
  isActive (this w) = false ->
  run ops w = Some w' ->
  Forall (fun op => ~ internal op) ops /\
  idle w' /\ isActive (this w') = false /\
  switches (this w') = switches (this w) /\
  errorCount (this w') = errorCount (this w) /\
  queue (readable (this w')) = queue (readable (this w)) /\
  (out_state (readable (this w')) = out_state (readable (this w)) \/
   (In Close ops /\ out_state (readable (this w)) = Writable /\
    out_state (readable (this w')) = Terminated)).
Proof.
  unfold isActive, switches, errorCount.
  revert w. induction ops as [|op ops IH]; intros w Hi Ha.
  - intros [= <-]. repeat split; try apply Hi; auto.
  - rewrite run_cons. destruct (exec op w) as [w1|] eqn:He; [|discriminate].
    intros Hrun.
    destruct (inactive_step op w w1 Hi Ha He)
      as (Hop & Hi1 & Ha1 & Hs1 & He1 & Hq1 & Ho1).
    destruct (IH w1 Hi1 Ha1 Hrun) as (Hall & Hi' & Ha' & Hs' & He' & Hq' & Ho').
    split; [now constructor|]. split; [exact Hi'|]. split; [exact Ha'|].
    split; [congruence|]. split; [congruence|]. split; [congruence|].
    destruct Ho1 as [Hsame|(-> & Hw & Ht)].
    + rewrite <- Hsame. destruct Ho' as [Hsame'|(Hin & Hw' & Ht')]; [now left|].
      right. split; [now right|]. now split.
    + right. split; [now left|]. split; [exact Hw|].
      destruct Ho' as [Hsame'|(_ & Hw' & _)]; congruence.
Qed.

(** After ten faults the last of which is [undefined], calls are
    turned away; [close] ends the outward stream, and what it holds
    is still there. *)
Lemma inactive_is_final_witness :
  let w := at_rest (handOver (repeat (failing [] "stalled") 9 ++ [silent_failure])
                             constructor) in
  exists w1,
    run [SwitchSource one_chunk; Close; SwitchSource one_chunk] w = Some w1 /\
    errorCount (this w1) = 10 /\ switches (this w1) = 10 /\
    queue (readable (this w1)) = ["a"%string].
Proof.
  cbn zeta.
  set (w := at_rest (handOver (repeat (failing [] "stalled") 9 ++ [silent_failure])
                              constructor)).
  assert (Hi : idle w) by (split; reflexivity).
  assert (Ha : isActive (this w) = false) by (vm_compute; reflexivity).
  eexists.
  match goal with |- run ?ops w = Some ?w1 /\ _ =>
    assert (H1 : run ops w = Some w1) by (vm_compute; reflexivity)
  end.
  split; [exact H1|].
  destruct (inactive_is_final _ w _ Hi Ha H1)
    as (_ & _ & _ & Hs1 & He1 & Hq1 & _).
  split; [rewrite He1; vm_compute; reflexivity|].
  split; [rewrite Hs1; vm_compute; reflexivity|].
  rewrite Hq1. vm_compute. reflexivity.
Defined.

(** ** Closing *)

Lemma close_twice (s : SwitchableStream) :
  close (close s) = logger info (closed_line (close s)) (close s).
Proof.
  destruct s as [c r sw a e m p o l].
  unfold close; destruct r, c; reflexivity.
Qed.

(** X13.  [close] on a switcher in any state it can reach leaves it
    inactive, with its counters and the chunks its outward stream
    holds as they were; an outward stream that was open is
    terminated, one that was failed stays failed.  A second [close]
    only adds its log line, and every call of [switchSource] made
    afterwards is turned away. *)
Theorem close_is_idempotent (w : Running) :
  reachable w ->
  let w' := close_running w in
  isActive (this w') = false /\
  switches (this w') = switches (this w) /\
  errorCount (this w') = errorCount (this w) /\
  queue (readable (this w')) = queue (readable (this w)) /\
  out_state (readable (this w')) =
    match out_state (readable (this w)) with
    | Writable => Terminated
    | st => st
    end /\
  close_running w' =
    mkRunning (logger info (closed_line (this w')) (this w'))
              (inbox w') (waiting w') /\
  forall src, switchSource_start src w' =
              mkRunning (rejected_switch (this w')) (inbox w') (waiting w').
Proof.
  intros Hr w'. destruct (switcher_sound w Hr) as (_ & _ & _ & _ & _ & Hc & _).
  destruct (close_fields (this w)) as (Ha & _ & Hrd & Hs & He & _ & _ & Hro).
  destruct (terminate_state (readable (this w))) as [Hq Ht].
  subst w'. unfold isActive, switches, errorCount. cbn [close_running this].
  split; [exact Ha|]. split; [exact Hs|]. split; [exact He|]. rewrite Hro.
  split; [|split; [|split]].
  - destruct (_controller (this w)); [exact Hq|reflexivity].
  - destruct (_controller (this w)) eqn:Hctl; [exact Ht|].
    destruct (out_state (readable (this w))); try reflexivity.
    now destruct (Hc eq_refl).
  - unfold close_running at 1.
    change (this (close_running w)) with (close (this w)).
    rewrite close_twice, Hrd. f_equal.
    now destruct (inbox (close_running w)) as [[?|]|].
  - intros src. unfold switchSource_start.
    change (this (close_running w)) with (close (this w)).
    now rewrite Ha.
Qed.

(** A switcher is closed while its source is being read: the read
    settles as done, and a second [close] changes nothing. *)
Lemma close_is_idempotent_witness :
  exists w,
    run [SwitchSource one_chunk] (at_rest constructor) = Some w /\
    inbox (close_running w) = Some (Some done) /\
    out_state (readable (this (close_running w))) = Terminated /\
    readable (this (close_running (close_running w)))
      = readable (this (close_running w)).
Proof.
  eexists.
  match goal with |- run ?ops ?x = Some ?w /\ _ =>
    assert (Hrun : run ops x = Some w) by (vm_compute; reflexivity)
  end.
  split; [exact Hrun|].
  destruct (close_is_idempotent _ (ex_intro _ _ Hrun))
    as (_ & _ & _ & _ & Ht & Htwice & _).
  split; [reflexivity|]. split; [exact Ht|]. now rewrite Htwice.
Defined.

(** ** A source that cannot be acquired *)

(** X14.  A stream that is already locked to a reader is not taken:
    an active switcher counts a fault, not a switch.  Below the
    ceiling the outward stream is untouched and the switcher stays
    active; at the ceiling the switcher is inactive and the outward
    stream, if open with its controller there, is failed with the
    count and the [TypeError] of [getReader], and what it held is
    dropped. *)
Theorem locked_source_is_a_fault (src : ReadableStream) (s : SwitchableStream) :
  isActive s = true ->
  locked src = true ->
  let s' := switchSource src s in
  switches s' = switches s /\
  errorCount s' = errorCount s + 1 /\
  (errorCount s + 1 < _maxErrors s ->
   isActive s' = true /\ readable s' = readable s) /\
  (_maxErrors s <= errorCount s + 1 ->
   isActive s' = false /\
   (_controller s = true -> out_state (readable s) = Writable ->
    readable s' =
      mkOutward [] (Broken (errorCount s + 1) (type_error stream_is_locked)))) /\
  forall (platform : Refusal -> string) (n : Z),
    broken_text platform n (type_error stream_is_locked)
    = Some (failure_text n (platform stream_is_locked)).
Proof.
  unfold isActive, switches, errorCount. intros Ha Hl. cbv zeta.
  unfold switchSource. rewrite Ha. cbn [negb].
  pose proof (previous_core s) as H1.
  set (s1 := match cancelPrevious s with
             | (Some outcome, s1) => _
             | (None, s1) => s1
             end) in *.
  clearbody s1. rewrite (getReader_locked src s1 Hl). unfold switch_failed.
  set (x := logger_with Js.error "Error switching stream source:"
                        (type_error stream_is_locked) s1).
  assert (Hx : core x = core s) by (subst x; exact H1).
  clearbody x. apply core_fields in Hx as (X1 & X2 & X3 & X4 & X5 & X6).
  destruct (handleError_effect (type_error stream_is_locked) x)
    as (E1 & E2 & E3 & _ & _ & E6 & E7 & E8).
  rewrite E1, E6, E7, E8, X1, X2, X3, X4, X5, X6, Ha.
  split; [reflexivity|]. split; [reflexivity|]. split; [|split].
  - intros Hlt.
    replace (_errorCount s + 1 >=? _maxErrors s) with false
      by (symmetry; rewrite Z.geb_leb; apply Z.leb_gt; lia).
    now split.
  - intros Hge.
    replace (_errorCount s + 1 >=? _maxErrors s) with true
      by (symmetry; rewrite Z.geb_leb; apply Z.leb_le; lia).
    split; [reflexivity|]. intros -> Hw. cbn [andb has_message].
    unfold controller_error. now rewrite Hw.
  - reflexivity.
Qed.

Lemma locked_source_is_a_fault_witness :
  let s9 := handOver (failing ["a"%string] "cut" :: repeat (failing [] "stalled") 8)
                     constructor in
  queue (readable s9) = ["a"%string] /\
  errorCount (switchSource taken s9) = 10 /\
  switches (switchSource taken s9) = 9 /\
  readable (switchSource taken s9)
    = mkOutward [] (Broken 10 (type_error stream_is_locked)).
Proof.
  cbn zeta.
  set (s9 := handOver (failing ["a"%string] "cut" :: repeat (failing [] "stalled") 8)
                      constructor).
  assert (Ha : isActive s9 = true) by (vm_compute; reflexivity).
  destruct (locked_source_is_a_fault taken s9 Ha eq_refl)
    as (Hs & He & _ & Hat & _).
  split; [vm_compute; reflexivity|]. split; [rewrite He; vm_compute; reflexivity|].
  split; [rewrite Hs; vm_compute; reflexivity|].
  destruct Hat as [_ Hbr]; [vm_compute; discriminate|].
  rewrite Hbr; [vm_compute; reflexivity|vm_compute; reflexivity
                |vm_compute; reflexivity].
Defined.

(** ** Every fault while draining *)

(** X30.  When the pump goes on with what it has read, every fault
    it meets, a rejected read or a chunk the outward stream refuses,
    is handled by [_handleError] and ends the pump: the error count
    goes up by one; below the ceiling nothing else changes, the
    switcher is as active as it was and the outward stream is
    untouched; at the ceiling the switcher is inactive.  Without a
    fault the count stays as it is, as long as an active switcher
    has its reader for the next read. *)
Theorem every_fault_is_counted (result : ReadResult) (w w' : Running) :
  inbox w = Some (Some result) ->
  exec Continue w = Some w' ->
  match fault_of result (this w) with
  | Some f =>
      inbox w' = None /\
      core (this w') = core (_handleError f (this w)) /\
      errorCount (this w') = errorCount (this w) + 1 /\
      (errorCount (this w) + 1 < _maxErrors (this w) ->
       isActive (this w') = isActive (this w) /\
       readable (this w') = readable (this w)) /\
      (_maxErrors (this w) <= errorCount (this w) + 1 ->
       isActive (this w') = false)
  | None =>
      (isActive (this w) = true -> _currentReader (this w) <> None) ->
      errorCount (this w') = errorCount (this w)
  end.
Proof.
  intros Hi. cbn [exec]. rewrite Hi. intros [= <-]. cbn [this inbox].
  unfold errorCount, isActive.
  assert (Herr : forall f,
    snd (pump_ends fulfilled (_handleError f (this w))) = None /\
    core (fst (pump_ends fulfilled (_handleError f (this w))))
      = core (_handleError f (this w)) /\
    _errorCount (fst (pump_ends fulfilled (_handleError f (this w))))
      = _errorCount (this w) + 1 /\
    (_errorCount (this w) + 1 < _maxErrors (this w) ->
     _isActive (fst (pump_ends fulfilled (_handleError f (this w))))
       = _isActive (this w) /\
     readable (fst (pump_ends fulfilled (_handleError f (this w))))
       = readable (this w)) /\
    (_maxErrors (this w) <= _errorCount (this w) + 1 ->
     _isActive (fst (pump_ends fulfilled (_handleError f (this w)))) = false)).
  { intros f. cbn [pump_ends fst snd].
    destruct (handleError_effect f (this w)) as (_ & _ & _ & _ & _ & E6 & E7 & E8).
    cbn [_errorCount _isActive readable with_pumpingPromise].
    rewrite E6, E7, E8.
    split; [reflexivity|]. split; [reflexivity|]. split; [reflexivity|]. split.
    - intros Hlt.
      replace (_errorCount (this w) + 1 >=? _maxErrors (this w)) with false
        by (symmetry; rewrite Z.geb_leb; apply Z.leb_gt; lia).
      now split.
    - intros Hge.
      now replace (_errorCount (this w) + 1 >=? _maxErrors (this w)) with true
        by (symmetry; rewrite Z.geb_leb; apply Z.leb_le; lia). }
  unfold fault_of, _pumpStream_resume. destruct result as [v| |f].
  - destruct (_controller (this w)); cbn [negb]; [|reflexivity].
    destruct (enqueue v (readable (this w))) as [o|f]; [|apply Herr].
    unfold loop_head. cbn [_isActive with_readable _currentReader].
    destruct (_isActive (this w)); cbn [negb]; [|reflexivity].
    destruct (_currentReader (this w)); [reflexivity|].
    intros Hrd. now destruct (Hrd eq_refl).
  - reflexivity.
  - apply Herr.
Qed.

(** The ninth fault of a new switcher is a rejected read: nine
    errors, and the switcher still active. *)
Lemma every_fault_is_counted_witness :
  exists w w',
    run ((SwitchSource (failing [] "stalled") :: draining 0)
         ++ List.concat
              (repeat (SwitchSource (failing [] "stalled")
                         :: Resume :: Resume :: draining 0) 7)
         ++ [SwitchSource (failing [] "stalled"); Resume; Resume; Settle])
        (at_rest constructor)
      = Some w /\
    exec Continue w = Some w' /\
    errorCount (this w') = 9 /\ isActive (this w') = true.
Proof.
  eexists. eexists.
  match goal with |- run ?ops ?x = Some ?w /\ _ =>
    assert (Hrun : run ops x = Some w) by (vm_compute; reflexivity)
  end.
  split; [exact Hrun|].
  match goal with |- exec Continue ?w = Some ?w' /\ _ =>
    assert (Hex : exec Continue w = Some w') by (vm_compute; reflexivity)
  end.
  split; [exact Hex|].
  match type of Hex with exec Continue ?w = _ =>
    pose proof (every_fault_is_counted
                  (failed (thrown (Some "stalled"%string))) w _ eq_refl Hex) as H
  end.
  cbn [fault_of] in H. destruct H as (_ & _ & He & Hbelow & _).
  split; [rewrite He; vm_compute; reflexivity|].
  destruct Hbelow as [Ha _]; [vm_compute; reflexivity|].
  rewrite Ha. vm_compute. reflexivity.
Defined.

(** ** The call left to run alone *)

Lemma pump_loop_reader (cs : list Chunk) (e : Ending) (r : option Reader)
      (s : SwitchableStream) :
  pump_loop cs e (with_currentReader r s) =
  (fst (fst (pump_loop cs e s)), snd (fst (pump_loop cs e s)),
   with_currentReader r (snd (pump_loop cs e s))).
Proof.
  revert s. induction cs as [|c cs IH]; intros s; cbn [pump_loop].
  - cbn [_isActive with_currentReader]. destruct (_isActive s); cbn [negb];
      [|reflexivity].
    now destruct e.
  - cbn [_isActive _controller readable with_currentReader].
    destruct (_isActive s); cbn [negb]; [|reflexivity].
    destruct (_controller s); cbn [negb]; [|reflexivity].
    destruct (enqueue c (readable s)) as [o|f]; [|reflexivity].
    exact (IH (with_readable o s)).
Qed.

Lemma after_loop_reader (x : option Fault * Reader * SwitchableStream)
      (r : option Reader) :
  after_loop (fst (fst x), snd (fst x), with_currentReader r (snd x))
  = after_loop x.
Proof. destruct x as [[[f|] r'] s]; reflexivity. Qed.

Lemma internal_draining : Forall internal [Settle; Continue].
Proof. repeat constructor. Qed.

(** A pump that waits for a read of its source, left alone, ends as
    the loop run in one go does. *)
Lemma pump_steps (cs : list Chunk) (e : Ending) (s : SwitchableStream) :
  _isActive s = true ->
  _currentReader s = Some (Readable cs e) ->
  exists ops,
    Forall internal ops /\
    run ops (mkRunning s (Some None) None) =
      Some (at_rest (with_pumpingPromise (Some fulfilled)
                       (after_loop (pump_loop cs e s)))).
Proof.
  revert s. induction cs as [|c cs IH]; intros s Ha Hr.
  - exists [Settle; Continue]. split; [apply internal_draining|].
    cbn [run exec inbox this waiting]. rewrite Hr.
    cbn [pump_loop]. rewrite Ha. cbn [negb].
    destruct e as [|f]; reflexivity.
  - cbn [pump_loop]. rewrite Ha. cbn [negb].
    destruct (_controller s) eqn:Hc; cbn [negb].
    + destruct (enqueue c (readable s)) as [o|f] eqn:He.
      * destruct (IH (with_readable o (with_currentReader (Some (Readable cs e)) s)))
          as (ops & Hint & Hrun); [exact Ha|reflexivity|].
        exists (Settle :: Continue :: ops).
        split; [repeat constructor; exact Hint|].
        rewrite run_cons. cbn [exec inbox this waiting]. rewrite Hr.
        cbn [read fst snd]. rewrite run_cons. cbn [exec inbox this waiting].
        cbn [_pumpStream_resume _controller with_currentReader readable].
        rewrite Hc, He. cbn [negb]. unfold loop_head.
        cbn [_isActive with_readable with_currentReader _currentReader].
        rewrite Ha. cbn [negb fst snd].
        rewrite Hrun. do 3 f_equal.
        change (with_readable o (with_currentReader (Some (Readable cs e)) s))
          with (with_currentReader (Some (Readable cs e)) (with_readable o s)).
        rewrite pump_loop_reader. apply after_loop_reader.
      * exists [Settle; Continue]. split; [apply internal_draining|].
        rewrite run_cons. cbn [exec inbox this waiting]. rewrite Hr.
        cbn [read fst snd]. rewrite run_cons. cbn [exec inbox this waiting].
        cbn [_pumpStream_resume _controller with_currentReader readable].
        rewrite Hc, He. reflexivity.
    + exists [Settle; Continue]. split; [apply internal_draining|].
      rewrite run_cons. cbn [exec inbox this waiting]. rewrite Hr.
      cbn [read fst snd]. rewrite run_cons. cbn [exec inbox this waiting].
      cbn [_pumpStream_resume _controller with_currentReader readable].
      rewrite Hc. reflexivity.
Qed.

(** [acquire] on a switcher at rest, left alone. *)
Lemma acquire_steps (src : ReadableStream) (s : SwitchableStream) :
  _isActive s = true ->
  exists ops,
    Forall internal ops /\
    run ops (acquire src s None) =
      Some (at_rest
              match getReader src s with
              | Some s' => with_pumpingPromise (Some (fst (_pumpStream s')))
                                               (snd (_pumpStream s'))
              | None => switch_failed (type_error stream_is_locked) s
              end).
Proof.
  intros Ha. unfold acquire. destruct (getReader src s) as [s'|] eqn:Hg.
  - apply getReader_effect in Hg as (_ & Hc & Hr & _).
    injection Hc as C1 C2 _ _ _ _.
    unfold _pumpStream_start, _pumpStream. rewrite Hr.
    destruct (_controller s'); cbn [negb].
    + unfold loop_head. rewrite C2, Ha, Hr. cbn [negb fst snd reads].
      apply pump_steps; [congruence|exact Hr].
    + exists []. split; [constructor|reflexivity].
  - exists []. split; [constructor|reflexivity].
Qed.

(** X29.  A call of [switchSource] on a switcher at rest, with
    nothing else happening until it is at rest again, takes steps of
    its own (it waits for the previous pump, cancels the previous
    reader, takes the new one and reads it to its end) that leave the
    switcher in the state [switchSource] gives for the call as a
    whole. *)
Theorem switchSource_by_steps (src : ReadableStream) (s : SwitchableStream) :
  exists ops,
    Forall internal ops /\
    run (SwitchSource src :: ops) (at_rest s) = Some (at_rest (switchSource src s)).
Proof.
  unfold switchSource. destruct (_isActive s) eqn:Ha; cbn [negb].
  - (* the steps up to [acquire] *)
    assert (Hpre : exists ops1 s1,
               Forall internal ops1 /\
               run (SwitchSource src :: ops1) (at_rest s)
                 = Some (acquire src s1 None) /\
               s1 = match cancelPrevious s with
                    | (Some outcome, s') => afterCancel outcome s'
                    | (None, s') => s'
                    end /\
               _isActive s1 = true).
    { assert (Hact : _isActive match cancelPrevious s with
                               | (Some outcome, s') => afterCancel outcome s'
                               | (None, s') => s'
                               end = true).
      { destruct (core_fields _ _ (previous_core s)) as (_ & -> & _). exact Ha. }
      assert (Hafter : exists ops1,
                 Forall internal ops1 /\
                 run ops1 (after_pump src (at_rest s))
                   = Some (acquire src match cancelPrevious s with
                                       | (Some outcome, s') => afterCancel outcome s'
                                       | (None, s') => s'
                                       end None)).
      { unfold after_pump. cbn [at_rest this inbox].
        destruct (cancelPrevious s) as [[outcome|] s'].
        - exists [Resume]. split; [repeat constructor|]. reflexivity.
        - exists []. split; [constructor|reflexivity]. }
      destruct Hafter as (ops1 & Hint & Hrun).
      destruct (_pumpingPromise s) as [p|] eqn:Hp.
      - exists (Resume :: ops1). eexists. split; [now constructor|].
        split; [|split; [reflexivity|exact Hact]].
        rewrite run_cons. unfold at_rest at 1. cbn [exec waiting].
        unfold switchSource_start, pumped. cbn [this inbox]. rewrite Ha, Hp.
        cbn [negb]. rewrite run_cons. cbn [exec waiting inbox this switchSource_resume].
        exact Hrun.
      - exists ops1. eexists. split; [exact Hint|].
        split; [|split; [reflexivity|exact Hact]].
        rewrite run_cons. unfold at_rest at 1. cbn [exec waiting].
        unfold switchSource_start, pumped. cbn [this inbox]. rewrite Ha, Hp.
        cbn [negb]. exact Hrun. }
    destruct Hpre as (ops1 & s1 & Hint1 & Hrun1 & Hs1 & Ha1).
    destruct (acquire_steps src s1 Ha1) as (ops2 & Hint2 & Hrun2).
    exists (ops1 ++ ops2). split; [now apply Forall_app|].
    change (SwitchSource src :: ops1 ++ ops2)
      with ((SwitchSource src :: ops1) ++ ops2).
    rewrite (run_split _ ops2 _ _ Hrun1), Hrun2, <- Hs1.
    destruct (getReader src s1) as [s2|]; [|reflexivity].
    now destruct (_pumpStream s2).
  - exists []. split; [constructor|].
    unfold at_rest at 1. cbn [run exec waiting]. unfold switchSource_start.
    cbn [this]. now rewrite Ha.
Qed.

End SwitchableInvariants.

(** * More on the continuation orchestrator *)

Module ChatInvariants.
Import Js Chat ChatFacts.

Section WithImports.

Variable MAX_RESPONSE_SEGMENTS : Z.
Variable CONTINUE_PROMPT : string.
Variable extractPropertiesFromMessage : option Message -> string * string.

#[local] Abbreviation onFinish :=
  (onFinish MAX_RESPONSE_SEGMENTS CONTINUE_PROMPT extractPropertiesFromMessage).
#[local] Abbreviation segments :=
  (segments MAX_RESPONSE_SEGMENTS CONTINUE_PROMPT extractPropertiesFromMessage).
#[local] Abbreviation chatAction :=
  (chatAction MAX_RESPONSE_SEGMENTS CONTINUE_PROMPT extractPropertiesFromMessage).

(** ** Progress events are numbered *)

Lemma count_from_snoc (a : Z) (n : nat) :
  count_from a n ++ [a + Z.of_nat n] = count_from a (S n).
Proof.
  revert a. induction n as [|n IH]; intros a.
  - cbn. now rewrite Z.add_0_r.
  - cbn [count_from app]. f_equal.
    replace (a + Z.of_nat (S n)) with (a + 1 + Z.of_nat n) by lia.
    apply IH.
Qed.

Lemma orders_app (ds ds' : list DataPart) :
  orders (ds ++ ds') = orders ds ++ orders ds'.
Proof. unfold orders. apply flat_map_app. Qed.

Lemma writeProgress_numbered (label status message : string) (c : ChatState) :
  numbered c -> numbered (writeProgress label status message c).
Proof.
  intros (n & Ho & Hp). exists (S n). cbn [writeProgress write dataStream progressCounter].
  rewrite orders_app, Ho, Hp. cbn [orders flat_map app]. split.
  - apply count_from_snoc.
  - lia.
Qed.

Lemma numbered_ext (c c' : ChatState) :
  orders (dataStream c') = orders (dataStream c) ->
  progressCounter c' = progressCounter c ->
  numbered c -> numbered c'.
Proof. unfold numbered. now intros -> ->. Qed.

Lemma addUsage_numbered (u : option Usage) (c : ChatState) :
  numbered c -> numbered (addUsage u c).
Proof. destruct u; [apply numbered_ext; reflexivity|trivial]. Qed.

Lemma auxiliary_numbered (us : list (option Usage)) (c : ChatState) :
  numbered c -> numbered (fold_left (fun c u => onFinishAuxiliary u c) us c).
Proof.
  revert c. induction us as [|u us IH]; intros c Hc; [exact Hc|].
  cbn [fold_left]. apply IH, addUsage_numbered, Hc.
Qed.

Lemma write_numbered (d : DataPart) (c : ChatState) :
  match d with Progress _ _ _ _ => False | _ => True end ->
  numbered c -> numbered (write d c).
Proof.
  intros Hd. apply numbered_ext; [|reflexivity].
  cbn [write dataStream]. rewrite orders_app.
  destruct d; try contradiction; cbn; now rewrite app_nil_r.
Qed.

Lemma streamText_numbered (c : ChatState) : numbered c -> numbered (streamText c).
Proof.
  intros Hc. unfold streamText. apply write_numbered; [exact I|].
  revert Hc. apply numbered_ext; reflexivity.
Qed.

Lemma onFinish_numbered (ev : FinishEvent) (c : ChatState) :
  numbered c -> numbered (state_of (onFinish ev c)).
Proof.
  intros Hc. unfold Chat.onFinish.
  destruct (is_length (finishReason ev)); cbn [negb].
  - destruct (_ >=? _); cbn [state_of].
    + now apply addUsage_numbered.
    + apply streamText_numbered.
      apply (addUsage_numbered (usage ev)) in Hc. revert Hc.
      apply numbered_ext; reflexivity.
  - cbn [state_of]. apply writeProgress_numbered, write_numbered; [exact I|].
    now apply addUsage_numbered.
Qed.

Lemma segments_numbered (evs : list FinishEvent) (c : ChatState) :
  numbered c -> numbered (snd (segments evs c)).
Proof.
  revert c. induction evs as [|ev evs IH]; intros c Hc; [exact Hc|].
  cbn [Chat.segments]. pose proof (onFinish_numbered ev c Hc) as H.
  destruct (onFinish ev c) as [c'|message c']; cbn [state_of] in H; [|exact H].
  destruct (is_length (finishReason ev)); [now apply IH|exact H].
Qed.

(** X15.  Whatever a request brings and however its segments end, the
    progress events [chatAction] writes carry the order numbers 1, 2,
    3, ... in the order they are written, without gap or repetition,
    and [progressCounter] is the next number. *)
Theorem progress_is_numbered (x : Exchange) :
  let c := snd (chatAction x) in
  orders (dataStream c) = count_from 1 (List.length (orders (dataStream c))) /\
  progressCounter c = 1 + Z.of_nat (List.length (orders (dataStream c))).
Proof.
  cbn zeta.
  assert (H : numbered (snd (chatAction x))).
  { unfold Chat.chatAction. apply segments_numbered, streamText_numbered.
    apply writeProgress_numbered.
    assert (H0 : numbered (mkChat Switchable.constructor (mkTotals 0 0 0) 1
                                  (messages x) [] []))
      by (exists 0%nat; split; reflexivity).
    destruct (optimise x); [|exact H0].
    unfold optimiseContext.
    apply writeProgress_numbered, write_numbered; [exact I|].
    apply auxiliary_numbered, writeProgress_numbered, write_numbered; [exact I|].
    apply writeProgress_numbered, auxiliary_numbered, writeProgress_numbered, H0. }
  destruct H as (n & Ho & Hp).
  assert (Hn : List.length (orders (dataStream (snd (chatAction x)))) = n).
  { rewrite Ho. clear. generalize 1. induction n; intros a; cbn; auto. }
  rewrite Hn. split; assumption.
Qed.

(** ** The conversation is carried on *)

Lemma conversations_head (ms : list Message) (evs : list FinishEvent) :
  conversations CONTINUE_PROMPT extractPropertiesFromMessage ms evs =
  ms :: tl (conversations CONTINUE_PROMPT extractPropertiesFromMessage ms evs).
Proof. now destruct evs. Qed.

Lemma onFinish_truncated (ev : FinishEvent) (c : ChatState) :
  Switchable.switches (stream c) < MAX_RESPONSE_SEGMENTS ->
  is_truncated ev ->
  exists c',
    onFinish ev c = Return c' /\
    processedMessages c' =
      carried_on CONTINUE_PROMPT extractPropertiesFromMessage
                 (processedMessages c) ev /\
    requests c' = requests c ++ [processedMessages c'] /\
    stream c' = stream c /\
    usageAnnotations (dataStream c') = usageAnnotations (dataStream c).
Proof.
  intros Hlt Hev. unfold Chat.onFinish. rewrite Hev. cbn [is_length negb].
  rewrite addUsage_stream.
  replace (_ >=? _) with false
    by (symmetry; rewrite Z.geb_leb; apply Z.leb_gt; lia).
  eexists. split; [reflexivity|].
  unfold carried_on, streamText. cbn [processedMessages requests stream dataStream
    write with_processedMessages].
  destruct (usage ev); cbn [addUsage with_cumulativeUsage processedMessages requests
    stream dataStream]; rewrite <- ?app_assoc; cbn [app];
    unfold usageAnnotations; rewrite flat_map_app; cbn [flat_map];
    rewrite ?app_nil_r; auto.
Qed.

Lemma segments_conversations (evs : list FinishEvent) (c : ChatState) :
  Switchable.switches (stream c) < MAX_RESPONSE_SEGMENTS ->
  Forall is_truncated evs ->
  requests (snd (segments evs c)) =
    requests c ++ tl (conversations CONTINUE_PROMPT extractPropertiesFromMessage
                                    (processedMessages c) evs).
Proof.
  revert c. induction evs as [|ev evs IH]; intros c Hlt Htr.
  - cbn. now rewrite app_nil_r.
  - inversion Htr as [|? ? Hev Hrest]; subst.
    destruct (onFinish_truncated ev c Hlt Hev) as (c' & Hret & Hpm & Hrq & Hst & _).
    cbn [Chat.segments]. rewrite Hret, Hev. cbn [is_length].
    rewrite IH; [|now rewrite Hst|exact Hrest].
    rewrite Hrq, Hpm, <- app_assoc. cbn [conversations tl app].
    now rewrite <- conversations_head.
Qed.

Lemma lastUserMessage_carried_on (ms : list Message) (ev : FinishEvent) :
  lastUserMessage (carried_on CONTINUE_PROMPT extractPropertiesFromMessage ms ev) =
  Some (mkMessage user
          (continuation_text CONTINUE_PROMPT extractPropertiesFromMessage ms)).
Proof.
  unfold lastUserMessage, carried_on. rewrite filter_app. cbn [filter role].
  rewrite map_app. cbn [map]. apply last_last.
Qed.

(** X16.  When every segment of a request is cut at the length limit
    (and the maximum is at least 1), the conversations sent to the
    transport are the original one and then, per segment, the previous
    one with two messages added: the assistant's partial text and the
    user directive to continue; nothing already sent is dropped or
    rewritten.  That directive is then the last user message, so it is
    what the next continuation reads the model and provider off. *)
Theorem history_is_carried (x : Exchange) :
  1 <= MAX_RESPONSE_SEGMENTS ->
  Forall is_truncated (finishes x) ->
  requests (snd (chatAction x)) =
    conversations CONTINUE_PROMPT extractPropertiesFromMessage
                  (messages x) (finishes x) /\
  forall (ms : list Message) (ev : FinishEvent),
    lastUserMessage
      (carried_on CONTINUE_PROMPT extractPropertiesFromMessage ms ev) =
    Some (mkMessage user
            (continuation_text CONTINUE_PROMPT extractPropertiesFromMessage ms)).
Proof.
  intros Hmax Htr. split; [|exact lastUserMessage_carried_on].
  unfold Chat.chatAction.
  match goal with |- context [Chat.segments _ _ _ _ (streamText ?c0)] =>
    set (c := c0) end.
  assert (Hc : stream c = Switchable.constructor /\ requests c = [] /\
               processedMessages c = messages x).
  { subst c. cbn [writeProgress write stream requests processedMessages].
    destruct (optimise x); [|repeat split].
    destruct (optimiseContext_keeps (summaryUsage x) (selectUsage x)
                (mkChat Switchable.constructor (mkTotals 0 0 0) 1 (messages x) [] []))
      as (Hs & Hr & _).
    rewrite Hs, Hr. repeat split.
    unfold optimiseContext. cbn [writeProgress write processedMessages].
    assert (Haux : forall us c0,
               processedMessages (fold_left (fun c u => onFinishAuxiliary u c) us c0)
               = processedMessages c0).
    { induction us as [|u us IH]; intros c0; [reflexivity|].
      cbn [fold_left]. rewrite IH. now destruct u. }
    rewrite Haux. cbn [writeProgress write processedMessages].
    rewrite Haux. reflexivity. }
  destruct Hc as (Hs & Hr & Hp). clearbody c.
  rewrite segments_conversations; [|unfold streamText; cbn; rewrite Hs; cbn; lia|exact Htr].
  unfold streamText. cbn [requests processedMessages write]. rewrite Hr, Hp.
  cbn [app]. now rewrite <- conversations_head.
Qed.

(** ** The usage annotation *)

Lemma usageAnnotations_app (ds ds' : list DataPart) :
  usageAnnotations (ds ++ ds') = usageAnnotations ds ++ usageAnnotations ds'.
Proof. unfold usageAnnotations. apply flat_map_app. Qed.

Lemma auxiliary_dataStream (us : list (option Usage)) (c : ChatState) :
  dataStream (fold_left (fun c u => onFinishAuxiliary u c) us c) = dataStream c.
Proof.
  revert c. induction us as [|u us IH]; intros c; [reflexivity|].
  cbn [fold_left]. rewrite IH. now destruct u.
Qed.

Lemma optimiseContext_silent (su se : list (option Usage)) (c : ChatState) :
  usageAnnotations (dataStream (optimiseContext su se c)) =
  usageAnnotations (dataStream c).
Proof.
  unfold optimiseContext. cbn [writeProgress write dataStream].
  rewrite !usageAnnotations_app, auxiliary_dataStream.
  cbn [writeProgress write dataStream].
  rewrite !usageAnnotations_app, auxiliary_dataStream.
  cbn [writeProgress write dataStream].
  rewrite !usageAnnotations_app. cbn. now rewrite !app_nil_r.
Qed.

Lemma onFinish_completing (ev : FinishEvent) (c : ChatState) :
  is_length (finishReason ev) = false ->
  exists c',
    onFinish ev c = Return c' /\
    cumulativeUsage c' = add_report (usage ev) (cumulativeUsage c) /\
    usageAnnotations (dataStream c') =
      usageAnnotations (dataStream c) ++ [cumulativeUsage c'] /\
    requests c' = requests c.
Proof.
  intros Hev. unfold Chat.onFinish. rewrite Hev. cbn [negb].
  eexists. split; [reflexivity|].
  cbn [writeProgress write cumulativeUsage dataStream requests].
  rewrite !usageAnnotations_app. cbn [usageAnnotations flat_map app].
  rewrite app_nil_r, addUsage_usage.
  destruct (usage ev); cbn; auto.
Qed.

Lemma segments_done (truncs : list FinishEvent) (ev : FinishEvent)
      (rest : list FinishEvent) (c : ChatState) :
  Switchable.switches (stream c) < MAX_RESPONSE_SEGMENTS ->
  Forall is_truncated truncs ->
  is_length (finishReason ev) = false ->
  fst (segments (truncs ++ ev :: rest) c) = Done /\
  cumulativeUsage (snd (segments (truncs ++ ev :: rest) c)) =
    fold_left (fun t u => add_report u t) (map usage (truncs ++ [ev]))
              (cumulativeUsage c) /\
  usageAnnotations (dataStream (snd (segments (truncs ++ ev :: rest) c))) =
    usageAnnotations (dataStream c)
      ++ [cumulativeUsage (snd (segments (truncs ++ ev :: rest) c))] /\
  List.length (requests (snd (segments (truncs ++ ev :: rest) c))) =
    (List.length (requests c) + List.length truncs)%nat.
Proof.
  revert c. induction truncs as [|tr truncs IH]; intros c Hlt Htr Hev.
  - cbn [app Chat.segments map fold_left List.length].
    destruct (onFinish_completing ev c Hev) as (c' & Hret & Hu & Ha & Hr).
    rewrite Hret, Hev. cbn [fst snd]. rewrite Hr. repeat split; auto.
  - inversion Htr as [|? ? Htr1 Hrest]; subst.
    destruct (onFinish_truncated tr c Hlt Htr1) as (c' & Hret & Hpm & Hrq & Hst & Hua).
    pose proof (onFinish_usage MAX_RESPONSE_SEGMENTS CONTINUE_PROMPT
                  extractPropertiesFromMessage tr c) as Hus.
    rewrite Hret in Hus. cbn [state_of] in Hus.
    cbn [app Chat.segments map fold_left List.length]. rewrite Hret, Htr1.
    cbn [is_length].
    destruct (IH c') as (I1 & I2 & I3 & I4); [now rewrite Hst|exact Hrest|exact Hev|].
    split; [exact I1|]. split; [now rewrite I2, Hus|].
    split; [now rewrite I3, Hua|].
    rewrite I4. rewrite Hrq at 1. rewrite length_app. cbn [List.length]. lia.
Qed.

(** X17.  When a request's segments are cut at the length limit until
    one finishes for another reason (the maximum being at least 1),
    [chatAction] writes exactly one usage annotation, after that last
    segment, and it carries the element-wise sum of the usage of the
    auxiliary calls and of every segment up to it; as long as every
    segment has been cut, no usage annotation is written at all. *)
Theorem usage_is_announced (x : Exchange) :
  1 <= MAX_RESPONSE_SEGMENTS ->
  (forall (truncs : list FinishEvent) (ev : FinishEvent) (rest : list FinishEvent),
      finishes x = truncs ++ ev :: rest ->
      Forall is_truncated truncs ->
      finishReason ev <> length ->
      fst (chatAction x) = Done /\
      continuations (snd (chatAction x)) = List.length truncs /\
      usageAnnotations (dataStream (snd (chatAction x))) =
        [sumUsage ((if optimise x then summaryUsage x ++ selectUsage x else [])
                     ++ map usage (truncs ++ [ev]))]) /\
  (Forall is_truncated (finishes x) ->
   usageAnnotations (dataStream (snd (chatAction x))) = []).
Proof.
  intros Hmax. unfold Chat.chatAction.
  match goal with |- context [Chat.segments _ _ _ _ ?c0] => set (c := c0) end.
  assert (Hc : stream c = Switchable.constructor /\
               List.length (requests c) = 1%nat /\
               usageAnnotations (dataStream c) = [] /\
               cumulativeUsage c =
                 sumUsage (if optimise x
                           then summaryUsage x ++ selectUsage x else [])).
  { subst c. unfold streamText.
    cbn [writeProgress write stream requests dataStream cumulativeUsage].
    rewrite !usageAnnotations_app. cbn [usageAnnotations flat_map app].
    destruct (optimise x).
    - destruct (optimiseContext_keeps (summaryUsage x) (selectUsage x)
                  (mkChat Switchable.constructor (mkTotals 0 0 0) 1 (messages x) [] []))
        as (Hs & Hr & Hu).
      rewrite Hs, Hr, Hu, optimiseContext_silent.
      cbn. rewrite reports_sum.
      now rewrite plus_zero_l.
    - repeat split. }
  destruct Hc as (Hs & Hr & Ha & Hu). clearbody c.
  assert (Hlt : Switchable.switches (stream c) < MAX_RESPONSE_SEGMENTS)
    by (rewrite Hs; cbn; lia).
  split.
  - intros truncs ev rest Hx Htr Hev. rewrite Hx.
    destruct (segments_done truncs ev rest c Hlt Htr) as (D1 & D2 & D3 & D4).
    { destruct (finishReason ev); try reflexivity. now contradict Hev. }
    split; [exact D1|]. split.
    + unfold continuations. rewrite D4, Hr. reflexivity.
    + rewrite D3, Ha, D2, Hu. cbn [app].
      rewrite reports_sum.
      now rewrite sumUsage_app.
  - intros Htr. clear Hr Hu.
    revert c Hs Ha Hlt. induction Htr as [|ev evs Hev _ IH]; intros c Hs Ha Hlt.
    + exact Ha.
    + destruct (onFinish_truncated ev c Hlt Hev) as (c' & Hret & _ & _ & Hst & Hua).
      cbn [Chat.segments]. rewrite Hret, Hev. cbn [is_length].
      apply IH; [congruence|congruence|now rewrite Hst].
Qed.

End WithImports.

(** The two segments of the design scenario: one annotation, with the
    sums. *)
Lemma usage_is_announced_witness :
  usageAnnotations
    (dataStream (snd (chatAction 10 "continue" (fun _ => (""%string, ""%string))
                                 two_segments)))
    = [mkTotals 500 550 1050].
Proof.
  destruct (usage_is_announced 10 "continue" (fun _ => (""%string, ""%string))
              two_segments) as [Hdone _]; [lia|].
  destruct (Hdone [truncated "first part" (report 400 50 450)]
                  (completed "second part" (report 100 500 600)) [])
    as (_ & _ & Hann).
  - reflexivity.
  - repeat constructor.
  - discriminate.
  - rewrite Hann. reflexivity.
Defined.

(** Two truncated segments: three conversations, each two messages
    longer than the one before. *)
Lemma history_is_carried_witness :
  map (@List.length Message)
      (requests (snd (chatAction 2 "continue" (fun _ => (""%string, ""%string))
                                 (never_done [mkMessage user "hi"] "part" None 2))))
    = [1; 3; 5]%nat.
Proof.
  destruct (history_is_carried 2 "continue" (fun _ => (""%string, ""%string))
              (never_done [mkMessage user "hi"] "part" None 2)) as [Hreq _].
  - lia.
  - repeat constructor.
  - rewrite Hreq. reflexivity.
Defined.

End ChatInvariants.

(** * The error paths of the chat route *)

Module ChatErrorsFacts.
Import Js ChatErrors.

Lemma prefix_splits (p s : string) :
  String.prefix p s = true <-> exists t, s = (p ++ t)%string.
Proof.
  revert s. induction p as [|a p IH]; intros s.
  - cbn. destruct s; split; intros _; try reflexivity; eexists; reflexivity.
  - destruct s as [|b s]; cbn.
    + split; [discriminate|intros [t Ht]; discriminate].
    + destruct (Ascii.ascii_dec a b) as [->|Hne].
      * rewrite IH. split; intros [t Ht]; exists t; [now rewrite Ht|now injection Ht].
      * split; [discriminate|]. intros [t Ht]. injection Ht as Hab _. congruence.
Qed.

(** [includes] finds exactly the texts that occur. *)
Lemma includes_occurs (s sub : string) :
  includes s sub = true <-> occurs_in sub s.
Proof.
  unfold occurs_in. induction s as [|a s IH].
  - cbn [includes]. destruct (String.prefix sub EmptyString) eqn:Hp.
    + split; [intros _|reflexivity]. apply prefix_splits in Hp as [t Ht].
      exists EmptyString, t. exact Ht.
    + split; [discriminate|]. intros (b & c & Hs).
      destruct b; [|discriminate]. cbn in Hs.
      assert (Hp' : String.prefix sub EmptyString = true)
        by (apply prefix_splits; now exists c).
      congruence.
  - cbn [includes]. destruct (String.prefix sub (String a s)) eqn:Hp.
    + split; [intros _|reflexivity]. apply prefix_splits in Hp as [t Ht].
      exists EmptyString, t. exact Ht.
    + rewrite IH. split.
      * intros (b & c & Hs). exists (String a b), c. cbn. now rewrite Hs.
      * intros (b & c & Hs). destruct b as [|a' b].
        -- cbn in Hs. assert (Hp' : String.prefix sub (String a s) = true)
             by (apply prefix_splits; now exists c).
           congruence.
        -- cbn in Hs. injection Hs as _ Hs. now exists b, c.
Qed.

Lemma includes_within (s sub inner : string) :
  occurs_in inner sub -> includes s sub = true -> includes s inner = true.
Proof.
  intros (b & c & ->) Hs. apply includes_occurs in Hs as (b' & c' & ->).
  apply includes_occurs. exists (b' ++ b)%string, (c ++ c')%string.
  clear. induction b' as [|x b' IH]; cbn.
  - induction b as [|y b IHb]; cbn; [|now rewrite IHb].
    induction inner as [|z inner IHi]; cbn; [reflexivity|now rewrite IHi].
  - now rewrite IH.
Qed.

Lemma mentions_occurs (m sub : string) :
  occurs_in sub m -> mentions (Some m) sub = true.
Proof. intros H. now apply includes_occurs. Qed.

(** ** [onError] *)

(** X18.  Whatever the error, the text [onError] returns starts with
    "Custom error: "; it is one of six fixed texts or that prefix
    followed by the error's message (by "Unknown error" when the
    message is missing or empty). *)
Theorem onError_is_prefixed (e : JsError) :
  String.prefix "Custom error: " (onError e) = true /\
  (In (onError e) fixed_answers \/
   onError e = ("Custom error: " ++ orText (message e) "Unknown error")%string).
Proof.
  unfold onError, fixed_answers.
  repeat match goal with
         | |- context [if ?c then _ else _] => destruct c
         end;
    (split; [first [reflexivity|apply prefix_splits; eexists; reflexivity]|]);
    try (left; cbn; tauto).
  right. reflexivity.
Qed.

(** X19.  A message that speaks of tokens and of a rate limit is never
    answered with the rate-limit text: the token-limit rule comes
    first and fires on "token" together with "limit", so such an
    error is reported as a conversation that is too long (unless one
    of the three rules before it applies). *)
Theorem token_limit_shadows_rate_limit (m : string) (c : option Z)
        (p : option string) :
  occurs_in "token" m ->
  occurs_in "rate limit" m ->
  In (onError (mkError (Some m) c p))
     [invalid_model; invalid_response; invalid_key; token_limit] /\
  onError (mkError (Some m) c p) <> rate_limit.
Proof.
  intros Htok Hrate.
  assert (Hne : m <> EmptyString).
  { destruct Htok as (b & a & ->). destruct b; discriminate. }
  assert (Hm : orText (Some m) "Unknown error" = m)
    by (destruct m; [now contradict Hne|reflexivity]).
  assert (Ht : includes m "token" = true) by now apply includes_occurs.
  assert (Hl : includes m "limit" = true).
  { apply (includes_within m "rate limit" "limit").
    - exists "rate "%string, EmptyString. reflexivity.
    - now apply includes_occurs. }
  unfold onError. cbn [message]. rewrite Hm, Ht, Hl. cbn [andb].
  repeat match goal with
         | |- context [if ?c then _ else _] => destruct c
         end;
    (split; [cbn; tauto|discriminate]).
Qed.

Lemma token_limit_shadows_rate_limit_witness :
  onError tokens_per_minute = token_limit.
Proof.
  destruct (token_limit_shadows_rate_limit
              "rate limit reached: too many tokens per minute" None None)
    as [Hin _].
  - exists "rate limit reached: too many "%string, "s per minute"%string.
    reflexivity.
  - exists EmptyString, " reached: too many tokens per minute"%string.
    reflexivity.
  - reflexivity.
Defined.

(** ** The [catch] block *)

(** X20.  Every response the [catch] block returns is coherent: its
    status is the [statusCode] of its body as the [Response]
    constructor converts it (modulo 65536, so the very same for a
    status code below 65536), a status a response with a body can
    have; the body is marked as an error and names the provider of
    the error ("unknown" when it has none); the content type is JSON;
    and a retry delay appears in the body exactly when the
    Retry-After header is there, which is only on a retryable 429.
    A response is returned only for an error whose message is missing
    or a text. *)
Theorem error_response_is_coherent (error : Caught) (r : Response) :
  errorResponse error = Responded r ->
  status r = toUint16 (b_statusCode (body r)) /\
  (0 <= b_statusCode (body r) < 65536 -> status r = b_statusCode (body r)) /\
  200 <= status r <= 599 /\
  ~ In (status r) [204; 205; 304] /\
  b_error (body r) = true /\
  (exists e, error = an_error e /\
             b_provider (body r) = orText (provider e) "unknown") /\
  In json (headers r) /\
  (b_retryAfter (body r) = Some 60 <->
   In ("Retry-After", "60")%string (headers r)) /\
  (b_retryAfter (body r) <> None ->
   status r = 429 /\ b_isRetryable (body r) = true).
Proof.
  destruct error as [| |e]; cbn [errorResponse]; try discriminate.
  intros H.
  assert (Hsmall : status r = toUint16 (b_statusCode (body r)) ->
                   0 <= b_statusCode (body r) < 65536 ->
                   status r = b_statusCode (body r)).
  { intros -> Hr. unfold toUint16. now apply Z.mod_small. }
  enough (Hrest :
    status r = toUint16 (b_statusCode (body r)) /\
    200 <= status r <= 599 /\
    ~ In (status r) [204; 205; 304] /\
    b_error (body r) = true /\
    b_provider (body r) = orText (provider e) "unknown" /\
    In json (headers r) /\
    (b_retryAfter (body r) = Some 60 <->
     In ("Retry-After", "60")%string (headers r)) /\
    (b_retryAfter (body r) <> None ->
     status r = 429 /\ b_isRetryable (body r) = true)).
  { destruct Hrest as (H1 & H2 & H3 & H4 & H5 & H6 & H7 & H8).
    split; [exact H1|]. split; [exact (Hsmall H1)|]. split; [exact H2|].
    split; [exact H3|]. split; [exact H4|]. split; [now exists e|].
    split; [exact H6|]. split; [exact H7|exact H8]. }
  clear Hsmall. revert H. unfold respond.
  repeat match goal with
         | |- context [if ?c then _ else _] => destruct c
         end;
    unfold newResponse;
    try (cbn; intros H; injection H as <-; cbn;
         repeat split; try lia; try tauto; try discriminate;
         try (intros [H|[H|[H|[]]]]; discriminate);
         try (intros [H|[]]; discriminate); auto).
  cbv zeta. cbn [b_statusCode].
  set (st := toUint16 (orElse (statusCode e) 500)).
  destruct ((st <? 200) || (599 <? st)) eqn:Hrange; [discriminate|].
  destruct ((st =? 204) || _ || _) eqn:Hnull; [discriminate|].
  apply orb_false_iff in Hrange as [H1 H2].
  apply Z.ltb_ge in H1, H2.
  apply orb_false_iff in Hnull as [Hnull H304].
  apply orb_false_iff in Hnull as [H204 H205].
  apply Z.eqb_neq in H204, H205, H304.
  intros H; injection H as <-. cbn [status body b_statusCode b_error b_provider
    headers b_retryAfter] in *.
  repeat match goal with |- _ /\ _ => split end;
    try assumption; try reflexivity; try (now left).
  - intros [H|[H|[H|[]]]]; congruence.
  - split; [discriminate|intros [H|[]]; discriminate].
  - intros H. now contradict H.
Qed.

Lemma error_response_is_coherent_witness :
  exists r, errorResponse tokens_per_minute = Responded r /\ status r = 429 /\
            b_statusCode (body r) = 429.
Proof.
  eexists. split; [reflexivity|].
  destruct (error_response_is_coherent tokens_per_minute _ eq_refl)
    as (_ & Hst & _).
  split; [reflexivity|]. rewrite <- Hst; [reflexivity|]. cbn. lia.
Defined.

(** X21.  The rules of the [catch] block apply in order: a message
    that mentions an API key is always answered 401 and not
    retryable, whatever else it says and whatever status it carries;
    failing that, one that mentions a quota or storage is answered
    507 and not retryable; failing that, one that mentions a rate
    limit or 429 is answered 429, retryable, with Retry-After 60. *)
Theorem error_response_precedence (m : string) (c : option Z) (p : option string) :
  let error := mkError (Some m) c p in
  (occurs_in "API key" m ->
   exists r, errorResponse error = Responded r /\ status r = 401 /\
             b_isRetryable (body r) = false /\
             b_message (body r) = "Invalid or missing API key"%string) /\
  (~ occurs_in "API key" m ->
   occurs_in "quota" m \/ occurs_in "storage" m ->
   exists r, errorResponse error = Responded r /\ status r = 507 /\
             b_isRetryable (body r) = false) /\
  (~ occurs_in "API key" m ->
   ~ occurs_in "quota" m -> ~ occurs_in "storage" m ->
   occurs_in "rate limit" m \/ occurs_in "429" m ->
   exists r, errorResponse error = Responded r /\ status r = 429 /\
             b_isRetryable (body r) = true /\
             b_retryAfter (body r) = Some 60 /\
             In ("Retry-After", "60")%string (headers r)).
Proof.
  cbn zeta. cbn [errorResponse]. unfold respond. cbn [message mentions].
  assert (Hno : forall sub, ~ occurs_in sub m -> includes m sub = false).
  { intros sub H. destruct (includes m sub) eqn:E; [|reflexivity].
    apply includes_occurs in E. contradiction. }
  split; [|split].
  - intros H. rewrite (proj2 (includes_occurs m "API key") H).
    eexists. split; [reflexivity|]. repeat split.
  - intros Hk Hq. rewrite (Hno _ Hk).
    assert (Hq' : includes m "quota" || includes m "storage" = true).
    { apply orb_true_iff. destruct Hq as [H|H]; [left|right];
        now apply includes_occurs. }
    rewrite Hq'. eexists. split; [reflexivity|]. repeat split.
  - intros Hk Hq Hs Hr. rewrite (Hno _ Hk), (Hno _ Hq), (Hno _ Hs).
    assert (Hr' : includes m "rate limit" || includes m "429" = true).
    { apply orb_true_iff. destruct Hr as [H|H]; [left|right];
        now apply includes_occurs. }
    rewrite Hr'. cbn [orb]. eexists. split; [reflexivity|].
    cbn. repeat split. right. now left.
Qed.

Lemma error_response_precedence_witness :
  exists r,
    errorResponse (mkError (Some "429: invalid API key"%string) (Some 429) None)
      = Responded r /\ status r = 401.
Proof.
  destruct (error_response_precedence "429: invalid API key" (Some 429) None)
    as [Hkey _].
  destruct Hkey as (r & Hr & Hst & _).
  - exists "429: invalid "%string, EmptyString. reflexivity.
  - exists r. split; assumption.
Defined.

(** The [Response] constructor refuses the status [c]. *)
Lemma newResponse_raises (b : Body) (c : Z) (hs : list (string * string))
      (text : string) :
  (exists kind, newResponse b c hs text = Raised kind) <->
  (toUint16 c < 200 \/ 599 < toUint16 c \/
   toUint16 c = 204 \/ toUint16 c = 205 \/ toUint16 c = 304).
Proof.
  unfold newResponse. cbv zeta. set (st := toUint16 c).
  destruct (Z.ltb_spec st 200); cbn [orb];
    [split; [intros _; auto|intros _; eexists; reflexivity]|].
  destruct (Z.ltb_spec 599 st); cbn [orb];
    [split; [intros _; auto|intros _; eexists; reflexivity]|].
  destruct (Z.eqb_spec st 204); cbn [orb];
    [split; [intros _; auto|intros _; eexists; reflexivity]|].
  destruct (Z.eqb_spec st 205); cbn [orb];
    [split; [intros _; auto|intros _; eexists; reflexivity]|].
  destruct (Z.eqb_spec st 304); cbn [orb];
    [split; [intros _; auto 6|intros _; eexists; reflexivity]|].
  split; [intros [k Hk]; discriminate|lia].
Qed.

(** X22.  The [catch] block itself throws exactly in these cases:
    the error is [null] or [undefined], or its message is there but
    cannot be searched (the first [error.message?.includes] is a
    [TypeError]); or else none of the three rules applies and the
    error carries a status code, other than 0, that taken modulo
    65536 is outside 200..599 or equal to 204, 205 or 304, which the
    [Response] constructor refuses. *)
Theorem error_response_may_throw (error : Caught) :
  (exists kind, errorResponse error = Raised kind) <->
  match error with
  | nullish => True
  | unsearchable => True
  | an_error e =>
      mentions (message e) "API key" = false /\
      mentions (message e) "quota" = false /\
      mentions (message e) "storage" = false /\
      mentions (message e) "rate limit" = false /\
      mentions (message e) "429" = false /\
      exists c, statusCode e = Some c /\ c <> 0 /\
                (toUint16 c < 200 \/ 599 < toUint16 c \/
                 toUint16 c = 204 \/ toUint16 c = 205 \/ toUint16 c = 304)
  end.
Proof.
  destruct error as [| |e]; cbn [errorResponse];
    try (split; [exact (fun _ => I)|intros _; eexists; reflexivity]).
  unfold respond.
  destruct (mentions (message e) "API key");
    [split; [intros [k H]; discriminate|intros (H & _); discriminate]|].
  destruct (mentions (message e) "quota");
    [split; [intros [k H]; discriminate|intros (_ & H & _); discriminate]|].
  destruct (mentions (message e) "storage");
    [split; [intros [k H]; discriminate|intros (_ & _ & H & _); discriminate]|].
  destruct (mentions (message e) "rate limit");
    [split; [intros [k H]; discriminate|intros (_ & _ & _ & H & _); discriminate]|].
  destruct (mentions (message e) "429");
    [split; [intros [k H]; discriminate
            |intros (_ & _ & _ & _ & H & _); discriminate]|].
  cbn [orb b_statusCode]. rewrite newResponse_raises. unfold orElse.
  destruct (statusCode e) as [c|].
  - destruct (Z.eqb_spec c 0) as [->|Hc0].
    + split;
        [intros H; cbv beta iota in H; change (toUint16 500) with 500 in H;
         lia|].
      intros (_ & _ & _ & _ & _ & c & Hc & Hne & _). congruence.
    + split.
      * intros H. repeat split. exists c. auto.
      * intros (_ & _ & _ & _ & _ & c' & Hc & _ & Hor). now injection Hc as <-.
  - split; [intros H; change (toUint16 500) with 500 in H; lia|].
    intros (_ & _ & _ & _ & _ & c & Hc & _). discriminate.
Qed.

(** A thrown [undefined], and a status code that wraps to 9 as much
    as one that is 9. *)
Lemma error_response_may_throw_cases :
  errorResponse nullish = Raised "TypeError" /\
  errorResponse (mkError (Some "boom"%string) (Some 65545) None)
    = Raised "RangeError" /\
  (exists r, errorResponse (mkError (Some "boom"%string) (Some 65736) None)
             = Responded r /\ status r = 200 /\ b_statusCode (body r) = 65736).
Proof.
  split; [reflexivity|]. split; [reflexivity|].
  eexists. split; [reflexivity|]. split; reflexivity.
Qed.

End ChatErrorsFacts.

(** * The route that exports the API keys *)

Module ApiKeysFacts.
Import JsObject ApiKeys.

Section Loader.

Variable serverEnv processEnv managerEnv : Env.

#[local] Abbreviation visit := (visit serverEnv processEnv managerEnv).
#[local] Abbreviation loader := (loader serverEnv processEnv managerEnv).
#[local] Abbreviation envKey := (envKey serverEnv processEnv managerEnv).

Lemma firstTruthy_nonempty (a b c : option string) (v : string) :
  firstTruthy a b c = Some v -> v <> EmptyString.
Proof.
  unfold firstTruthy.
  destruct a as [[|x a]|], b as [[|y b]|], c as [[|z c]|];
    intros H; try discriminate; injection H as <-; discriminate.
Qed.

Lemma own_set (k k' v : string) (o : Obj) :
  own k (set k' v o) =
  if String.eqb k' "__proto__" then own k o
  else if String.eqb k k' then Some v else own k o.
Proof.
  unfold set. destruct (String.eqb k' "__proto__"); reflexivity.
Qed.

Lemma truthy_text (k : string) (o : Obj) (v : string) :
  own k o = Some v -> v <> EmptyString -> truthy (get k o) = true.
Proof.
  intros Ho Hv. unfold get. rewrite Ho. destruct v; [contradiction|reflexivity].
Qed.

(** One provider leaves every key that holds a text alone. *)
Lemma visit_keeps (apiKeys : Obj) (p : Provider) (k v : string) :
  own k apiKeys = Some v -> v <> EmptyString -> own k (visit apiKeys p) = Some v.
Proof.
  intros Ho Hv. unfold ApiKeys.visit.
  destruct (apiTokenKey p) as [[|x e]|]; try exact Ho.
  destruct (truthy (get (name p) apiKeys)) eqn:Ht; [exact Ho|].
  destruct (firstTruthy _ _ _); [|exact Ho].
  rewrite own_set. destruct (String.eqb (name p) "__proto__"); [exact Ho|].
  destruct (String.eqb_spec k (name p)) as [->|_]; [|exact Ho].
  rewrite (truthy_text _ _ _ Ho Hv) in Ht. discriminate.
Qed.

Lemma visit_other (apiKeys : Obj) (p : Provider) (k : string) :
  name p <> k -> own k (visit apiKeys p) = own k apiKeys.
Proof.
  intros Hne. unfold ApiKeys.visit.
  destruct (apiTokenKey p) as [[|x e]|]; try reflexivity.
  destruct (truthy _); [reflexivity|].
  destruct (firstTruthy _ _ _); [|reflexivity].
  rewrite own_set. destruct (String.eqb (name p) "__proto__"); [reflexivity|].
  destruct (String.eqb_spec k (name p)) as [->|_]; [contradiction|reflexivity].
Qed.

Lemma loader_other (apiKeys : Obj) (ps : list Provider) (k : string) :
  (forall q, In q ps -> name q <> k) ->
  own k (loader apiKeys ps) = own k apiKeys.
Proof.
  revert apiKeys. induction ps as [|q ps IH]; intros o Hne; [reflexivity|].
  unfold ApiKeys.loader in *. cbn [fold_left]. rewrite IH.
  - apply visit_other, Hne. now left.
  - intros q' Hq'. apply Hne. now right.
Qed.

Lemma visit_self (apiKeys : Obj) (p : Provider) :
  truthy (get (name p) apiKeys) = false ->
  name p <> "__proto__"%string ->
  own (name p) (visit apiKeys p) =
    match envKey p with
    | Some v => Some v
    | None => own (name p) apiKeys
    end.
Proof.
  intros Ht Hn. unfold ApiKeys.visit, ApiKeys.envKey.
  destruct (apiTokenKey p) as [[|x e]|]; try reflexivity.
  rewrite Ht. destruct (firstTruthy _ _ _); [|reflexivity].
  rewrite own_set.
  destruct (String.eqb_spec (name p) "__proto__"); [contradiction|].
  now rewrite String.eqb_refl.
Qed.

(** ** Keys from the cookie *)

(** X23.  A key the cookie supplies with a non-empty text is answered
    as it is: no provider's environment variable replaces it. *)
Theorem cookie_keys_win (apiKeysFromCookie : Obj) (providers : list Provider)
        (k v : string) :
  own k apiKeysFromCookie = Some v ->
  v <> EmptyString ->
  own k (loader apiKeysFromCookie providers) = Some v.
Proof.
  revert apiKeysFromCookie. induction providers as [|p ps IH]; intros o Ho Hv.
  - exact Ho.
  - unfold ApiKeys.loader in *. cbn [fold_left].
    apply IH; [|exact Hv]. now apply visit_keeps.
Qed.

(** ** Keys from the environment *)

(** X24.  For a provider the manager lists once, whose name is not
    [__proto__] and for which the cookie holds nothing truthy, the
    answer carries the first non-empty text among the server
    environment, the process environment and the manager's
    environment under the provider's token name, in that order; when
    there is none, or the provider has no token name, the answer
    says about that provider what the cookie said. *)
Theorem environment_fills_in (apiKeysFromCookie : Obj) (providers : list Provider)
        (p : Provider) :
  NoDup (map name providers) ->
  In p providers ->
  truthy (get (name p) apiKeysFromCookie) = false ->
  name p <> "__proto__"%string ->
  own (name p) (loader apiKeysFromCookie providers) =
    match envKey p with
    | Some v => Some v
    | None => own (name p) apiKeysFromCookie
    end /\
  (forall k v, apiTokenKey p = Some k -> k <> EmptyString ->
               serverEnv k = Some v -> v <> EmptyString -> envKey p = Some v).
Proof.
  intros Hnd Hin Ht Hn. split.
  - apply in_split in Hin as (l1 & l2 & ->).
    rewrite map_app in Hnd. cbn [map] in Hnd.
    assert (H1 : forall q, In q l1 -> name q <> name p).
    { intros q Hq Heq. apply NoDup_remove_2 in Hnd. apply Hnd.
      apply in_or_app. left. rewrite <- Heq. now apply in_map. }
    assert (H2 : forall q, In q l2 -> name q <> name p).
    { intros q Hq Heq. apply NoDup_remove_2 in Hnd. apply Hnd.
      apply in_or_app. right. rewrite <- Heq. now apply in_map. }
    unfold ApiKeys.loader. rewrite fold_left_app. cbn [fold_left].
    fold (loader apiKeysFromCookie l1).
    set (o1 := loader apiKeysFromCookie l1).
    assert (Ho1 : own (name p) o1 = own (name p) apiKeysFromCookie)
      by now apply loader_other.
    fold (loader (visit o1 p) l2). rewrite (loader_other _ l2 _ H2).
    rewrite visit_self; [now rewrite Ho1| |exact Hn].
    unfold get in *. now rewrite Ho1.
  - intros k v Hk Hne Hs Hv. unfold ApiKeys.envKey. rewrite Hk.
    destruct k; [contradiction|]. rewrite Hs.
    destruct v; [contradiction|]. reflexivity.
Qed.

(** ** Nothing else *)

(** X25.  Every key of the answer is a key of the cookie with the
    cookie's text, or the name of a listed provider with the text the
    environments hold for it. *)
Theorem only_listed_keys (apiKeysFromCookie : Obj) (providers : list Provider)
        (k v : string) :
  own k (loader apiKeysFromCookie providers) = Some v ->
  own k apiKeysFromCookie = Some v \/
  exists p, In p providers /\ name p = k /\ envKey p = Some v.
Proof.
  revert apiKeysFromCookie. induction providers as [|p ps IH]; intros o Ho.
  - now left.
  - unfold ApiKeys.loader in Ho. cbn [fold_left] in Ho.
    destruct (IH _ Ho) as [Hv|(q & Hq & Hn & He)].
    + unfold ApiKeys.visit in Hv.
      destruct (apiTokenKey p) as [[|x e]|] eqn:Hk; try (now left).
      destruct (truthy _); [now left|].
      destruct (firstTruthy _ _ _) as [w|] eqn:Hf; [|now left].
      rewrite own_set in Hv.
      destruct (String.eqb (name p) "__proto__"); [now left|].
      destruct (String.eqb_spec k (name p)) as [->|_]; [|now left].
      injection Hv as ->. right. exists p. split; [now left|].
      split; [reflexivity|]. unfold ApiKeys.envKey. now rewrite Hk.
    + right. exists q. split; [now right|]. now split.
Qed.

End Loader.

(** The cookie brings a key for one provider; the server environment
    has keys for both. *)
Lemma cookie_keys_win_witness :
  own "OpenAI"
      (loader (only "OPENAI_API_KEY" "sk-env") nothing nothing
              [("OpenAI", "sk-cookie")%string]
              [mkProvider "OpenAI" (Some "OPENAI_API_KEY"%string)])
    = Some "sk-cookie"%string.
Proof.
  apply cookie_keys_win; [reflexivity|discriminate].
Defined.

Lemma environment_fills_in_witness :
  own "Groq"
      (loader nothing (only "GROQ_API_KEY" "gsk-process") (only "GROQ_API_KEY" "gsk-manager")
              [("OpenAI", "sk-cookie")%string]
              [mkProvider "OpenAI" (Some "OPENAI_API_KEY"%string);
               mkProvider "Groq" (Some "GROQ_API_KEY"%string)])
    = Some "gsk-process"%string.
Proof.
  destruct (environment_fills_in nothing (only "GROQ_API_KEY" "gsk-process")
              (only "GROQ_API_KEY" "gsk-manager")
              [("OpenAI", "sk-cookie")%string]
              [mkProvider "OpenAI" (Some "OPENAI_API_KEY"%string);
               mkProvider "Groq" (Some "GROQ_API_KEY"%string)]
              (mkProvider "Groq" (Some "GROQ_API_KEY"%string))) as [Hown _].
  - repeat constructor; cbn; intuition discriminate.
  - right. now left.
  - reflexivity.
  - discriminate.
  - cbn [name] in Hown. rewrite Hown. reflexivity.
Defined.

Lemma only_listed_keys_witness :
  own "OpenAI" [("OpenAI", "sk-cookie")%string] = Some "sk-cookie"%string \/
  exists p, In p [mkProvider "Groq" (Some "GROQ_API_KEY"%string)] /\
            name p = "OpenAI"%string /\
            envKey nothing nothing nothing p = Some "sk-cookie"%string.
Proof.
  apply (only_listed_keys nothing nothing nothing
           [("OpenAI", "sk-cookie")%string]
           [mkProvider "Groq" (Some "GROQ_API_KEY"%string)]).
  reflexivity.
Defined.

End ApiKeysFacts.

(** * The cookies of the chat route *)

Module CookiesFacts.
Import JsObject Cookies.
Local Open Scope string_scope.

(** ** Splitting and joining *)

Lemma split_nonempty (sep : ascii) (s : string) : split sep s <> [].
Proof.
  destruct s as [|c s]; cbn; [discriminate|].
  destruct (Ascii.eqb c sep); [discriminate|].
  destruct (split sep s); discriminate.
Qed.

Lemma split_lacks (sep : ascii) (a b : string) :
  lacks sep a = true ->
  split sep (a ++ String sep b) = a :: split sep b.
Proof.
  induction a as [|c a IH]; cbn [lacks append split]; intros H.
  - now rewrite Ascii.eqb_refl.
  - apply andb_true_iff in H as [Hc Ha]. apply negb_true_iff in Hc.
    rewrite Hc, IH by exact Ha. reflexivity.
Qed.

Lemma split_whole (sep : ascii) (a : string) :
  lacks sep a = true -> split sep a = [a].
Proof.
  induction a as [|c a IH]; cbn [lacks split]; intros H; [reflexivity|].
  apply andb_true_iff in H as [Hc Ha]. apply negb_true_iff in Hc.
  rewrite Hc, IH by exact Ha. reflexivity.
Qed.

Lemma concat_cons_char (sep : string) (c : ascii) (p : string) (ps : list string) :
  String.concat sep (String c p :: ps) = String c (String.concat sep (p :: ps)).
Proof. destruct ps; reflexivity. Qed.

(** Joining the pieces of a split gives the text back. *)
Lemma concat_split (sep : ascii) (s : string) :
  String.concat (String sep EmptyString) (split sep s) = s.
Proof.
  induction s as [|c s IH]; [reflexivity|]. cbn [split].
  destruct (Ascii.eqb_spec c sep) as [->|Hne].
  - pose proof (split_nonempty sep s) as Hs.
    destruct (split sep s) as [|p ps] eqn:E; [contradiction|].
    cbn [String.concat]. cbn. now rewrite <- IH.
  - pose proof (split_nonempty sep s) as Hs.
    destruct (split sep s) as [|p ps] eqn:E; [contradiction|].
    rewrite concat_cons_char. now rewrite IH.
Qed.

(** ** Trimming *)

Lemma trimStart_length (s : string) :
  (String.length (trimStart s) <= String.length s)%nat.
Proof.
  induction s as [|c s IH]; cbn; [lia|]. destruct (isWhite c); cbn; lia.
Qed.

Lemma clean_head (c : ascii) (s : string) :
  trimStart (String c s) = String c s -> isWhite c = false.
Proof.
  cbn. destruct (isWhite c); [|reflexivity]. intros H.
  pose proof (trimStart_length s) as Hl. rewrite H in Hl. cbn in Hl. lia.
Qed.

Lemma trimStart_app (a b : string) :
  a <> EmptyString -> trimStart a = a -> trimStart (a ++ b) = a ++ b.
Proof.
  destruct a as [|c a]; [contradiction|]. intros _ H.
  apply clean_head in H. cbn. now rewrite H.
Qed.

Lemma trimEnd_app (a b : string) :
  b <> EmptyString -> trimEnd b = b -> trimEnd (a ++ b) = a ++ b.
Proof.
  intros Hb Hc. induction a as [|c a IH]; [exact Hc|].
  cbn [append trimEnd]. rewrite IH.
  destruct (a ++ b) eqn:E; [|reflexivity].
  destruct a; cbn in E; [contradiction|discriminate].
Qed.

Lemma trimEnd_equals (v : string) :
  trimEnd v = v -> trimEnd (String "=" v) = String "=" v.
Proof.
  intros H. cbn [trimEnd]. rewrite H. now destruct v.
Qed.

Lemma trim_clean (s : string) : clean s -> trim s = s.
Proof. intros [Hs He]. unfold trim. now rewrite Hs, He. Qed.

Lemma pair_text_clean (kv : string * string) : plain kv -> trim (pair_text kv) = pair_text kv.
Proof.
  intros (Hne & _ & _ & _ & [Hns Hne'] & [Hvs Hve]).
  unfold trim, pair_text. rewrite trimStart_app by assumption.
  apply trimEnd_app; [discriminate|]. now apply trimEnd_equals.
Qed.

Lemma trim_after_space (s : string) : trim (String " " s) = trim s.
Proof. reflexivity. Qed.

(** ** One item *)

Lemma lacks_app (c : ascii) (a b : string) :
  lacks c (a ++ b) = lacks c a && lacks c b.
Proof.
  induction a as [|x a IH]; cbn [append lacks]; [reflexivity|].
  now rewrite IH, andb_assoc.
Qed.

Lemma pair_text_lacks (kv : string * string) :
  plain kv -> lacks ";" (pair_text kv) = true.
Proof.
  intros (_ & Hn & _ & Hv & _). unfold pair_text.
  rewrite lacks_app, Hn. cbn [append lacks]. now rewrite Hv.
Qed.

Section Parse.

Variable decodeURIComponent : string -> option string.

Lemma eachItem_plain (kv : string * string) (o : Obj) :
  plain kv ->
  decodeURIComponent (fst kv) = Some (fst kv) ->
  decodeURIComponent (snd kv) = Some (snd kv) ->
  fst kv <> "__proto__" ->
  eachItem decodeURIComponent (Some o) (pair_text kv) = Some (kv :: o).
Proof.
  destruct kv as [n v]. cbn [fst snd].
  intros (Hne & _ & Heq & _ & Hn & Hv) Hdn Hdv Hproto.
  unfold eachItem, pair_text. cbn [fst snd].
  change (n ++ "=" ++ v) with (n ++ String "=" v).
  rewrite split_lacks by exact Heq.
  destruct n as [|c n]; [contradiction|].
  change "="%string with (String "="%char EmptyString).
  rewrite concat_split, !trim_clean by assumption.
  rewrite Hdn, Hdv. unfold set.
  now apply String.eqb_neq in Hproto as ->.
Qed.

Lemma items_after_space (s : string) :
  map trim (split ";" (String " " s)) = map trim (split ";" s).
Proof.
  cbn [split]. change (Ascii.eqb " " ";") with false. cbv iota.
  pose proof (split_nonempty ";" s) as Hs.
  destruct (split ";" s) as [|p ps]; [contradiction|]. reflexivity.
Qed.

Lemma items_of_header (items : list string) :
  items <> [] ->
  Forall (fun item => lacks ";" item = true /\ trim item = item) items ->
  map trim (split ";" (String.concat "; " items)) = items.
Proof.
  induction items as [|item items IH]; [contradiction|]. intros _ Hall.
  inversion Hall as [|? ? [Hl Ht] Hrest]; subst.
  destruct items as [|item' items].
  - cbn [String.concat]. rewrite split_whole by exact Hl. cbn [map]. now rewrite Ht.
  - change (String.concat "; " (item :: item' :: items))
      with (item ++ String ";" (String " " (String.concat "; " (item' :: items)))).
    rewrite split_lacks by exact Hl. cbn [map].
    rewrite Ht, items_after_space, IH; [reflexivity|discriminate|exact Hrest].
Qed.

Lemma fold_plain (kvs : list (string * string)) (o : Obj) :
  Forall plain kvs ->
  (forall kv, In kv kvs ->
     decodeURIComponent (fst kv) = Some (fst kv) /\
     decodeURIComponent (snd kv) = Some (snd kv) /\
     fst kv <> "__proto__") ->
  fold_left (eachItem decodeURIComponent) (map pair_text kvs) (Some o)
  = Some (rev kvs ++ o)%list.
Proof.
  revert o. induction kvs as [|kv kvs IH]; intros o Hall Hdec; [reflexivity|].
  inversion Hall as [|? ? Hkv Hrest]; subst.
  destruct (Hdec kv (or_introl eq_refl)) as (Hn & Hv & Hp).
  cbn [map fold_left]. rewrite eachItem_plain by assumption.
  rewrite IH; [|exact Hrest|intros kv' Hin; apply Hdec; now right].
  cbn [rev]. now rewrite <- app_assoc.
Qed.

Lemma fold_thrown (items : list string) :
  fold_left (eachItem decodeURIComponent) items None = None.
Proof. induction items as [|item items IH]; [reflexivity|exact IH]. Qed.

Lemma eachItem_no_proto (o o' : Obj) (item : string) :
  own "__proto__" o = None ->
  eachItem decodeURIComponent (Some o) item = Some o' ->
  own "__proto__" o' = None.
Proof.
  intros Ho. unfold eachItem.
  destruct (split "=" item) as [|name rest]; [now intros [= <-]|].
  destruct name as [|c name]; [now intros [= <-]|].
  destruct (decodeURIComponent _) as [decodedName|]; [|discriminate].
  destruct (decodeURIComponent _) as [decodedValue|]; [|discriminate].
  intros [= <-]. unfold set.
  destruct (String.eqb decodedName "__proto__") eqn:E; [exact Ho|].
  cbn [own]. rewrite String.eqb_sym, E. exact Ho.
Qed.

Lemma fold_no_proto (items : list string) (o o' : Obj) :
  own "__proto__" o = None ->
  fold_left (eachItem decodeURIComponent) items (Some o) = Some o' ->
  own "__proto__" o' = None.
Proof.
  revert o. induction items as [|item items IH]; intros o Ho; cbn [fold_left].
  - now intros [= <-].
  - destruct (eachItem decodeURIComponent (Some o) item) as [o1|] eqn:E.
    + apply IH. exact (eachItem_no_proto o o1 item Ho E).
    + now rewrite fold_thrown.
Qed.

(** X26.  A header made of cookies as a browser writes them (names
    and values without white space at their ends and without
    semicolon, names not empty and without equals sign), all left
    unchanged by the decoder and none named [__proto__], parses to
    exactly these cookies, the last one first: a value keeps the
    equals signs it contains, and of two cookies of one name the
    later is the one read. *)
Theorem header_round_trip (kvs : list (string * string)) :
  Forall plain kvs ->
  (forall kv, In kv kvs ->
     decodeURIComponent (fst kv) = Some (fst kv) /\
     decodeURIComponent (snd kv) = Some (snd kv) /\
     fst kv <> "__proto__") ->
  parseCookies decodeURIComponent (render kvs) = Some (rev kvs).
Proof.
  intros Hall Hdec. destruct kvs as [|kv kvs]; [reflexivity|].
  unfold parseCookies, render. cbv zeta.
  rewrite items_of_header.
  - rewrite fold_plain by assumption. now rewrite app_nil_r.
  - discriminate.
  - apply Forall_map. eapply Forall_impl; [|exact Hall].
    intros kv' Hkv. split; [now apply pair_text_lacks|now apply pair_text_clean].
Qed.

(** X27.  One cookie spoils the header: when the name or the value
    of any item with a non-empty first piece cannot be decoded, the
    whole parse throws, whatever the other items are. *)
Theorem one_bad_cookie_throws (cookieHeader item name : string) (rest : list string) :
  In item (map trim (split ";" cookieHeader)) ->
  split "=" item = name :: rest ->
  name <> EmptyString ->
  decodeURIComponent (trim name) = None \/
  decodeURIComponent (trim (String.concat "=" rest)) = None ->
  parseCookies decodeURIComponent cookieHeader = None.
Proof.
  intros Hin Hsplit Hname Hbad. unfold parseCookies. cbv zeta.
  apply in_split in Hin as (before & after & ->).
  rewrite fold_left_app. cbn [fold_left].
  destruct (fold_left (eachItem decodeURIComponent) before (Some [])) as [o|];
    [|apply fold_thrown].
  replace (eachItem decodeURIComponent (Some o) item) with (@None Obj);
    [apply fold_thrown|].
  unfold eachItem. rewrite Hsplit.
  destruct name as [|c name]; [contradiction|].
  destruct Hbad as [-> | Hv]; [reflexivity|].
  destruct (decodeURIComponent (trim (String c name))); [now rewrite Hv|reflexivity].
Qed.

(** X28.  No header gives the cookie object an own [__proto__]: the
    name stays with [Object.prototype], so a lookup of it finds the
    inherited member whatever was sent. *)
Theorem proto_is_never_own (cookieHeader : string) (cookies : Obj) :
  parseCookies decodeURIComponent cookieHeader = Some cookies ->
  get "__proto__" cookies = inherited.
Proof.
  intros H. unfold get.
  now rewrite (fold_no_proto _ [] cookies eq_refl H).
Qed.

End Parse.

Lemma header_round_trip_witness :
  parseCookies literally (render [("apiKeys", "{}"); ("token", "a=b=="); ("apiKeys", "x")])
  = Some [("apiKeys", "x"); ("token", "a=b=="); ("apiKeys", "{}")].
Proof.
  apply (header_round_trip literally
           [("apiKeys", "{}"); ("token", "a=b=="); ("apiKeys", "x")]).
  - repeat constructor; cbn; discriminate.
  - intros kv [<-|[<-|[<-|[]]]]; repeat split; discriminate.
Defined.

Lemma one_bad_cookie_throws_witness :
  parseCookies literally "apiKeys={}; theme=%E0%A4%A; lang=en" = None.
Proof.
  apply (one_bad_cookie_throws literally _ "theme=%E0%A4%A" "theme" ["%E0%A4%A"]).
  - vm_compute. right. left. reflexivity.
  - reflexivity.
  - discriminate.
  - right. reflexivity.
Defined.

Lemma proto_is_never_own_witness :
  get "__proto__" [("a", "1")] = inherited.
Proof.
  apply (proto_is_never_own literally "__proto__=x; a=1"). reflexivity.
Defined.

End CookiesFacts.
